(** * cvocgen: a BPE vocabulary generator for SMILES / SELFIES strings

    A shallow embedding of the training engine of [cvocgen.c] and of the
    serializers of [cvocgen_io.h], with the properties of the hash table, the
    segmenter, the merge engine, the training loop and the two file formats.

    Conventions.
    - A C string is a [string] (a sequence of bytes without NUL).
    - [unsigned int] and [unsigned long] values are [Z] with the wrap-around
      written out ([mod 2^32], [mod 2^64]); [int] counts are [Z] (signed
      overflow is undefined in C and is not modelled).
    - A chain of [Ht_item]s linked through [next] is a [list Ht_item], the
      head of the list being the item the bucket slot points to.
    - The array [items] of a table is a [list] of chains, updated by index.
    - A [FILE*] opened for reading is the [string] still to be read; a file
      written is the [string] of everything printed to it. A buffer filled
      from a file is used by the program as a C string, which ends at the
      first NUL byte read: [C.cstr] is that string. The corpus reader
      ([read_lines]) models the cut; the loaders of the vocabulary files
      take what they read whole, which is what the program sees of a file
      without NUL bytes (the files the program writes have none).
    - [malloc] never fails (except for the absurd size a negative element
      count produces). *)

From Stdlib Require Import ZArith QArith Lia Ascii String.
From stdpp Require Import list strings gmap.

Local Open Scope Z_scope.

(** ** Strings *)

Module Str.

(** [strlen] *)
Definition len (s : string) : Z := Z.of_nat (String.length s).

(** The first [n] bytes of [s] (what [snprintf] keeps of an over-long
    result, what [strncpy] copies). *)
Fixpoint take (n : nat) (s : string) : string :=
  match n, s with
  | S n', String c s' => String c (take n' s')
  | _, _ => ""
  end.

(** [s] without its first [n] bytes (pointer arithmetic [s + n]). *)
Fixpoint drop (n : nat) (s : string) : string :=
  match n, s with
  | S n', String c s' => drop n' s'
  | _, _ => s
  end.

(** [strchr(s, c) != NULL] *)
Fixpoint mem (c : ascii) (s : string) : bool :=
  match s with
  | "" => false
  | String d s' => if decide (d = c) then true else mem c s'
  end.

(** All the bytes of [s] satisfy [p]. *)
Fixpoint all (p : ascii → bool) (s : string) : bool :=
  match s with
  | "" => true
  | String c s' => p c && all p s'
  end.

(** Concatenation of a list of strings. *)
Fixpoint cat (l : list string) : string :=
  match l with
  | [] => ""
  | s :: l' => s +:+ cat l'
  end.

End Str.

(** [snprintf(buf, 256, ...)]: the formatted text, cut to 255 bytes. *)
Definition snprintf256 (s : string) : string := Str.take 255 s.

(** ** The hash table ([cvocgen.h], [cvocgen.c]) *)

(** [struct Ht_item] without its [next] link. *)
Record Ht_item := mk_item { it_key : string; it_count : Z }.

(** [struct HashTable]: [items] (array of [size] chains), [size] (number of
    buckets), [count] (number of items stored), [load_threshold]. *)
Record HashTable := mk_ht {
  ht_items : list (list Ht_item);
  ht_size : Z;
  ht_count : Z;
  ht_load_threshold : Q
}.

Definition HT_DEFAULT_SIZE : Z := 10000.

(** *** binary32 arithmetic of the load-factor test *)

(** Round a rational to the nearest binary32 value, ties to even (normal
    range only; non-positive values are not needed and give 0). *)
Definition round_binary32 (x : Q) : Q :=
  let n := Qnum x in
  let d := Z.pos (Qden x) in
  if n <=? 0 then 0%Q
  else
    let e0 := Z.log2 n - Z.log2 d in
    let e := if (if 0 <=? e0 then d * 2 ^ e0 <=? n else d <=? n * 2 ^ (- e0))
             then e0 else e0 - 1 in
    (* 2^e <= x < 2^(e+1); scale to a 24-bit significand *)
    let s := 23 - e in
    let num := if 0 <=? s then n * 2 ^ s else n in
    let den := if 0 <=? s then d else d * 2 ^ (- s) in
    let q := num / den in
    let r := num mod den in
    let m := if 2 * r <? den then q
             else if den <? 2 * r then q + 1
             else if Z.even q then q else q + 1 in
    if 0 <=? s then Qmake m (Z.to_pos (2 ^ s)) else inject_Z (m * 2 ^ (- s)).

(** [HT_DEFAULT_LOAD_THRESHOLD], the [double] 0.7 passed as a [float]. *)
Definition HT_DEFAULT_LOAD_THRESHOLD : Q := round_binary32 (7 # 10).

(** [(float)(ht->count + 1) / ht->size >= ht->load_threshold] *)
Definition load_factor_reached (ht : HashTable) : bool :=
  let a := round_binary32 (inject_Z ((ht_count ht + 1) mod 2 ^ 32)) in
  let b := round_binary32 (inject_Z (ht_size ht)) in
  Qle_bool (ht_load_threshold ht) (round_binary32 (a / b)).

(** *** [hash] *)

(** The value of a [char] converted to [unsigned long]: plain [char] is
    signed on the reference platform, so bytes above 127 are negative
    before the wrap-around. *)
Definition char_value (c : ascii) : Z :=
  let n := Z.of_N (N_of_ascii c) in
  if n <? 128 then n else n - 256.

Fixpoint hash_loop (key : string) (value : Z) : Z :=
  match key with
  | "" => value
  | String c key' => hash_loop key' ((value * 37 + char_value c) mod 2 ^ 64)
  end.

Definition hash (key : string) (size : Z) : Z := hash_loop key 0 mod size.

(** *** Creation, search *)

Definition ht_create_with_threshold (size : Z) (load_threshold : Q) : HashTable :=
  let size := if size =? 0 then HT_DEFAULT_SIZE else size in
  mk_ht (replicate (Z.to_nat size) []) size 0 load_threshold.

Definition ht_create (size : Z) : HashTable :=
  ht_create_with_threshold size HT_DEFAULT_LOAD_THRESHOLD.

(** The chain [ht->items[slot]]. *)
Definition ht_bucket (ht : HashTable) (slot : Z) : list Ht_item :=
  ht_items ht !!! Z.to_nat slot.

(** The walk [while (item) { if (strcmp(item->key, key) == 0) return item; ... }]. *)
Fixpoint chain_search (chain : list Ht_item) (key : string) : option Ht_item :=
  match chain with
  | [] => None
  | item :: next =>
      if decide (it_key item = key) then Some item else chain_search next key
  end.

Definition hash_search (ht : HashTable) (key : string) : option Ht_item :=
  chain_search (ht_bucket ht (hash key (ht_size ht))) key.

(** The buckets [items[0]], ..., [items[size-1]] in the order every
    [for (i = 0; i < ht->size; ++i)] loop visits them. *)
Definition ht_buckets (ht : HashTable) : list (list Ht_item) :=
  take (Z.to_nat (ht_size ht)) (ht_items ht).

(** All the items, in table-iteration order (bucket by bucket, each chain
    from its head). *)
Definition ht_entries (ht : HashTable) : list Ht_item := concat (ht_buckets ht).

(** [count_unique_tokens], with its [unsigned int] counter. *)
Definition count_unique_tokens (ht : HashTable) : Z :=
  fold_left (λ count chain, fold_left (λ count _, (count + 1) mod 2 ^ 32) chain count)
            (ht_buckets ht) 0.

(** *** [ht_resize] *)

(** [item->next = new_items[new_slot]; new_items[new_slot] = item;] *)
Definition chain_push (items : list (list Ht_item)) (slot : Z) (item : Ht_item)
  : list (list Ht_item) :=
  <[Z.to_nat slot := item :: items !!! Z.to_nat slot]> items.

Definition rehash_item (new_size : Z) (new_items : list (list Ht_item))
  (item : Ht_item) : list (list Ht_item) :=
  chain_push new_items (hash (it_key item) new_size) item.

(** Returns the table after the call and the C return value. *)
Definition ht_resize (ht : HashTable) (new_size : Z) : HashTable * Z :=
  if new_size =? 0 then (ht, 0)
  else
    let new_items :=
      fold_left (λ new_items chain, fold_left (rehash_item new_size) chain new_items)
                (ht_buckets ht) (replicate (Z.to_nat new_size) []) in
    (mk_ht new_items new_size (ht_count ht) (ht_load_threshold ht), 1).

(** *** [hash_insert_or_increment] *)

(** [item->count = c] through the pointer [hash_search] returned for [key]:
    the first item of the chain with that key gets the new count. *)
Fixpoint chain_store (chain : list Ht_item) (key : string) (c : Z) : list Ht_item :=
  match chain with
  | [] => []
  | item :: next =>
      if decide (it_key item = key) then mk_item (it_key item) c :: next
      else item :: chain_store next key c
  end.

Definition ht_store (ht : HashTable) (key : string) (c : Z) : HashTable :=
  let slot := Z.to_nat (hash key (ht_size ht)) in
  mk_ht (<[slot := chain_store (ht_items ht !!! slot) key c]> (ht_items ht))
        (ht_size ht) (ht_count ht) (ht_load_threshold ht).

(** A new item with the given count linked at the head of its chain;
    [bump] tells whether [ht->count] is incremented (the loaders do not). *)
Definition ht_link (ht : HashTable) (key : string) (c : Z) (bump : bool) : HashTable :=
  mk_ht (chain_push (ht_items ht) (hash key (ht_size ht)) (mk_item key c))
        (ht_size ht)
        (if bump then (ht_count ht + 1) mod 2 ^ 32 else ht_count ht)
        (ht_load_threshold ht).

Definition hash_insert_or_increment (ht : HashTable) (key : string) : HashTable :=
  let ht := if load_factor_reached ht
            then (ht_resize ht ((ht_size ht * 2) mod 2 ^ 32)).1
            else ht in
  match hash_search ht key with
  | Some item => ht_store ht key (it_count item + 1)
  | None => ht_link ht key 1 true
  end.

(** The idiom shared by the training loop and the text loader:
    [item = hash_search(ht, key); if (item) item->count = c; else] link a
    new item with count [c]. *)
Definition ht_set (ht : HashTable) (key : string) (c : Z) (bump : bool) : HashTable :=
  match hash_search ht key with
  | Some _ => ht_store ht key c
  | None => ht_link ht key c bump
  end.

(** ** The table as a finite map *)

(** The abstract content of a table: the count stored under each key. *)
Definition ht_to_map (ht : HashTable) : gmap string Z :=
  list_to_map ((λ item, (it_key item, it_count item)) <$> ht_entries ht).

(** The number of items a table holds. *)
Definition ht_tokens (ht : HashTable) : Z := Z.of_nat (length (ht_entries ht)).

(** Every item of chain [i] hashes to [i]. *)
Definition slots_ok (size : Z) (items : list (list Ht_item)) : Prop :=
  ∀ (i : nat) chain item,
    items !! i = Some chain → item ∈ chain → hash (it_key item) size = Z.of_nat i.

(** The representation invariant of a table built by the functions above. *)
Record ht_wf (ht : HashTable) : Prop := mk_ht_wf {
  wf_size : 0 < ht_size ht < 2 ^ 32;
  wf_length : length (ht_items ht) = Z.to_nat (ht_size ht);
  wf_slots : slots_ok (ht_size ht) (ht_items ht);
  wf_nodup : NoDup (it_key <$> ht_entries ht)
}.


(** The count [hash_insert_or_increment] leaves under [key]. *)
Definition incremented (found : option Ht_item) : Z :=
  match found with Some item => it_count item + 1 | None => 1 end.

(** ** The segmenter ([pre_tokenize]) *)

(** [struct TokenList]: the tokens in order ([count] is the length; the
    [capacity] of the array is storage management only). *)
Definition TokenList := list string.

Module Regex.

(** The number of bytes before the first "]" of [s], if there is one. *)
Fixpoint bracket_body (s : string) : option nat :=
  match s with
  | "" => None
  | String c s' =>
      if decide (c = "]"%char) then Some 0%nat else S <$> bracket_body s'
  end.

(** [\[[^]]+\]] at the start of [p]: the length matched. *)
Definition bracket_group (p : string) : option nat :=
  match p with
  | String "["%char rest =>
      match bracket_body rest with
      | Some (S n) => Some (S n + 2)%nat
      | _ => None
      end
  | _ => None
  end.

Definition is_digit (c : ascii) : bool :=
  let n := N_of_ascii c in (48 <=? n)%N && (n <=? 57)%N.

(** The SELFIES pattern [(\[[^]]+\]|\.)] at the start of [p]. *)
Definition selfies_match_at (p : string) : option nat :=
  match p with
  | String "."%char _ => Some 1%nat
  | _ => bracket_group p
  end.

(** The one-byte alternatives of the SMILES pattern (apart from B, C and
    the digits). *)
Definition smiles_single (c : ascii) : bool :=
  bool_decide (c ∈ ["N"; "O"; "S"; "P"; "F"; "I"; "b"; "c"; "n"; "o"; "s"; "p";
                    "("; ")"; "."; "="; "#"; "-"; "+"; "\"; "/"; ":"; "~"; "@";
                    "?"; ">"; "*"; "$"]%char).

(** The SMILES pattern at the start of [p]: the longest alternative that
    matches there. *)
Definition smiles_match_at (p : string) : option nat :=
  match p with
  | "" => None
  | String c rest =>
      if decide (c = "["%char) then bracket_group p
      else if decide (c = "B"%char) then
        match rest with String "r"%char _ => Some 2%nat | _ => Some 1%nat end
      else if decide (c = "C"%char) then
        match rest with String "l"%char _ => Some 2%nat | _ => Some 1%nat end
      else if decide (c = "%"%char) then
        match rest with
        | String d1 (String d2 _) =>
            if is_digit d1 && is_digit d2 then Some 3%nat else None
        | _ => None
        end
      else if smiles_single c || is_digit c then Some 1%nat
      else None
  end.

(** [regexec(&re, p, 1, pmatch, 0)]: the leftmost match, and the longest
    one there, as [(rm_so, rm_eo)]. *)
Fixpoint regexec (match_at : string → option nat) (p : string) : option (nat * nat) :=
  match match_at p with
  | Some n => Some (0, n)%nat
  | None =>
      match p with
      | "" => None
      | String _ p' =>
          match regexec match_at p' with
          | Some (so, eo) => Some (S so, S eo)
          | None => None
          end
      end
  end.

End Regex.

(** The loop of [pre_tokenize]; every match is at least one byte long, so
    [S (length p)] rounds are enough. *)
Fixpoint tokenize_loop (match_at : string → option nat) (fuel : nat) (p : string)
  : TokenList :=
  match fuel with
  | O => []
  | S fuel' =>
      match Regex.regexec match_at p with
      | None => []
      | Some (rm_so, rm_eo) =>
          Str.take (rm_eo - rm_so) (Str.drop rm_so p)
          :: tokenize_loop match_at fuel' (Str.drop rm_eo p)
      end
  end.

(** [pre_tokenize], with the global [input_format_is_smiles] as an argument.
    [regcomp] accepts both patterns, so the result is never [NULL]. *)
Definition pre_tokenize (input_format_is_smiles : bool) (text : string) : TokenList :=
  let match_at := if input_format_is_smiles then Regex.smiles_match_at
                  else Regex.selfies_match_at in
  tokenize_loop match_at (S (String.length text)) text.

(** ** Pair statistics and selection *)

(** [snprintf(pair_key, sizeof(pair_key), "%s %s", a, b)] *)
Definition pair_key (a b : string) : string := snprintf256 (a +:+ " " +:+ b).

(** The keys counted by [for (i = 0; i < tokens->count - 1; ++i)]. *)
Fixpoint adjacent_pairs (tokens : TokenList) : list string :=
  match tokens with
  | a :: rest =>
      match rest with
      | b :: _ => pair_key a b :: adjacent_pairs rest
      | [] => []
      end
  | [] => []
  end.

Definition count_pairs (stats : HashTable) (tokens : TokenList) : HashTable :=
  fold_left hash_insert_or_increment (adjacent_pairs tokens) stats.

(** [get_pair_stats]: [None] is the [NULL] result. *)
Definition get_pair_stats (tokens : TokenList) : option HashTable :=
  if (length tokens <? 2)%nat then None
  else Some (count_pairs (ht_create (HT_DEFAULT_SIZE / 10)) tokens).

(** [if (item->count > max_count) { max_count = item->count; best_pair = item->key; }] *)
Definition best_step (best : option string * Z) (item : Ht_item) : option string * Z :=
  if best.2 <? it_count item then (Some (it_key item), it_count item) else best.

(** [get_best_pair]: the best pair ([None] for [NULL]) and the value left
    in [*count]. *)
Definition get_best_pair (stats : HashTable) : option string * Z :=
  fold_left (λ best chain, fold_left best_step chain best)
            (ht_buckets stats) (None, -1).

(** ** The merge engine ([merge_pair]) *)

(** [strchr(pair_copy, ' ')] and the split at that byte. *)
Fixpoint split_pair (pair : string) : option (string * string) :=
  match pair with
  | "" => None
  | String c pair' =>
      if decide (c = " "%char) then Some ("", pair')
      else (λ fs, (String c fs.1, fs.2)) <$> split_pair pair'
  end.

(** [snprintf(merged, sizeof(merged), "%s%s", first, second)] *)
Definition merged_token (first second : string) : string :=
  snprintf256 (first +:+ second).

Fixpoint merge_loop (first second : string) (tokens : TokenList) : TokenList :=
  match tokens with
  | [] => []
  | t :: rest =>
      match rest with
      | t' :: rest' =>
          if decide (t = first ∧ t' = second)
          then merged_token first second :: merge_loop first second rest'
          else t :: merge_loop first second rest
      | [] => [t]
      end
  end.

Definition merge_pair (tokens : TokenList) (pair : string) : TokenList :=
  match split_pair pair with
  | Some (first, second) => merge_loop first second tokens
  | None => tokens
  end.

(** The count a statistics table holds for a pair (zero when the pair is
    absent, or when there is no table). *)
Definition pair_count_in (stats : option HashTable) (pair : string) : Z :=
  match stats with
  | Some ht => from_option it_count 0 (hash_search ht pair)
  | None => 0
  end.

(** ** Characters, numbers, streams ([ctype.h], [stdio.h], [stdlib.h]) *)

Module C.

Definition nl : string := String "010"%char "".
Definition tab : string := String "009"%char "".
(** The double quote. *)
Definition dq : string := String "034"%char "".

(** [isspace] in the C locale *)
Definition isspace (c : ascii) : bool :=
  bool_decide (c ∈ [" "; "009"; "010"; "011"; "012"; "013"]%char).

Definition isdigit (c : ascii) : bool := Regex.is_digit c.

Definition digit_value (c : ascii) : Z := Z.of_N (N_of_ascii c) - 48.

Definition digit_char (d : Z) : ascii := ascii_of_N (Z.to_N (d + 48)).

(** The decimal digits of a non-negative number ([fuel] bounds their
    number). *)
Fixpoint print_digits (fuel : nat) (n : Z) (acc : string) : string :=
  match fuel with
  | O => acc
  | S fuel' =>
      let acc' := String (digit_char (n mod 10)) acc in
      if n <? 10 then acc' else print_digits fuel' (n / 10) acc'
  end.

(** What ["%d"] prints. *)
Definition print_int (z : Z) : string :=
  if z <? 0 then String "-"%char (print_digits (S (Z.to_nat (Z.log2 (- z)))) (- z) "")
  else print_digits (S (Z.to_nat (Z.log2 z))) z "".

(** Skipping white space: the ["\n"] and ["\t"] directives of [fscanf], the
    start of ["%d"] and ["%s"], [while (isspace( *ptr)) ptr++]. *)
Fixpoint skip_space (s : string) : string :=
  match s with
  | String c s' => if isspace c then skip_space s' else s
  | "" => ""
  end.

(** [while (not at the end and not stop) ptr++] *)
Fixpoint skip_until (stop : ascii → bool) (s : string) : string :=
  match s with
  | String c s' => if stop c then s else skip_until stop s'
  | "" => ""
  end.

(** The bytes [skip_until] passes over. *)
Fixpoint span_until (stop : ascii → bool) (s : string) : string :=
  match s with
  | String c s' => if stop c then "" else String c (span_until stop s')
  | "" => ""
  end.

(** The C string a buffer holds: its bytes before the first NUL (what
    [strlen], [strcmp], [strdup] and [pre_tokenize] see of it). *)
Definition cstr (buf : string) : string :=
  span_until (λ c, bool_decide (c = "000"%char)) buf.

Fixpoint scan_digits (s : string) (acc : Z) : Z * string :=
  match s with
  | String c s' => if isdigit c then scan_digits s' (acc * 10 + digit_value c) else (acc, s)
  | "" => (acc, "")
  end.

(** The optional sign of a number. *)
Definition scan_sign (s : string) : bool * string :=
  match s with
  | String c s' =>
      if decide (c = "-"%char) then (true, s')
      else if decide (c = "+"%char) then (false, s')
      else (false, s)
  | "" => (false, s)
  end.

(** A decimal integer as [strtol] and ["%d"] read it: white space, an
    optional sign, digits. [None] when there is no digit. Values outside
    [int] are not modelled: the number is returned as it is written, where
    the platform stores it modulo 2^32, so the model follows the code for
    numbers that fit an [int] (the counts [save_vocabulary] prints do). *)
Definition scan_int (s : string) : option (Z * string) :=
  let '(neg, s) := scan_sign (skip_space s) in
  match s with
  | String c _ =>
      if isdigit c then
        let '(v, rest) := scan_digits s 0 in Some (if neg : bool then - v else v, rest)
      else None
  | "" => None
  end.

Definition atoi (s : string) : Z := from_option fst 0 (scan_int s).

(** ["%255s"] after the white space is skipped: at most [width] bytes up to
    the next white space. *)
Fixpoint scan_word (width : nat) (s : string) : string * string :=
  match width, s with
  | S width', String c s' =>
      if isspace c then ("", s)
      else let '(w, rest) := scan_word width' s' in (String c w, rest)
  | _, _ => ("", s)
  end.

Fixpoint fgets_loop (room : nat) (file : string) : string * string :=
  match room, file with
  | S room', String c file' =>
      if decide (c = "010"%char) then (String c "", file')
      else let '(line, rest) := fgets_loop room' file' in (String c line, rest)
  | _, _ => ("", file)
  end.

(** [fgets(line, size, file)]: the line read and the rest of the stream;
    [None] at the end of the file. *)
Definition fgets (size : Z) (file : string) : option (string * string) :=
  match file with
  | "" => None
  | _ => Some (fgets_loop (Z.to_nat (size - 1)) file)
  end.

(** [len = strlen(line); if (len > 0 && line[len-1] == '\n') line[len-1] = '\0';] *)
Fixpoint chomp (line : string) : string :=
  match line with
  | "" => ""
  | String c "" => if decide (c = "010"%char) then "" else line
  | String c line' => String c (chomp line')
  end.

(** [strstr(s, sub)] and the cut [*ext = '\0'] when it is found. *)
Fixpoint cut_at (sub s : string) : string :=
  if String.prefix sub s then ""
  else match s with
       | "" => ""
       | String c s' => String c (cut_at sub s')
       end.

End C.

(** The files, by name. [fopen(name, "r")] fails on a name that is not
    there; [fopen(name, "w")] always succeeds. *)
Abbreviation FileSystem := (gmap string string).

(** ** The text format ([save_vocabulary], [load_vocabulary]) *)

Definition VOCABULARY_MARKER : string := "---VOCABULARY---".

(** [fprintf(file, "%s\t%d\n", item->key, item->count)] *)
Definition vocab_line (item : Ht_item) : string :=
  it_key item +:+ C.tab +:+ C.print_int (it_count item) +:+ C.nl.

(** Everything [save_vocabulary] prints; the array [merges] and its
    [merge_count] are the list and its length. *)
Definition vocabulary_text (vocab : HashTable) (merges : list string) : string :=
  C.print_int (Z.of_nat (length merges)) +:+ C.nl
  +:+ Str.cat ((λ m, m +:+ C.nl) <$> merges)
  +:+ VOCABULARY_MARKER +:+ C.nl
  +:+ Str.cat (vocab_line <$> ht_entries vocab).

(** [save_vocabulary]: the files after the call and the return value. *)
Definition save_vocabulary (fs : FileSystem) (vocab : HashTable)
  (merges : list string) (filename : string) : FileSystem * Z :=
  (<[filename := vocabulary_text vocab merges]> fs, 0).

(** The [merge_count] calls of [fgets(line, sizeof(line), file)] with
    [char line[256]]; [None] when a line is missing. A line is taken
    whole, as the program sees it when it holds no NUL byte. *)
Fixpoint read_merges (merge_count : nat) (file : string) : option (list string * string) :=
  match merge_count with
  | O => Some ([], file)
  | S n =>
      match C.fgets 256 file with
      | None => None
      | Some (line, file') =>
          match read_merges n file' with
          | None => None
          | Some (merges, rest) => Some (C.chomp line :: merges, rest)
          end
      end
  end.

(** The loop looking for the vocabulary marker: the stream after the
    marker line, or the end of the file. *)
Fixpoint skip_to_marker (fuel : nat) (file : string) : string :=
  match fuel with
  | O => file
  | S fuel' =>
      match C.fgets 256 file with
      | None => file
      | Some (line, file') =>
          if decide (line = VOCABULARY_MARKER +:+ C.nl) then file'
          else skip_to_marker fuel' file'
      end
  end.

(** [while (fscanf(file, "%255s\t%d\n", token, &count) == 2)] with its
    body; every round consumes at least one byte. The token is the word
    read, which is the C string in the buffer when the word has no NUL
    byte (no token written by [save_vocabulary] has one). *)
Fixpoint read_vocabulary (fuel : nat) (file : string) (vocab : HashTable) : HashTable :=
  match fuel with
  | O => vocab
  | S fuel' =>
      match C.scan_word 255 (C.skip_space file) with
      | ("", _) => vocab
      | (token, file1) =>
          match C.scan_int (C.skip_space file1) with
          | None => vocab
          | Some (count, file2) =>
              read_vocabulary fuel' (C.skip_space file2) (ht_set vocab token count false)
          end
      end
  end.

(** [load_vocabulary]: [None] is the [NULL] result, otherwise the table
    returned and the merges stored through [merges_out]. A negative merge
    count makes the size passed to [malloc] wrap to an enormous value, and
    the allocation fails; [malloc(0)] returns a pointer, as it does in
    glibc. *)
Definition load_vocabulary (fs : FileSystem) (filename : string)
  : option (HashTable * list string) :=
  match fs !! filename with
  | None => None
  | Some file =>
      match C.scan_int file with
      | None => None
      | Some (merge_count, file) =>
          let file := C.skip_space file in
          if merge_count <? 0 then None
          else
            match read_merges (Z.to_nat merge_count) file with
            | None => None
            | Some (merges, file) =>
                let file := skip_to_marker (String.length file) file in
                Some (read_vocabulary (String.length file) file (ht_create 100), merges)
            end
      end
  end.

(** ** The JSON format ([save_vocabulary_json], [load_vocabulary_json]) *)

(** [json_escape_string] *)
Fixpoint json_escape_string (input : string) : string :=
  match input with
  | "" => ""
  | String c input' =>
      let rest := json_escape_string input' in
      if decide (c = "034"%char) then String "\"%char (String "034"%char rest)
      else if decide (c = "\"%char) then String "\"%char (String "\"%char rest)
      else if decide (c = "/"%char) then String "\"%char (String "/"%char rest)
      else if decide (c = "008"%char) then String "\"%char (String "b"%char rest)
      else if decide (c = "012"%char) then String "\"%char (String "f"%char rest)
      else if decide (c = "010"%char) then String "\"%char (String "n"%char rest)
      else if decide (c = "013"%char) then String "\"%char (String "r"%char rest)
      else if decide (c = "009"%char) then String "\"%char (String "t"%char rest)
      else String c rest
  end.

Definition special_tokens : list string := ["<s>"; "<pad>"; "</s>"; "<unk>"; "<mask>"].

(** The [is_special] flag computed by the inner [strcmp] loop. *)
Definition is_special (key : string) : bool := bool_decide (key ∈ special_tokens).

(** One line of either JSON file: two spaces, the key between double
    quotes, a colon and a space, the value printed with [%d], a comma if
    another line follows, a newline. *)
Definition json_line (key : string) (value : Z) (comma : bool) : string :=
  "  " +:+ C.dq +:+ key +:+ C.dq +:+ ": " +:+ C.print_int value
  +:+ (if comma then "," else "") +:+ C.nl.

(** The items collected in [token_list] and [count_list]: those whose key
    is not a special token, in table-iteration order. *)
Definition json_tokens (vocab : HashTable) : list Ht_item :=
  filter (λ item, is_special (it_key item) = false) (ht_entries vocab).

(** The lines of the special tokens, with indices 0 to 4. *)
Fixpoint special_lines (tokens : list string) (index : Z) (last_comma : bool) : string :=
  match tokens with
  | [] => ""
  | token :: tokens' =>
      json_line token index (match tokens' with [] => last_comma | _ => true end)
      +:+ special_lines tokens' (index + 1) last_comma
  end.

(** The lines of the loop over [token_list]: [value item index] is printed
    for each token, with a comma except after the last one. *)
Fixpoint token_lines (value : Ht_item → Z → Z) (items : list Ht_item) (index : Z) : string :=
  match items with
  | [] => ""
  | item :: items' =>
      json_line (json_escape_string (it_key item)) (value item index)
                (match items' with [] => false | _ => true end)
      +:+ token_lines value items' (index + 1)
  end.

(** The text of [<base>.json]. *)
Definition vocabulary_json (vocab : HashTable) (merges : list string) : string :=
  "{" +:+ C.nl
  +:+ special_lines special_tokens 0
        ((0 <? ht_size vocab) || (0 <? Z.of_nat (length merges)))
  +:+ token_lines (λ _ index, index) (json_tokens vocab) 5
  +:+ "}" +:+ C.nl.

(** The text of [<base>_freq.json]. *)
Definition frequency_json (vocab : HashTable) : string :=
  "{" +:+ C.nl
  +:+ token_lines (λ item _, it_count item) (json_tokens vocab) 5
  +:+ "}" +:+ C.nl.

Definition json_vocab_filename (base_filename : string) : string :=
  snprintf256 (base_filename +:+ ".json").

Definition json_freq_filename (base_filename : string) : string :=
  snprintf256 (base_filename +:+ "_freq.json").

(** [save_vocabulary_json]: both files are opened, written and closed;
    the merges are not written (that loop is commented out in the
    source). The two names differ unless the base name is so long that
    [snprintf] cuts both to the same 255 bytes; what the two streams leave
    in one file then is not modelled. *)
Definition save_vocabulary_json (fs : FileSystem) (vocab : HashTable)
  (merges : list string) (base_filename : string) : FileSystem * Z :=
  (<[json_freq_filename base_filename := frequency_json vocab]>
     (<[json_vocab_filename base_filename := vocabulary_json vocab merges]> fs), 0).

Definition is_quote (c : ascii) : bool := bool_decide (c = "034"%char).
Definition is_colon (c : ascii) : bool := bool_decide (c = ":"%char).
Definition is_pair_end (c : ascii) : bool :=
  bool_decide (c = ","%char) || bool_decide (c = "}"%char).
Definition is_number_start (c : ascii) : bool :=
  C.isdigit c || bool_decide (c = "-"%char).
Definition is_number_char (c : ascii) : bool :=
  C.isdigit c || bool_decide (c = "-"%char) || bool_decide (c = "."%char).

(** Skip to the opening brace, and past it if it is there. *)
Definition skip_open_brace (s : string) : string :=
  match C.skip_until (λ c, bool_decide (c = "{"%char)) s with
  | String _ s' => s'
  | "" => ""
  end.

(** Skip to the next comma or closing brace, and past a comma. *)
Definition skip_to_next_pair (s : string) : string :=
  match C.skip_until is_pair_end s with
  | String c s' => if decide (c = ","%char) then s' else String c s'
  | "" => ""
  end.

(** What one round of a parsing loop does after an opening quote: the key,
    and the text after the colon and the white space that follow it.
    [None] is a [break]. *)
Definition json_key (ptr : string) : option (string * string) :=
  let key := C.span_until is_quote ptr in
  match C.skip_until is_quote ptr with
  | "" => None
  | String _ ptr =>
      match C.skip_until is_colon ptr with
      | "" => None
      | String _ ptr =>
          match C.skip_space ptr with
          | "" => None
          | ptr => Some (key, ptr)
          end
      end
  end.

(** The state of the first parsing loop: the table and the merges read so
    far. *)
Definition json_state : Type := HashTable * list string.

(** The value part of a round of the vocabulary loop: the new state and
    the text after the value. [None] is a [break]. *)
Definition json_vocab_value (key : string) (ptr : string) (st : json_state)
  : option (json_state * string) :=
  match ptr with
  | "" => None
  | String c ptr' =>
      if is_quote c then
        let value := C.span_until is_quote ptr' in
        match C.skip_until is_quote ptr' with
        | "" => None
        | String _ ptr'' =>
            Some (if Str.mem " "%char value then (st.1, st.2 ++ [value])
                  else (ht_link st.1 key 1 false, st.2), ptr'')
        end
      else if is_number_start c then
        Some ((ht_link st.1 key (C.atoi ptr) false, st.2),
              C.skip_until (λ c, negb (is_number_char c)) ptr)
      else Some (st, ptr)
  end.

(** The parsing loop of the vocabulary file. *)
Fixpoint json_vocab_loop (fuel : nat) (ptr : string) (st : json_state) : json_state :=
  match fuel with
  | O => st
  | S fuel' =>
      match C.skip_space ptr with
      | "" => st
      | String c ptr' =>
          if bool_decide (c = "}"%char) then st
          else if is_quote c then
            match json_key ptr' with
            | None => st
            | Some (key, ptr) =>
                match json_vocab_value key ptr st with
                | None => st
                | Some (st', ptr) => json_vocab_loop fuel' (skip_to_next_pair ptr) st'
                end
            end
          else json_vocab_loop fuel' ptr' st
      end
  end.

(** [item = hash_search(vocab, key); if (item) item->count = count;] *)
Definition ht_update (ht : HashTable) (key : string) (c : Z) : HashTable :=
  match hash_search ht key with
  | Some _ => ht_store ht key c
  | None => ht
  end.

(** The parsing loop of the frequency file. *)
Fixpoint json_freq_loop (fuel : nat) (ptr : string) (vocab : HashTable) : HashTable :=
  match fuel with
  | O => vocab
  | S fuel' =>
      match C.skip_space ptr with
      | "" => vocab
      | String c ptr' =>
          if bool_decide (c = "}"%char) then vocab
          else if is_quote c then
            match json_key ptr' with
            | None => vocab
            | Some (key, ptr) =>
                let vocab' :=
                  match ptr with
                  | String d _ =>
                      if is_number_start d then ht_update vocab key (C.atoi ptr)
                      else vocab
                  | "" => vocab
                  end in
                json_freq_loop fuel' (skip_to_next_pair ptr) vocab'
            end
          else json_freq_loop fuel' ptr' vocab
      end
  end.

(** The name of the frequency file the loader derives from the name of the
    vocabulary file. *)
Definition freq_filename_of (json_filename : string) : string :=
  snprintf256 (C.cut_at ".json" json_filename +:+ "_freq.json").

(** [load_vocabulary_json]: [None] is the [NULL] result, otherwise the
    table returned and the merges stored through [merges_out]. *)
Definition load_vocabulary_json (fs : FileSystem) (json_filename : string)
  : option (HashTable * list string) :=
  match fs !! json_filename with
  | None => None
  | Some json_content =>
      let '(vocab, merges) :=
        json_vocab_loop (String.length json_content)
                        (skip_open_brace json_content) (ht_create 100, []) in
      let vocab :=
        match fs !! freq_filename_of json_filename with
        | None => vocab
        | Some freq_content =>
            json_freq_loop (String.length freq_content)
                           (skip_open_brace freq_content) vocab
        end in
      Some (vocab, merges)
  end.

(** ** Training on a corpus file ([train_bpe_from_file]) *)

(** The lines [fgets(line, sizeof(line), file)] returns for
    [char line[65536]], as the loop body sees them: the buffer is a C
    string, so a line ends at its first NUL byte if it has one ([strlen]
    and [pre_tokenize] stop there, and the newline after it is not
    removed, not being the last byte of the string); otherwise its final
    newline is removed. *)
Fixpoint read_lines (fuel : nat) (file : string) : list string :=
  match fuel with
  | O => []
  | S fuel' =>
      match C.fgets 65536 file with
      | None => []
      | Some (line, file') => C.chomp (C.cstr line) :: read_lines fuel' file'
      end
  end.

(** First pass: the tokens of every non-empty line are counted in the
    vocabulary; the result is the vocabulary and [line_count]. *)
Definition first_pass (input_format_is_smiles : bool) (lines : list string)
  (vocab : HashTable) : HashTable * nat :=
  fold_left (λ '(vocab, line_count) line,
               if decide (line = "") then (vocab, line_count)
               else (fold_left hash_insert_or_increment
                               (pre_tokenize input_format_is_smiles line) vocab,
                     S line_count))
            lines (vocab, O).

(** Second pass: the token lists of the non-empty lines, while
    [token_count < line_count] ([room] is [line_count - token_count]). *)
Fixpoint second_pass (input_format_is_smiles : bool) (lines : list string)
  (room : nat) : list TokenList :=
  match lines, room with
  | line :: lines', S room' =>
      if decide (line = "") then second_pass input_format_is_smiles lines' room
      else pre_tokenize input_format_is_smiles line
           :: second_pass input_format_is_smiles lines' room'
  | _, _ => []
  end.

(** What the merge loop works on: the vocabulary, the token lists of all
    the molecules, the merges recorded so far. *)
Record TrainState := mk_train {
  tr_vocab : HashTable;
  tr_all_tokens : list TokenList;
  tr_merges : list string
}.

(** The pair statistics of one round, over all the molecules. *)
Definition collect_pair_stats (all_tokens : list TokenList) : HashTable :=
  fold_left (λ pair_stats tokens,
               if (length tokens <? 2)%nat then pair_stats
               else count_pairs pair_stats tokens)
            all_tokens (ht_create HT_DEFAULT_SIZE).

(** One round of the merge loop; the flag is [false] when the round ends
    in a [break]. *)
Definition bpe_round (st : TrainState) : TrainState * bool :=
  let pair_stats := collect_pair_stats (tr_all_tokens st) in
  match get_best_pair pair_stats with
  | (None, _) => (st, false)
  | (Some best_pair, pair_count) =>
      let merges := tr_merges st ++ [best_pair] in
      match split_pair best_pair with
      | None => (mk_train (tr_vocab st) (tr_all_tokens st) merges, false)
      | Some (first, second) =>
          let merged := merged_token first second in
          let vocab := ht_set (tr_vocab st) merged pair_count true in
          let all_tokens := (λ tokens, merge_pair tokens best_pair) <$> tr_all_tokens st in
          (mk_train vocab all_tokens merges, true)
      end
  end.

(** [for (int i = 0; i < num_merges; ++i)] *)
Fixpoint bpe_loop (num_merges : nat) (st : TrainState) : TrainState :=
  match num_merges with
  | O => st
  | S n =>
      let '(st', continue) := bpe_round st in
      if continue : bool then bpe_loop n st' else st'
  end.

(** The state when the merge loop starts. *)
Definition initial_state (input_format_is_smiles : bool) (file : string) : TrainState :=
  let lines := read_lines (String.length file) file in
  let '(vocab, line_count) :=
    first_pass input_format_is_smiles lines (ht_create HT_DEFAULT_SIZE) in
  mk_train vocab (second_pass input_format_is_smiles lines line_count) [].

(** The state when the merge loop is left. *)
Definition train_corpus (input_format_is_smiles : bool) (file : string)
  (num_merges : Z) : TrainState :=
  bpe_loop (Z.to_nat num_merges) (initial_state input_format_is_smiles file).

Definition PATH_MAX : Z := 4096.

(** [train_bpe_from_file], with the globals [input_format_is_smiles] and
    [output_directory] as arguments: the files after the call and the
    table returned ([None] for [NULL]). *)
Definition train_bpe_from_file (input_format_is_smiles : bool)
  (output_directory : string) (fs : FileSystem) (corpus_file : string)
  (num_merges : Z) : FileSystem * option HashTable :=
  if num_merges <? 0 then (fs, None)
  else
    match fs !! corpus_file with
    | None => (fs, None)
    | Some file =>
        let st := train_corpus input_format_is_smiles file num_merges in
        let vocab_base := output_directory +:+ "/vocab_" +:+ C.print_int num_merges in
        let vocab_file := vocab_base +:+ ".txt" in
        if (PATH_MAX <=? Str.len vocab_file) || (PATH_MAX <=? Str.len vocab_base)
        then (fs, None)
        else
          let fs := (save_vocabulary fs (tr_vocab st) (tr_merges st) vocab_file).1 in
          let fs := (save_vocabulary_json fs (tr_vocab st) (tr_merges st) vocab_base).1 in
          (fs, Some (tr_vocab st))
    end.

(** ** Notions used in the statements *)

(** [x] is immediately followed by [y] somewhere in [tokens]. *)
Fixpoint has_adjacent (x y : string) (tokens : TokenList) : Prop :=
  match tokens with
  | a :: rest =>
      match rest with
      | b :: _ => (a = x ∧ b = y) ∨ has_adjacent x y rest
      | [] => False
      end
  | [] => False
  end.

(** A token as the segmenter produces them for realistic input: not empty,
    and without a space. *)
Definition plain_token (t : string) : Prop := t ≠ "" ∧ Str.mem " " t = false.

(** A string that does not go on with a digit. *)
Definition no_digit_ahead (rest : string) : Prop :=
  match rest with String c _ => C.isdigit c = false | "" => True end.

(** A string that starts with a byte that is no white space. *)
Definition starts_visibly (s : string) : Prop :=
  match s with String c _ => C.isspace c = false | "" => False end.

(** The tokens the text format can hold: not empty, without white space,
    at most 255 bytes (what ["%255s"] reads back in one piece). *)
Definition text_token (t : string) : Prop :=
  t ≠ "" ∧ Str.all (λ c, negb (C.isspace c)) t = true ∧ Str.len t ≤ 255.

(** The merges the text format can hold: without a newline and shorter
    than 255 bytes (a line [fgets] reads in one piece with its newline). *)
Definition text_merge (m : string) : Prop :=
  Str.mem "010"%char m = false ∧ Str.len m < 255.

(** A merge list the text format can hold: the white space after the
    merge count is skipped by [fscanf], so the first merge has to start
    with a visible byte. *)
Definition text_merges (merges : list string) : Prop :=
  Forall text_merge merges
  ∧ match merges with m :: _ => starts_visibly m | [] => True end.

(** The bytes [json_escape_string] replaces by a two-byte sequence. *)
Definition json_escaped (c : ascii) : bool :=
  bool_decide (c ∈ ["034"; "\"; "/"; "008"; "012"; "010"; "013"; "009"]%char).

(** The tokens the JSON files hold as they are: without any byte that is
    escaped on output (the loader does not undo the escapes). *)
Definition json_plain (t : string) : Prop :=
  Str.all (λ c, negb (json_escaped c)) t = true.

(** The special tokens with their fixed indices. *)
Definition special_map : gmap string Z :=
  list_to_map (zip special_tokens [0; 1; 2; 3; 4]).

(** The text after the value of a line of a JSON file: a comma or not, the
    end of the line, the rest of the file. *)
Definition line_tail (comma : bool) (rest : string) : string :=
  (if comma then "," else "") +:+ C.nl +:+ rest.

(** Keys numbered from [index] on. *)
Fixpoint numbered (keys : list string) (index : Z) : list (string * Z) :=
  match keys with
  | [] => []
  | key :: keys' => (key, index) :: numbered keys' (index + 1)
  end.

(** The key and the count of an item. *)
Definition item_pair (item : Ht_item) : string * Z := (it_key item, it_count item).

(** Linking new items for a list of keys and values, as the vocabulary loop
    of the JSON loader does line after line. *)
Definition link_pairs (kvs : list (string * Z)) (ht : HashTable) : HashTable :=
  fold_left (λ ht kv, ht_link ht kv.1 kv.2 false) kvs ht.

(** Storing the values of a list of keys, as the frequency loop does. *)
Definition update_pairs (kvs : list (string * Z)) (ht : HashTable) : HashTable :=
  fold_left (λ ht kv, ht_update ht kv.1 kv.2) kvs ht.

(** ** Word counts ([get_word_counts]) *)

(** [get_word_counts], with the global [input_format_is_smiles] as an
    argument ([pre_tokenize] never returns [NULL], so neither does it). *)
Definition get_word_counts (input_format_is_smiles : bool) (text : string) : HashTable :=
  fold_left hash_insert_or_increment
            (pre_tokenize input_format_is_smiles text) (ht_create 100).

(** ** More notions used in the statements *)

(** The number of times [key] occurs in [keys]. *)
Definition occurrences (key : string) (keys : list string) : Z :=
  Z.of_nat (length (filter (λ k, k = key) keys)).

(** What a search gives in a table that counted [keys]: nothing for a key
    that is not among them, otherwise the key with its number of
    occurrences. *)
Definition counted (keys : list string) (key : string) : option Ht_item :=
  if decide (key ∈ keys) then Some (mk_item key (occurrences key keys)) else None.

(** A SELFIES token: a dot, or a bracket group with at least one byte
    between the brackets and no closing bracket among them. *)
Definition selfies_token (t : string) : Prop :=
  t = "." ∨ ∃ body, t = "[" +:+ body +:+ "]" ∧ body ≠ "" ∧ Str.mem "]" body = false.

(** A file, or a part of one, without NUL bytes: what [fgets] and
    ["%255s"] store of it in a buffer is then the C string the program
    sees. *)
Definition no_nul (s : string) : Prop := Str.mem "000"%char s = false.

(** A line of a corpus file that [fgets] reads in one piece and the loop
    body sees whole: without a newline and without a NUL byte, and short
    enough for the buffer of 65536 bytes together with its newline. *)
Definition corpus_line (l : string) : Prop :=
  Str.mem "010"%char l = false ∧ no_nul l ∧ Str.len l < 65535.

(** No run of digits of [s] is longer than nine digits ([run] digits come
    before [s]), so that every number read from [s] fits an [int] and
    ["%d"] stores it as it is written. *)
Fixpoint digit_runs (s : string) (run : nat) : bool :=
  match s with
  | "" => true
  | String c s' =>
      if C.isdigit c then (run <? 9)%nat && digit_runs s' (S run)
      else digit_runs s' 0
  end.

Definition short_numbers (s : string) : Prop := digit_runs s 0 = true.

(** The number of tokens of all the molecules together. *)
Definition total_tokens (all_tokens : list TokenList) : nat :=
  length (concat all_tokens).

(** ** Training on a text ([train_bpe]) *)

(** What the merge loop of [train_bpe] works on: the vocabulary, the token
    list of the text, the merges recorded so far. *)
Record TextState := mk_text {
  tx_vocab : HashTable;
  tx_tokens : TokenList;
  tx_merges : list string
}.

(** How a round of the merge loop of [train_bpe] ends: in a [break], at the
    end of the loop body, or with the token list freed while it is still in
    use. The last happens when the best pair has no space: [merge_pair]
    then returns the list it was given, [free_token_list(tokens)] frees it,
    and [tokens = new_tokens] keeps the dangling pointer, which the next
    round or the final [free_token_list] uses; the behaviour of the program
    is undefined from there on. *)
Inductive round_result :=
  | round_break (st : TextState)
  | round_next (st : TextState)
  | round_undefined.

Definition text_round (st : TextState) : round_result :=
  match get_pair_stats (tx_tokens st) with
  | None => round_break st
  | Some pair_stats =>
      match get_best_pair pair_stats with
      | (None, _) => round_break st
      | (Some best_pair, _) =>
          let merges := tx_merges st ++ [best_pair] in
          let new_tokens := merge_pair (tx_tokens st) best_pair in
          match split_pair best_pair with
          | Some (first, second) =>
              let vocab :=
                hash_insert_or_increment (tx_vocab st) (merged_token first second) in
              round_next (mk_text vocab new_tokens merges)
          | None => round_undefined
          end
      end
  end.

(** [for (int i = 0; i < num_merges; ++i)]; [None] when the behaviour is
    undefined. *)
Fixpoint text_loop (num_merges : nat) (st : TextState) : option TextState :=
  match num_merges with
  | O => Some st
  | S n =>
      match text_round st with
      | round_break st' => Some st'
      | round_next st' => text_loop n st'
      | round_undefined => None
      end
  end.

(** The state when the merge loop of [train_bpe] starts. *)
Definition initial_text_state (input_format_is_smiles : bool) (text : string)
  : TextState :=
  let tokens := pre_tokenize input_format_is_smiles text in
  mk_text (fold_left hash_insert_or_increment tokens (ht_create 100)) tokens [].

(** [train_bpe], with the global [input_format_is_smiles] as an argument:
    the files after the call and the table returned ([None] for [NULL]);
    the outer [None] stands for undefined behaviour. *)
Definition train_bpe (input_format_is_smiles : bool) (fs : FileSystem)
  (text : string) (num_merges : Z) : option (FileSystem * option HashTable) :=
  if num_merges <=? 0 then Some (fs, None)
  else
    match text_loop (Z.to_nat num_merges)
                    (initial_text_state input_format_is_smiles text) with
    | None => None
    | Some st =>
        let fs := (save_vocabulary fs (tx_vocab st) (tx_merges st) "vocab.txt").1 in
        let fs := (save_vocabulary_json fs (tx_vocab st) (tx_merges st) "vocab").1 in
        Some (fs, Some (tx_vocab st))
    end.

(** The first loop of [json_escape_string]: the number of bytes that need
    escaping, from which the size of the output buffer is computed
    ([input_len + escape_count + 1]). *)
Fixpoint escape_count (input : string) : nat :=
  match input with
  | "" => 0
  | String c input' =>
      ((if json_escaped c then 1 else 0) + escape_count input')%nat
  end.


(** The control bytes [json_escape_string] replaces. *)
Definition is_control (c : ascii) : bool :=
  bool_decide (c ∈ ["008"; "012"; "010"; "013"; "009"]%char).



(** A SMILES token: a bracket group, one of the atoms [Br], [B], [Cl]
    and [C], a ring-closure number [%nn], or one of the single bytes of the
    pattern (an atom, a bond, a branch, a digit). *)
Definition smiles_token (t : string) : Prop :=
  (∃ body, t = "[" +:+ body +:+ "]" ∧ body ≠ "" ∧ Str.mem "]" body = false)
  ∨ t ∈ ["Br"; "B"; "Cl"; "C"]
  ∨ (∃ d1 d2, t = String "%" (String d1 (String d2 ""))
              ∧ Regex.is_digit d1 = true ∧ Regex.is_digit d2 = true)
  ∨ (∃ c, t = String c "" ∧ Regex.smiles_single c || Regex.is_digit c = true).

(** A text that does not go on with an [r] or an [l] (which would make
    [B] and [C] the longer atoms [Br] and [Cl]). *)
Definition no_atom_tail (rest : string) : Prop :=
  match rest with
  | String c _ => c ≠ "r"%char ∧ c ≠ "l"%char
  | "" => True
  end.

(** * Properties *)

(** ** The binary32 model *)

Example round_binary32_0_7 : HT_DEFAULT_LOAD_THRESHOLD = (11744051 # 16777216)%Q.
Proof. reflexivity. Qed.

Example round_binary32_third : round_binary32 (1 # 3) = (11184811 # 33554432)%Q.
Proof. reflexivity. Qed.

(** ** The hash table *)

Section HashTableFacts.

Implicit Types (ht : HashTable) (key : string) (item : Ht_item)
  (chain : list Ht_item) (items : list (list Ht_item)).

Lemma elem_of_concat {A} (x : A) (ls : list (list A)) :
  x ∈ concat ls ↔ ∃ l, x ∈ l ∧ l ∈ ls.
Proof.
  induction ls as [|l ls IH]; simpl.
  - split; [by intros ?%elem_of_nil | by intros (? & _ & ?%elem_of_nil)].
  - rewrite elem_of_app, IH. split.
    + intros [H | (l' & H1 & H2)]; [exists l | exists l'];
        (split; [done|]); [left | by right].
    + intros (l' & H1 & [-> | H2]%elem_of_cons); [by left | right; eauto].
Qed.

Lemma hash_bound key size : 0 < size → 0 ≤ hash key size < size.
Proof. intros. unfold hash. apply Z.mod_pos_bound. done. Qed.

Lemma hash_slot_lt key size items :
  0 < size → length items = Z.to_nat size →
  (Z.to_nat (hash key size) < length items)%nat.
Proof. intros Hs Hl. pose proof (hash_bound key size Hs). lia. Qed.

Lemma chain_search_Some chain key item :
  chain_search chain key = Some item → item ∈ chain ∧ it_key item = key.
Proof.
  induction chain as [|x chain IH]; simpl; [done|].
  case_decide as Hk.
  - intros [= <-]. split; [left | done].
  - intros H. destruct (IH H). split; [by right | done].
Qed.

Lemma chain_search_None chain key :
  chain_search chain key = None ↔ key ∉ it_key <$> chain.
Proof.
  induction chain as [|x chain IH]; simpl.
  - split; [intros _; apply not_elem_of_nil | done].
  - case_decide as Hk.
    + split; [done | intros H; destruct H; subst; left].
    + rewrite IH, not_elem_of_cons.
      split; [intros ?; split; [by intros -> | done] | by intros [_ ?]].
Qed.

Lemma chain_search_unique chain key item :
  NoDup (it_key <$> chain) → item ∈ chain → it_key item = key →
  chain_search chain key = Some item.
Proof.
  induction chain as [|x chain IH]; simpl; intros Hnd Hin Hk.
  - by apply elem_of_nil in Hin.
  - apply NoDup_cons in Hnd as [Hx Hnd].
    apply elem_of_cons in Hin as [-> | Hin].
    + by rewrite decide_True.
    + rewrite decide_False; [by apply IH|].
      intros Heq. apply Hx. rewrite Heq, <- Hk. by apply list_elem_of_fmap_2.
Qed.

Lemma ht_buckets_wf ht : ht_wf ht → ht_buckets ht = ht_items ht.
Proof.
  intros Hwf. unfold ht_buckets. apply take_ge. rewrite (wf_length _ Hwf). lia.
Qed.

Lemma ht_bucket_lookup ht key :
  ht_wf ht →
  ht_items ht !! Z.to_nat (hash key (ht_size ht))
  = Some (ht_bucket ht (hash key (ht_size ht))).
Proof.
  intros Hwf. unfold ht_bucket. apply list_lookup_lookup_total_lt.
  apply hash_slot_lt; [apply Hwf .. ].
Qed.

Lemma elem_of_ht_entries ht item :
  ht_wf ht →
  item ∈ ht_entries ht ↔ item ∈ ht_bucket ht (hash (it_key item) (ht_size ht)).
Proof.
  intros Hwf. unfold ht_entries. rewrite (ht_buckets_wf _ Hwf).
  rewrite elem_of_concat. split.
  - intros (chain & Hin & Hchain).
    apply list_elem_of_lookup in Hchain as [i Hi].
    pose proof (wf_slots _ Hwf i chain item Hi Hin) as Hh.
    unfold ht_bucket. rewrite Hh, Nat2Z.id.
    by rewrite (list_lookup_total_correct _ _ _ Hi).
  - intros Hin. exists (ht_bucket ht (hash (it_key item) (ht_size ht))).
    split; [done|]. eapply list_elem_of_lookup_2, ht_bucket_lookup, Hwf.
Qed.

Lemma NoDup_chain ht slot :
  ht_wf ht → NoDup (it_key <$> ht_bucket ht slot).
Proof.
  intros Hwf. unfold ht_bucket.
  destruct (ht_items ht !! Z.to_nat slot) as [chain|] eqn:Hc.
  - rewrite (list_lookup_total_correct _ _ _ Hc).
    pose proof (wf_nodup _ Hwf) as Hnd. unfold ht_entries in Hnd.
    rewrite (ht_buckets_wf _ Hwf) in Hnd.
    rewrite <- (take_drop_middle _ _ _ Hc) in Hnd.
    rewrite concat_app, fmap_app in Hnd. apply NoDup_app in Hnd as (_ & _ & Hnd).
    simpl in Hnd. rewrite fmap_app in Hnd. by apply NoDup_app in Hnd as (? & _ & _).
  - rewrite list_lookup_total_alt, Hc. simpl. constructor.
Qed.

(** [hash_search] finds exactly the items of the table. *)
Lemma hash_search_Some ht key item :
  ht_wf ht →
  hash_search ht key = Some item ↔ item ∈ ht_entries ht ∧ it_key item = key.
Proof.
  intros Hwf. unfold hash_search. split.
  - intros H. apply chain_search_Some in H as [Hin Hk]. split; [|done].
    apply elem_of_ht_entries; [done|]. by rewrite Hk.
  - intros [Hin Hk]. apply chain_search_unique; [by apply NoDup_chain| |done].
    apply elem_of_ht_entries in Hin; [|done]. by rewrite Hk in Hin.
Qed.

Lemma hash_search_None ht key :
  ht_wf ht → hash_search ht key = None ↔ key ∉ it_key <$> ht_entries ht.
Proof.
  intros Hwf. split.
  - intros Hn Hin. apply list_elem_of_fmap in Hin as (item & -> & Hin).
    assert (hash_search ht (it_key item) = Some item) as Hs
      by (by apply hash_search_Some).
    congruence.
  - intros Hnin. destruct (hash_search ht key) as [item|] eqn:Hs; [|done].
    apply hash_search_Some in Hs as [Hin <-]; [|done].
    destruct Hnin. by apply list_elem_of_fmap_2.
Qed.

(** Two well-formed tables with the same items answer every search alike. *)
Lemma hash_search_ext ht1 ht2 key :
  ht_wf ht1 → ht_wf ht2 → ht_entries ht1 ≡ₚ ht_entries ht2 →
  hash_search ht1 key = hash_search ht2 key.
Proof.
  intros H1 H2 Hp.
  destruct (hash_search ht1 key) as [item|] eqn:Hs1; symmetry.
  - apply hash_search_Some in Hs1 as [Hin Hk]; [|done].
    apply hash_search_Some; [done|]. by rewrite <- Hp.
  - apply hash_search_None in Hs1; [|done].
    apply hash_search_None; [done|]. by rewrite <- Hp.
Qed.

(** The finite map of a table is what [hash_search] reads. *)
Lemma ht_to_map_lookup ht key :
  ht_wf ht → ht_to_map ht !! key = it_count <$> hash_search ht key.
Proof.
  intros Hwf. unfold ht_to_map.
  destruct (hash_search ht key) as [item|] eqn:Hs; simpl.
  - apply hash_search_Some in Hs as [Hin <-]; [|done].
    apply elem_of_list_to_map_1.
    + rewrite <- list_fmap_compose. apply Hwf.
    + by apply (list_elem_of_fmap_2 (λ item, (it_key item, it_count item))).
  - apply hash_search_None in Hs; [|done].
    apply not_elem_of_list_to_map_1. by rewrite <- list_fmap_compose.
Qed.

Lemma ht_to_map_perm ht1 ht2 :
  NoDup (it_key <$> ht_entries ht1) →
  ht_entries ht1 ≡ₚ ht_entries ht2 → ht_to_map ht1 = ht_to_map ht2.
Proof.
  intros Hnd Hp. unfold ht_to_map. apply list_to_map_proper.
  - by rewrite <- list_fmap_compose.
  - by rewrite Hp.
Qed.

(** *** Linking an item at the head of a chain *)

Lemma length_chain_push items slot item :
  length (chain_push items slot item) = length items.
Proof. unfold chain_push. apply length_insert. Qed.

Lemma concat_insert_cons {A} (ls : list (list A)) (i : nat) (l : list A) (x : A) :
  ls !! i = Some l → concat (<[i := x :: l]> ls) ≡ₚ x :: concat ls.
Proof.
  intros Hl. rewrite insert_take_drop by (by eapply lookup_lt_Some).
  rewrite <- (take_drop_middle ls i l Hl) at 3.
  rewrite !concat_app. simpl. symmetry. apply Permutation_middle.
Qed.

Lemma concat_chain_push items slot item :
  (Z.to_nat slot < length items)%nat →
  concat (chain_push items slot item) ≡ₚ item :: concat items.
Proof.
  intros Hlt. unfold chain_push. apply concat_insert_cons.
  by apply list_lookup_lookup_total_lt.
Qed.

Lemma slots_ok_chain_push size items slot item :
  slots_ok size items → hash (it_key item) size = slot → 0 ≤ slot →
  slots_ok size (chain_push items slot item).
Proof.
  intros Hok Hh Hs i chain x Hi Hx. unfold chain_push in Hi.
  destruct (decide (i = Z.to_nat slot)) as [-> | Hne].
  - assert (Z.to_nat slot < length items)%nat as Hlt.
    { apply lookup_lt_Some in Hi. by rewrite length_insert in Hi. }
    rewrite list_lookup_insert_eq in Hi by done. injection Hi as <-.
    apply elem_of_cons in Hx as [-> | Hx]; [lia|].
    eapply Hok; [|done]. by apply list_lookup_lookup_total_lt.
  - rewrite list_lookup_insert_ne in Hi by done. by eapply Hok.
Qed.

Lemma slots_ok_replicate size n : slots_ok size (replicate n []).
Proof.
  intros i chain x Hi Hx. apply lookup_replicate in Hi as [-> _].
  by apply elem_of_nil in Hx.
Qed.

Lemma concat_replicate_nil {A} n : concat (replicate n (@nil A)) = [].
Proof. induction n; simpl; done. Qed.

(** *** [ht_create] *)

Lemma ht_create_with_threshold_wf size t :
  0 ≤ size < 2 ^ 32 → ht_wf (ht_create_with_threshold size t).
Proof.
  intros Hs. unfold ht_create_with_threshold.
  set (n := if size =? 0 then HT_DEFAULT_SIZE else size).
  assert (0 < n < 2 ^ 32) as Hn.
  { subst n. unfold HT_DEFAULT_SIZE. destruct (Z.eqb_spec size 0); lia. }
  clearbody n. constructor; cbn [ht_size ht_items].
  - done.
  - apply length_replicate.
  - apply slots_ok_replicate.
  - unfold ht_entries, ht_buckets. cbn [ht_size ht_items].
    rewrite take_replicate, concat_replicate_nil. apply NoDup_nil_2.
Qed.

Lemma ht_create_wf size : 0 ≤ size < 2 ^ 32 → ht_wf (ht_create size).
Proof. apply ht_create_with_threshold_wf. Qed.

Lemma ht_create_entries size : ht_entries (ht_create size) = [].
Proof.
  unfold ht_create, ht_create_with_threshold, ht_entries, ht_buckets.
  cbn [ht_size ht_items]. by rewrite take_replicate, concat_replicate_nil.
Qed.

(** *** [ht_resize] *)

Lemma rehash_fold_concat new_size (chains : list (list Ht_item)) init :
  fold_left (λ new_items chain, fold_left (rehash_item new_size) chain new_items)
            chains init
  = fold_left (rehash_item new_size) (concat chains) init.
Proof.
  revert init. induction chains as [|chain chains IH]; intros init; simpl; [done|].
  by rewrite IH, fold_left_app.
Qed.

Lemma rehash_fold_spec new_size (l : list Ht_item) init :
  0 < new_size → length init = Z.to_nat new_size → slots_ok new_size init →
  let new_items := fold_left (rehash_item new_size) l init in
  length new_items = Z.to_nat new_size ∧ slots_ok new_size new_items
  ∧ concat new_items ≡ₚ l ++ concat init.
Proof.
  intros Hpos. revert init.
  induction l as [|item l IH]; intros init Hlen Hok; simpl; [done|].
  pose proof (hash_bound (it_key item) new_size Hpos) as Hb.
  destruct (IH (rehash_item new_size init item)) as (Hl & Hs & Hp).
  - unfold rehash_item. by rewrite length_chain_push.
  - unfold rehash_item. apply slots_ok_chain_push; [done | done | lia].
  - split_and!; [done | done |]. rewrite Hp. unfold rehash_item.
    rewrite concat_chain_push by lia. symmetry. apply Permutation_middle.
Qed.

Lemma ht_resize_spec ht new_size :
  0 < new_size →
  let ht' := (ht_resize ht new_size).1 in
  ht_size ht' = new_size ∧ length (ht_items ht') = Z.to_nat new_size
  ∧ slots_ok new_size (ht_items ht') ∧ ht_entries ht' ≡ₚ ht_entries ht
  ∧ ht_count ht' = ht_count ht ∧ ht_load_threshold ht' = ht_load_threshold ht.
Proof.
  intros Hpos. unfold ht_resize.
  destruct (Z.eqb_spec new_size 0) as [-> | _]; [lia|]. simpl.
  rewrite rehash_fold_concat.
  destruct (rehash_fold_spec new_size (concat (ht_buckets ht))
              (replicate (Z.to_nat new_size) []) Hpos)
    as (Hl & Hs & Hp); [apply length_replicate | apply slots_ok_replicate |].
  split_and!; try done.
  unfold ht_entries at 1, ht_buckets at 1. simpl.
  rewrite take_ge by lia. rewrite Hp, concat_replicate_nil, app_nil_r. done.
Qed.

Lemma ht_resize_zero ht : ht_resize ht 0 = (ht, 0).
Proof. done. Qed.

Lemma ht_resize_entries ht new_size :
  0 ≤ new_size → ht_entries (ht_resize ht new_size).1 ≡ₚ ht_entries ht.
Proof.
  intros Hs. destruct (decide (new_size = 0)) as [-> | Hne]; [done|].
  apply ht_resize_spec. lia.
Qed.

Lemma ht_resize_wf ht new_size :
  ht_wf ht → 0 ≤ new_size < 2 ^ 32 → ht_wf (ht_resize ht new_size).1.
Proof.
  intros Hwf Hs. destruct (decide (new_size = 0)) as [-> | Hne]; [done|].
  destruct (ht_resize_spec ht new_size) as (H1 & H2 & H3 & H4 & _); [lia|].
  constructor.
  - rewrite H1. lia.
  - by rewrite H1.
  - by rewrite H1.
  - rewrite H4. apply Hwf.
Qed.

Lemma ht_resize_search ht new_size key :
  ht_wf ht → 0 ≤ new_size < 2 ^ 32 →
  hash_search (ht_resize ht new_size).1 key = hash_search ht key.
Proof.
  intros Hwf Hs. apply hash_search_ext;
    [by apply ht_resize_wf | done | apply ht_resize_entries; lia].
Qed.

(** *** Overwriting a count, linking a new item *)

Lemma chain_store_keys chain key c :
  it_key <$> chain_store chain key c = it_key <$> chain.
Proof.
  induction chain as [|x chain IH]; csimpl; [done|].
  case_decide; csimpl; [done | by rewrite IH].
Qed.

Lemma chain_search_store_eq chain key c :
  chain_search (chain_store chain key c) key
  = (λ _, mk_item key c) <$> chain_search chain key.
Proof.
  induction chain as [|x chain IH]; simpl; [done|].
  case_decide as Hk; simpl.
  - rewrite decide_True by done. by rewrite Hk.
  - by rewrite decide_False.
Qed.

Lemma chain_search_store_ne chain key c k :
  k ≠ key → chain_search (chain_store chain key c) k = chain_search chain k.
Proof.
  intros Hne. induction chain as [|x chain IH]; simpl; [done|].
  case_decide as Hk; simpl.
  - rewrite !decide_False by congruence. done.
  - case_decide; [done | apply IH].
Qed.

Lemma fmap_concat_insert {A B} (f : A → B) (ls : list (list A)) i l l' :
  ls !! i = Some l → f <$> l' = f <$> l →
  f <$> concat (<[i := l']> ls) = f <$> concat ls.
Proof.
  intros Hl Hf. rewrite insert_take_drop by (by eapply lookup_lt_Some).
  rewrite <- (take_drop_middle ls i l Hl) at 3.
  rewrite !concat_app, !fmap_app. simpl. by rewrite !fmap_app, Hf.
Qed.

Lemma ht_store_keys ht key c :
  ht_wf ht → it_key <$> ht_entries (ht_store ht key c) = it_key <$> ht_entries ht.
Proof.
  intros Hwf. unfold ht_entries, ht_buckets, ht_store. cbn [ht_items ht_size].
  rewrite !take_ge by (rewrite ?length_insert, (wf_length _ Hwf); lia).
  eapply fmap_concat_insert; [|apply chain_store_keys].
  apply list_lookup_lookup_total_lt, hash_slot_lt; apply Hwf.
Qed.

Lemma ht_store_wf ht key c : ht_wf ht → ht_wf (ht_store ht key c).
Proof.
  intros Hwf. constructor.
  - apply Hwf.
  - unfold ht_store. cbn [ht_items ht_size]. rewrite length_insert. apply Hwf.
  - unfold ht_store. cbn [ht_items ht_size]. intros i chain x Hi Hx.
    set (slot := Z.to_nat (hash key (ht_size ht))) in *.
    assert (slot < length (ht_items ht))%nat as Hlt
      by (apply hash_slot_lt; apply Hwf).
    destruct (decide (i = slot)) as [-> | Hne].
    + rewrite list_lookup_insert_eq in Hi by done. injection Hi as <-.
      apply (list_elem_of_fmap_2 it_key) in Hx. rewrite chain_store_keys in Hx.
      apply list_elem_of_fmap in Hx as (y & -> & Hy).
      eapply (wf_slots _ Hwf); [|done]. by apply list_lookup_lookup_total_lt.
    + rewrite list_lookup_insert_ne in Hi by done. by eapply (wf_slots _ Hwf).
  - rewrite ht_store_keys by done. apply Hwf.
Qed.

Lemma hash_search_store ht key c k :
  ht_wf ht →
  hash_search (ht_store ht key c) k
  = if decide (k = key) then (λ _, mk_item key c) <$> hash_search ht key
    else hash_search ht k.
Proof.
  intros Hwf. unfold hash_search, ht_bucket, ht_store. cbn [ht_items ht_size].
  assert (Z.to_nat (hash key (ht_size ht)) < length (ht_items ht))%nat as Hlt
    by (apply hash_slot_lt; apply Hwf).
  case_decide as Hk.
  - subst k. rewrite list_lookup_total_insert_eq by done.
    apply chain_search_store_eq.
  - destruct (decide (Z.to_nat (hash k (ht_size ht))
                      = Z.to_nat (hash key (ht_size ht)))) as [-> | Hne].
    + rewrite list_lookup_total_insert_eq by done.
      by apply chain_search_store_ne.
    + by rewrite list_lookup_total_insert_ne.
Qed.

Lemma ht_link_entries ht key c b :
  ht_wf ht → ht_entries (ht_link ht key c b) ≡ₚ mk_item key c :: ht_entries ht.
Proof.
  intros Hwf. unfold ht_entries, ht_buckets, ht_link. cbn [ht_items ht_size].
  rewrite !take_ge by (rewrite ?length_chain_push, (wf_length _ Hwf); lia).
  apply concat_chain_push, hash_slot_lt; apply Hwf.
Qed.

Lemma ht_link_wf ht key c b :
  ht_wf ht → hash_search ht key = None → ht_wf (ht_link ht key c b).
Proof.
  intros Hwf Hnone. constructor.
  - apply Hwf.
  - unfold ht_link. cbn [ht_items ht_size]. rewrite length_chain_push. apply Hwf.
  - unfold ht_link. cbn [ht_items ht_size]. apply slots_ok_chain_push.
    + apply Hwf.
    + done.
    + apply hash_bound, Hwf.
  - rewrite ht_link_entries by done. simpl. apply NoDup_cons. split.
    + by apply hash_search_None.
    + apply Hwf.
Qed.

Lemma hash_search_link ht key c b k :
  ht_wf ht →
  hash_search (ht_link ht key c b) k
  = if decide (k = key) then Some (mk_item key c) else hash_search ht k.
Proof.
  intros Hwf. unfold hash_search, ht_bucket, ht_link, chain_push.
  cbn [ht_items ht_size].
  assert (Z.to_nat (hash key (ht_size ht)) < length (ht_items ht))%nat as Hlt
    by (apply hash_slot_lt; apply Hwf).
  case_decide as Hk.
  - subst k. rewrite list_lookup_total_insert_eq by done. simpl.
    by rewrite decide_True.
  - destruct (decide (Z.to_nat (hash k (ht_size ht))
                      = Z.to_nat (hash key (ht_size ht)))) as [-> | Hne].
    + rewrite list_lookup_total_insert_eq by done. simpl.
      by rewrite decide_False by congruence.
    + by rewrite list_lookup_total_insert_ne.
Qed.

(** *** [ht_set]: store or link *)

Lemma ht_set_wf ht key c b : ht_wf ht → ht_wf (ht_set ht key c b).
Proof.
  intros Hwf. unfold ht_set. destruct (hash_search ht key) eqn:Hs.
  - by apply ht_store_wf.
  - by apply ht_link_wf.
Qed.

Lemma hash_search_set ht key c b k :
  ht_wf ht →
  hash_search (ht_set ht key c b) k
  = if decide (k = key) then Some (mk_item key c) else hash_search ht k.
Proof.
  intros Hwf. unfold ht_set. destruct (hash_search ht key) eqn:Hs.
  - rewrite hash_search_store by done. by rewrite Hs.
  - by apply hash_search_link.
Qed.

Lemma ht_to_map_set ht key c b :
  ht_wf ht → ht_to_map (ht_set ht key c b) = <[key := c]> (ht_to_map ht).
Proof.
  intros Hwf. apply map_eq. intros k.
  rewrite ht_to_map_lookup by (by apply ht_set_wf).
  rewrite hash_search_set by done.
  destruct (decide (k = key)) as [-> | Hne].
  - by rewrite lookup_insert_eq.
  - rewrite lookup_insert_ne by done. by rewrite ht_to_map_lookup.
Qed.

(** *** [hash_insert_or_increment] *)

Lemma insert_resize_wf ht :
  ht_wf ht →
  ht_wf (if load_factor_reached ht
         then (ht_resize ht ((ht_size ht * 2) mod 2 ^ 32)).1 else ht).
Proof.
  intros Hwf. destruct (load_factor_reached ht); [|done].
  apply ht_resize_wf; [done|]. apply Z.mod_pos_bound. lia.
Qed.

Lemma insert_resize_search ht key :
  ht_wf ht →
  hash_search (if load_factor_reached ht
               then (ht_resize ht ((ht_size ht * 2) mod 2 ^ 32)).1 else ht) key
  = hash_search ht key.
Proof.
  intros Hwf. destruct (load_factor_reached ht); [|done].
  apply ht_resize_search; [done|]. apply Z.mod_pos_bound. lia.
Qed.

Lemma hash_insert_or_increment_wf ht key :
  ht_wf ht → ht_wf (hash_insert_or_increment ht key).
Proof.
  intros Hwf. unfold hash_insert_or_increment.
  pose proof (insert_resize_wf ht Hwf) as Hwf'.
  destruct (hash_search _ key) eqn:Hs.
  - by apply ht_store_wf.
  - by apply ht_link_wf.
Qed.

Lemma hash_search_insert_or_increment ht key k :
  ht_wf ht →
  hash_search (hash_insert_or_increment ht key) k
  = if decide (k = key)
    then Some (mk_item key (incremented (hash_search ht key)))
    else hash_search ht k.
Proof.
  intros Hwf. unfold hash_insert_or_increment.
  pose proof (insert_resize_wf ht Hwf) as Hwf'.
  pose proof (insert_resize_search ht key Hwf) as Hkey.
  pose proof (insert_resize_search ht k Hwf) as Hk.
  destruct (hash_search _ key) as [item|] eqn:Hs.
  - rewrite hash_search_store by done. rewrite Hs, <- Hkey.
    by case_decide.
  - rewrite hash_search_link by done. rewrite <- Hkey.
    by case_decide.
Qed.

End HashTableFacts.

(** Tables filled by [hash_insert_or_increment]. *)

Lemma fold_insert_wf (keys : list string) ht :
  ht_wf ht → ht_wf (fold_left hash_insert_or_increment keys ht).
Proof.
  revert ht. induction keys as [|key keys IH]; intros ht Hwf; simpl; [done|].
  by apply IH, hash_insert_or_increment_wf.
Qed.

Lemma fold_insert_search_None (keys : list string) ht k :
  ht_wf ht → hash_search ht k = None → k ∉ keys →
  hash_search (fold_left hash_insert_or_increment keys ht) k = None.
Proof.
  revert ht. induction keys as [|key keys IH]; intros ht Hwf Hn Hk; simpl; [done|].
  apply not_elem_of_cons in Hk as [Hne Hk].
  apply IH; [by apply hash_insert_or_increment_wf | | done].
  rewrite hash_search_insert_or_increment by done. by rewrite decide_False.
Qed.

Lemma fold_insert_search_key (P : string → Prop) (keys : list string) ht :
  ht_wf ht → Forall P keys →
  (∀ item, item ∈ ht_entries ht → P (it_key item)) →
  ∀ item, item ∈ ht_entries (fold_left hash_insert_or_increment keys ht) →
          P (it_key item).
Proof.
  revert ht. induction keys as [|key keys IH]; intros ht Hwf HP Hht; simpl; [done|].
  apply Forall_cons in HP as [Hkey HP].
  apply IH; [by apply hash_insert_or_increment_wf | done |].
  intros item Hin.
  assert (hash_search (hash_insert_or_increment ht key) (it_key item) = Some item) as Hs.
  { apply hash_search_Some; [by apply hash_insert_or_increment_wf | done]. }
  rewrite hash_search_insert_or_increment in Hs by done.
  case_decide as Hk; [by rewrite Hk|].
  apply Hht. by apply hash_search_Some in Hs as [? _].
Qed.

Lemma count_unique_tokens_spec ht :
  count_unique_tokens ht = ht_tokens ht mod 2 ^ 32.
Proof.
  unfold count_unique_tokens, ht_tokens, ht_entries.
  assert (∀ (chain : list Ht_item) c,
            fold_left (λ count _, (count + 1) mod 2 ^ 32) chain (c mod 2 ^ 32)
            = (c + Z.of_nat (length chain)) mod 2 ^ 32) as Hc.
  { induction chain as [|x chain IH]; intros c; simpl.
    - f_equal. lia.
    - rewrite Zplus_mod_idemp_l, IH. f_equal. lia. }
  assert (∀ (chains : list (list Ht_item)) c,
            fold_left (λ count chain,
                         fold_left (λ count _, (count + 1) mod 2 ^ 32) chain count)
                      chains (c mod 2 ^ 32)
            = (c + Z.of_nat (length (concat chains))) mod 2 ^ 32) as Hcs.
  { induction chains as [|chain chains IH]; intros c; simpl.
    - f_equal. lia.
    - rewrite Hc, IH, length_app. f_equal. lia. }
  etrans; [exact (Hcs _ 0)|]. by rewrite Z.add_0_l.
Qed.

(** C8: resizing the table to a new capacity keeps exactly the items it
    held: the items afterwards are a rearrangement of the items before (no
    entry lost, none added or duplicated, every key with the count it had),
    the keys stay pairwise distinct, every search gives what it gave
    before, and the number of items recorded is unchanged. *)
Theorem ht_resize_preserves (ht : HashTable) (new_size : Z) :
  ht_wf ht → 0 ≤ new_size < 2 ^ 32 →
  let ht' := (ht_resize ht new_size).1 in
  ht_entries ht' ≡ₚ ht_entries ht
  ∧ NoDup (it_key <$> ht_entries ht')
  ∧ (∀ key, hash_search ht' key = hash_search ht key)
  ∧ ht_to_map ht' = ht_to_map ht
  ∧ ht_tokens ht' = ht_tokens ht
  ∧ count_unique_tokens ht' = count_unique_tokens ht
  ∧ ht_count ht' = ht_count ht.
Proof.
  intros Hwf Hs ht'.
  assert (ht_entries ht' ≡ₚ ht_entries ht) as Hp by (apply ht_resize_entries; lia).
  assert (ht_wf ht') as Hwf' by (by apply ht_resize_wf).
  assert (ht_tokens ht' = ht_tokens ht) as Hn by (unfold ht_tokens; by rewrite Hp).
  split; [done|]. split; [apply Hwf'|]. split; [|split; [|split; [done|split]]].
  - intros key. by apply ht_resize_search.
  - apply ht_to_map_perm; [apply Hwf' | done].
  - by rewrite !count_unique_tokens_spec, Hn.
  - subst ht'. unfold ht_resize. by destruct (new_size =? 0).
Qed.

Lemma ht_resize_preserves_witness :
  let ht := fold_left hash_insert_or_increment ["[C]"; "[N]"; "[C]"; "[O]"] (ht_create 4) in
  ht_wf ht ∧ 0 ≤ 3 < 2 ^ 32
  ∧ ht_entries (ht_resize ht 3).1 ≡ₚ ht_entries ht
  ∧ hash_search (ht_resize ht 3).1 "[C]" = Some (mk_item "[C]" 2).
Proof.
  intros ht.
  assert (ht_wf ht) as Hwf by (apply fold_insert_wf, ht_create_wf; lia).
  assert (0 ≤ 3 < 2 ^ 32) as Hs by lia.
  destruct (ht_resize_preserves ht 3 Hwf Hs) as (Hp & _ & Hsearch & _).
  split_and!; [done | lia | lia | done |].
  rewrite Hsearch. reflexivity.
Defined.

(** ** Strings *)

Section StringFacts.

Implicit Types (s t u : string) (c : ascii).

Lemma app_nil_l s : "" +:+ s = s.
Proof. reflexivity. Qed.

Lemma app_cons c s t : String c s +:+ t = String c (s +:+ t).
Proof. reflexivity. Qed.

Lemma app_nil_r s : s +:+ "" = s.
Proof. induction s as [|c s IH]; [done|]. by rewrite app_cons, IH. Qed.

Lemma app_assoc s t u : (s +:+ t) +:+ u = s +:+ t +:+ u.
Proof. induction s as [|c s IH]; [done|]. by rewrite !app_cons, IH. Qed.

Lemma length_app s t :
  String.length (s +:+ t) = (String.length s + String.length t)%nat.
Proof. induction s as [|c s IH]; [done|]. rewrite app_cons. simpl. by rewrite IH. Qed.

Lemma len_app s t : Str.len (s +:+ t) = Str.len s + Str.len t.
Proof. unfold Str.len. rewrite length_app. lia. Qed.

Lemma len_nonneg s : 0 ≤ Str.len s.
Proof. unfold Str.len. lia. Qed.

Lemma length_zero s : String.length s = 0%nat → s = "".
Proof. by destruct s. Qed.

Lemma take_all n s : (String.length s ≤ n)%nat → Str.take n s = s.
Proof.
  revert n. induction s as [|c s IH]; intros [|n] Hn; simpl in *; try done; [lia|].
  rewrite IH; [done | lia].
Qed.

Lemma length_take n s : String.length (Str.take n s) = (n `min` String.length s)%nat.
Proof.
  revert n. induction s as [|c s IH]; intros [|n]; simpl; try done.
  by rewrite IH.
Qed.

(** A result shorter than the room left was not cut. *)
Lemma take_short n s t :
  Str.take n s = t → (String.length t < n)%nat → s = t.
Proof.
  intros <- Hlt. rewrite length_take in Hlt.
  symmetry. apply take_all. lia.
Qed.

Lemma snprintf256_fits s : Str.len s < 256 → snprintf256 s = s.
Proof. unfold Str.len, snprintf256. intros H. apply take_all. lia. Qed.

Lemma snprintf256_len s : Str.len (snprintf256 s) ≤ 255.
Proof. unfold Str.len, snprintf256. rewrite length_take. lia. Qed.

Lemma mem_app c s t : Str.mem c (s +:+ t) = Str.mem c s || Str.mem c t.
Proof.
  induction s as [|d s IH]; [done|]. rewrite app_cons. simpl.
  by case_decide.
Qed.

Lemma all_app p s t : Str.all p (s +:+ t) = Str.all p s && Str.all p t.
Proof.
  induction s as [|d s IH]; [done|]. rewrite app_cons. simpl.
  by rewrite IH, andb_assoc.
Qed.

Lemma cat_cons s (l : list string) : Str.cat (s :: l) = s +:+ Str.cat l.
Proof. reflexivity. Qed.

Lemma cat_app (l1 l2 : list string) : Str.cat (l1 ++ l2) = Str.cat l1 +:+ Str.cat l2.
Proof.
  induction l1 as [|s l1 IH]; [done|].
  rewrite <- app_comm_cons, !cat_cons, IH. by rewrite app_assoc.
Qed.

(** Strings without [c] are separated by [c] in only one way. *)
Lemma app_sep_inj c s1 t1 s2 t2 :
  Str.mem c s1 = false → Str.mem c s2 = false →
  s1 +:+ String c t1 = s2 +:+ String c t2 → s1 = s2 ∧ t1 = t2.
Proof.
  revert s2. induction s1 as [|d s1 IH]; intros [|e s2] H1 H2 Heq;
    rewrite ?app_nil_l, ?app_cons in Heq; simpl in *.
  - by injection Heq as ->.
  - injection Heq as <- _. by rewrite decide_True in H2.
  - injection Heq as -> _. by rewrite decide_True in H1.
  - injection Heq as <- Heq. case_decide; [done|].
    destruct (IH s2 H1 H2 Heq) as [-> ->]. done.
Qed.

End StringFacts.

(** ** The merge engine *)

Section MergeFacts.

Implicit Types (tokens : TokenList) (first second pair : string).

(** Induction following the two-token look-ahead of [merge_loop]. *)
Lemma token_list_ind (P : TokenList → Prop) :
  P [] → (∀ t, P [t]) →
  (∀ t t' rest, P rest → P (t' :: rest) → P (t :: t' :: rest)) →
  ∀ tokens, P tokens.
Proof.
  intros Hnil Hone Hstep tokens.
  assert (P tokens ∧ ∀ t, P (t :: tokens)) as [? _]; [|done].
  induction tokens as [|t' rest [IH1 IH2]]; [by split|].
  split; [apply IH2|]. intros t. by apply Hstep.
Qed.

Lemma split_pair_Some pair first second :
  split_pair pair = Some (first, second) →
  pair = first +:+ String " " second ∧ Str.mem " " first = false.
Proof.
  revert first. induction pair as [|c pair IH]; intros first; simpl; [done|].
  case_decide as Hc.
  - intros [= <- <-]. by rewrite Hc.
  - destruct (split_pair pair) as [[f s]|]; simpl; [|done].
    intros [= <- <-]. destruct (IH f eq_refl) as [-> Hm]. split; [done|].
    simpl. by rewrite decide_False.
Qed.

Lemma split_pair_None pair : split_pair pair = None → Str.mem " " pair = false.
Proof.
  induction pair as [|c pair IH]; simpl; [done|].
  case_decide; [done|]. destruct (split_pair pair); [done|]. auto.
Qed.

Lemma split_pair_app first second :
  Str.mem " " first = false →
  split_pair (first +:+ String " " second) = Some (first, second).
Proof.
  induction first as [|c first IH]; intros Hm.
  - done.
  - rewrite app_cons. simpl in *. case_decide; [done|]. by rewrite IH.
Qed.

Lemma merged_token_fits first second :
  Str.len first + Str.len second < 256 →
  merged_token first second = first +:+ second.
Proof. intros H. apply snprintf256_fits. by rewrite len_app. Qed.

(** C10: for every token list and every pair key containing a space whose
    two halves together are shorter than the 256-byte buffer, the tokens
    written by [merge_pair] concatenate to the same text as the tokens
    read. *)
Theorem merge_pair_preserves_text (tokens : TokenList) (pair first second : string) :
  split_pair pair = Some (first, second) →
  Str.len first + Str.len second < 256 →
  Str.cat (merge_pair tokens pair) = Str.cat tokens.
Proof.
  intros Hsplit Hlen. unfold merge_pair. rewrite Hsplit.
  induction tokens as [| t | t t' rest IH1 IH2] using token_list_ind; [done..|].
  change (merge_loop first second (t :: t' :: rest))
    with (if decide (t = first ∧ t' = second)
          then merged_token first second :: merge_loop first second rest
          else t :: merge_loop first second (t' :: rest)).
  case_decide as Hm.
  - destruct Hm as [-> ->]. rewrite !cat_cons, IH1.
    rewrite merged_token_fits by done. by rewrite app_assoc.
  - rewrite (cat_cons t (merge_loop _ _ _)), IH2. done.
Qed.

Lemma merge_pair_preserves_text_witness :
  split_pair "[C] [C]" = Some ("[C]", "[C]")
  ∧ Str.len "[C]" + Str.len "[C]" < 256
  ∧ Str.cat (merge_pair ["[C]"; "[C]"; "[C]"; "[N]"] "[C] [C]") = "[C][C][C][N]".
Proof.
  split_and!; [reflexivity | reflexivity |].
  apply (merge_pair_preserves_text ["[C]"; "[C]"; "[C]"; "[N]"] "[C] [C]" "[C]" "[C]");
    reflexivity.
Defined.

(** *** Exhaustiveness of one pass *)

Lemma adjacent_pairs_elem key tokens :
  key ∈ adjacent_pairs tokens →
  ∃ x y, has_adjacent x y tokens ∧ key = pair_key x y.
Proof.
  induction tokens as [|a rest IH]; simpl; [by intros ?%elem_of_nil|].
  destruct rest as [|b rest']; [by intros ?%elem_of_nil|].
  intros [-> | Hin]%elem_of_cons.
  - exists a, b. split; [by left | done].
  - destruct (IH Hin) as (x & y & Hxy & ->). exists x, y. split; [by right | done].
Qed.

Lemma has_adjacent_elem x y tokens :
  has_adjacent x y tokens → x ∈ tokens ∧ y ∈ tokens.
Proof.
  induction tokens as [|a rest IH]; simpl; [done|].
  destruct rest as [|b rest']; [done|].
  intros [[-> ->] | H].
  - split; [left | right; left].
  - destruct (IH H). split; by right.
Qed.

Lemma merge_loop_cons2 first second t t' rest :
  merge_loop first second (t :: t' :: rest)
  = if decide (t = first ∧ t' = second)
    then merged_token first second :: merge_loop first second rest
    else t :: merge_loop first second (t' :: rest).
Proof. reflexivity. Qed.

Lemma merge_loop_elem first second tokens x :
  x ∈ merge_loop first second tokens →
  x ∈ tokens
  ∨ (x = merged_token first second ∧ first ∈ tokens ∧ second ∈ tokens).
Proof.
  induction tokens as [| t | t t' rest IH1 IH2] using token_list_ind.
  - by intros ?%elem_of_nil.
  - by left.
  - rewrite merge_loop_cons2. case_decide as Hm.
    + destruct Hm as [-> ->]. intros [-> | Hin]%elem_of_cons.
      * right. split_and!; [done | left | right; left].
      * destruct (IH1 Hin) as [? | (? & ? & ?)].
        -- left. by do 2 right.
        -- right. split_and!; [done | by do 2 right ..].
    + intros [-> | Hin]%elem_of_cons; [left; left|].
      destruct (IH2 Hin) as [? | (? & ? & ?)].
      * left. by right.
      * right. split_and!; [done | by right ..].
Qed.

(** The first token written is the first token read, or the merged token. *)
Lemma merge_loop_head first second t rest :
  ∃ tl, merge_loop first second (t :: rest) = t :: tl
        ∨ merge_loop first second (t :: rest) = merged_token first second :: tl.
Proof.
  destruct rest as [|t' rest]; [by exists []; left|].
  rewrite merge_loop_cons2. case_decide; eauto.
Qed.

Lemma merge_loop_no_adjacent first second tokens :
  merged_token first second ≠ first → merged_token first second ≠ second →
  ¬ has_adjacent first second (merge_loop first second tokens).
Proof.
  intros Hf Hs.
  induction tokens as [| t | t t' rest IH1 IH2] using token_list_ind;
    [simpl; tauto..|].
  rewrite merge_loop_cons2. case_decide as Hm.
  - destruct (merge_loop first second rest) as [|h tl] eqn:Hr; [simpl; tauto|].
    intros [[? _] | H]; [done | by apply IH1].
  - destruct (merge_loop_head first second t' rest) as [tl [Hh | Hh]];
      rewrite Hh in *; (intros [[Ht Ht'] | H]; [|by apply IH2]).
    + by destruct Hm.
    + done.
Qed.

Lemma plain_token_merged first second :
  plain_token first → plain_token second → plain_token (merged_token first second).
Proof.
  intros [Hne Hm] [_ Hm']. unfold merged_token, snprintf256. split.
  - destruct first; [done|]. by rewrite app_cons.
  - assert (∀ n s, Str.mem " " s = false → Str.mem " " (Str.take n s) = false) as Ht.
    { intros n s. revert n. induction s as [|c s IH]; intros [|n]; simpl; try done.
      case_decide; [done | apply IH]. }
    apply Ht. by rewrite mem_app, Hm, Hm'.
Qed.

Lemma pair_key_untruncated x y pair :
  pair_key x y = pair → Str.len pair < 255 → pair = x +:+ String " " y.
Proof.
  unfold pair_key, snprintf256, Str.len. intros H Hlen.
  symmetry. eapply take_short; [done | lia].
Qed.

Lemma no_pair_left tokens pair :
  Forall plain_token tokens → Str.len pair < 255 →
  pair ∉ adjacent_pairs (merge_pair tokens pair).
Proof.
  intros Hplain Hlen Hin.
  apply adjacent_pairs_elem in Hin as (x & y & Hadj & Hkey).
  symmetry in Hkey. apply pair_key_untruncated in Hkey; [|done].
  pose proof (has_adjacent_elem _ _ _ Hadj) as [Hx Hy].
  rewrite Forall_forall in Hplain.
  unfold merge_pair in *. destruct (split_pair pair) as [[first second]|] eqn:Hsp.
  - apply split_pair_Some in Hsp as [Hpair Hfirst].
    assert (∀ z, z ∈ merge_loop first second tokens → plain_token z) as Hall.
    { intros z [Hz | (-> & Hf & Hs)]%merge_loop_elem; [by apply Hplain|].
      apply plain_token_merged; by apply Hplain. }
    destruct (Hall x Hx) as [Hxne Hxm]. destruct (Hall y Hy) as [Hyne _].
    rewrite Hpair in Hkey.
    apply app_sep_inj in Hkey as [-> ->]; [|done..].
    assert (Str.len x + Str.len y < 254) as Hxy.
    { rewrite Hpair, len_app in Hlen. unfold Str.len in *. simpl in Hlen. lia. }
    assert (0 < Str.len x ∧ 0 < Str.len y) as [Hx0 Hy0].
    { unfold Str.len. destruct x, y; simpl; try done; lia. }
    revert Hadj. apply merge_loop_no_adjacent;
      rewrite merged_token_fits by lia; intros Heq;
      apply (f_equal Str.len) in Heq; rewrite len_app in Heq; lia.
  - apply split_pair_None in Hsp. rewrite Hkey, mem_app in Hsp. simpl in Hsp.
    by rewrite orb_true_r in Hsp.
Qed.

Lemma lookup_total_replicate_nil {A} (n i : nat) :
  replicate n (@nil A) !!! i = [].
Proof.
  rewrite list_lookup_total_alt.
  destruct (replicate n (@nil A) !! i) as [l|] eqn:Hl; [|done].
  by apply lookup_replicate in Hl as [-> _].
Qed.

Lemma hash_search_create size key : hash_search (ht_create size) key = None.
Proof.
  unfold hash_search, ht_bucket, ht_create, ht_create_with_threshold.
  cbn [ht_items ht_size]. by rewrite lookup_total_replicate_nil.
Qed.

(** C5 (amended): for every sequence of tokens that are not empty and hold
    no space, and every pair key shorter than 255 bytes, the pair statistics
    recomputed on the sequence [merge_pair] writes hold no occurrence of
    the pair just applied. *)
Theorem merge_pair_exhaustive (tokens : TokenList) (pair : string) :
  Forall plain_token tokens → Str.len pair < 255 →
  pair_count_in (get_pair_stats (merge_pair tokens pair)) pair = 0.
Proof.
  intros Hplain Hlen. unfold get_pair_stats, pair_count_in.
  destruct (_ <? _)%nat; [done|]. unfold count_pairs.
  rewrite fold_insert_search_None; [done | | apply hash_search_create |].
  - apply ht_create_wf. change (HT_DEFAULT_SIZE / 10) with 1000. lia.
  - by apply no_pair_left.
Qed.

Lemma merge_pair_exhaustive_witness :
  Forall plain_token ["[C]"; "[C]"; "[C]"; "[N]"] ∧ Str.len "[C] [C]" < 255
  ∧ merge_pair ["[C]"; "[C]"; "[C]"; "[N]"] "[C] [C]" = ["[C][C]"; "[C]"; "[N]"]
  ∧ pair_count_in (get_pair_stats (merge_pair ["[C]"; "[C]"; "[C]"; "[N]"] "[C] [C]"))
                  "[C] [C]" = 0.
Proof.
  assert (Forall plain_token ["[C]"; "[C]"; "[C]"; "[N]"]) as Hplain
    by (repeat constructor; done).
  assert (Str.len "[C] [C]" < 255) as Hlen by reflexivity.
  split_and!; [done | done | reflexivity |].
  exact (merge_pair_exhaustive _ _ Hplain Hlen).
Defined.

(** C5 as stated fails in three ways. A token holding a space makes the
    pair key split in the wrong place, so nothing is merged and the pair
    is counted again; a pair key cut to 255 bytes names a second token
    that is not in the sequence, with the same effect; and an empty second
    token can follow a merged token. *)
Lemma merge_pair_not_exhaustive :
  (let tokens := pre_tokenize false "[C O][N]" in
   tokens = ["[C O]"; "[N]"]
   ∧ (get_best_pair <$> get_pair_stats tokens) = Some (Some "[C O] [N]", 1)
   ∧ pair_count_in (get_pair_stats (merge_pair tokens "[C O] [N]")) "[C O] [N]" = 1)
  ∧ (let long := "[" +:+ Str.cat (replicate 300 "C") +:+ "]" in
     let tokens := pre_tokenize false ("[C]" +:+ long) in
     let pair := pair_key "[C]" long in
     tokens = ["[C]"; long]
     ∧ (get_best_pair <$> get_pair_stats tokens) = Some (Some pair, 1)
     ∧ pair_count_in (get_pair_stats (merge_pair tokens pair)) pair = 1)
  ∧ pair_count_in (get_pair_stats (merge_pair ["A"; ""; ""] "A ")) "A " = 1.
Proof. vm_compute. done. Qed.

End MergeFacts.

(** ** The segmenter *)

Section SegmenterFacts.

Lemma regexec_unfold match_at p :
  Regex.regexec match_at p
  = match match_at p with
    | Some n => Some (0, n)%nat
    | None =>
        match p with
        | "" => None
        | String _ p' =>
            match Regex.regexec match_at p' with
            | Some (so, eo) => Some (S so, S eo)
            | None => None
            end
        end
    end.
Proof. by destruct p. Qed.

Lemma selfies_no_match (text : string) :
  Str.mem "[" text = false → Str.mem "." text = false →
  Regex.regexec Regex.selfies_match_at text = None.
Proof.
  induction text as [|c text IH]; intros H1 H2; [done|]. simpl in H1, H2.
  destruct (decide (c = "["%char)) as [|Hb]; [done|].
  destruct (decide (c = "."%char)) as [|Hd]; [done|].
  rewrite regexec_unfold, (IH H1 H2).
  assert (Regex.selfies_match_at (String c text) = None) as ->; [|done].
  unfold Regex.selfies_match_at, Regex.bracket_group.
  destruct c as [[] [] [] [] [] [] [] []]; done.
Qed.

(** Every match of either pattern is at least one byte long. *)
Lemma selfies_match_at_pos p n : Regex.selfies_match_at p = Some n → (0 < n)%nat.
Proof.
  unfold Regex.selfies_match_at, Regex.bracket_group.
  repeat case_match; intros; simplify_eq; lia.
Qed.

Lemma smiles_match_at_pos p n : Regex.smiles_match_at p = Some n → (0 < n)%nat.
Proof.
  unfold Regex.smiles_match_at, Regex.bracket_group.
  repeat case_match; intros; simplify_eq; lia.
Qed.

(** C7: under the SELFIES pattern the SMILES string [CCO] gives no token at
    all, and so does every text without an opening bracket and without a
    dot: the bytes that start no match are passed over and leave no
    token. *)
Theorem selfies_skips_unmatched :
  pre_tokenize false "CCO" = []
  ∧ ∀ text, Str.mem "[" text = false → Str.mem "." text = false →
            pre_tokenize false text = [].
Proof.
  split; [reflexivity|]. intros text H1 H2.
  unfold pre_tokenize. simpl. by rewrite selfies_no_match.
Qed.

Lemma selfies_skips_unmatched_witness :
  Str.mem "[" "c1ccccc1O" = false ∧ Str.mem "." "c1ccccc1O" = false
  ∧ pre_tokenize false "c1ccccc1O" = [].
Proof.
  split_and!; [reflexivity | reflexivity |].
  apply (proj2 selfies_skips_unmatched); reflexivity.
Defined.

(** Bytes between two matches are dropped as well. *)
Example selfies_partial : pre_tokenize false "C[C]O.N[O" = ["[C]"; "."].
Proof. reflexivity. Qed.

Example smiles_tokens :
  pre_tokenize true "CC(=O)Oc1ccccc1C(=O)O[Na+]Br%12"
  = ["C"; "C"; "("; "="; "O"; ")"; "O"; "c"; "1"; "c"; "c"; "c"; "c"; "c"; "1";
     "C"; "("; "="; "O"; ")"; "O"; "[Na+]"; "Br"; "%12"].
Proof. reflexivity. Qed.

End SegmenterFacts.

(** ** Pair selection *)

Section SelectionFacts.

Lemma get_best_pair_entries stats :
  get_best_pair stats = fold_left best_step (ht_entries stats) (None, -1).
Proof.
  unfold get_best_pair, ht_entries. generalize (@None string, -1).
  induction (ht_buckets stats) as [|chain chains IH]; intros best; simpl; [done|].
  by rewrite IH, fold_left_app.
Qed.

Lemma best_step_fold_Some (items : list Ht_item) best key f :
  fold_left best_step items best = (Some key, f) →
  best = (Some key, f) ∨ ∃ item, item ∈ items ∧ it_key item = key ∧ it_count item = f.
Proof.
  revert best. induction items as [|item items IH]; intros best; simpl; [by left|].
  intros H. destruct (IH _ H) as [Hb | (x & Hx & Hk & Hc)].
  - unfold best_step in Hb. destruct (best.2 <? it_count item).
    + injection Hb as <- <-. right. exists item. split; [left | done].
    + by left.
  - right. exists x. split; [by right | done].
Qed.

(** The pair selected is a key of the table, with the count stored there. *)
Lemma get_best_pair_Some stats key f :
  get_best_pair stats = (Some key, f) →
  ∃ item, item ∈ ht_entries stats ∧ it_key item = key ∧ it_count item = f.
Proof.
  rewrite get_best_pair_entries. intros [? | ?]%best_step_fold_Some; done.
Qed.

Lemma get_best_pair_empty stats :
  ht_entries stats = [] → get_best_pair stats = (None, -1).
Proof. rewrite get_best_pair_entries. by intros ->. Qed.

Lemma count_pairs_wf stats tokens : ht_wf stats → ht_wf (count_pairs stats tokens).
Proof. apply fold_insert_wf. Qed.

Lemma collect_pair_stats_spec (all_tokens : list TokenList) :
  let stats := collect_pair_stats all_tokens in
  ht_wf stats ∧ ∀ item, item ∈ ht_entries stats → Str.len (it_key item) ≤ 255.
Proof.
  unfold collect_pair_stats.
  assert (ht_wf (ht_create HT_DEFAULT_SIZE)
          ∧ ∀ item, item ∈ ht_entries (ht_create HT_DEFAULT_SIZE) →
                    Str.len (it_key item) ≤ 255) as Hinit.
  { split; [apply ht_create_wf; unfold HT_DEFAULT_SIZE; lia|].
    rewrite ht_create_entries. by intros ? ?%elem_of_nil. }
  revert Hinit. generalize (ht_create HT_DEFAULT_SIZE).
  induction all_tokens as [|tokens all_tokens IH]; intros stats [Hwf Hk]; simpl; [done|].
  apply IH. destruct (_ <? _)%nat; [done|]. split; [by apply count_pairs_wf|].
  unfold count_pairs.
  apply (fold_insert_search_key (λ key, Str.len key ≤ 255)); [done | | done].
  clear. induction tokens as [|a rest IH]; simpl; [constructor|].
  destruct rest as [|b rest']; [constructor|].
  constructor; [apply snprintf256_len | apply IH].
Qed.


(** The pair selected in a round splits in two halves that fit the buffer
    of the merged token. *)
Lemma best_pair_fits all_tokens best_pair f first second :
  get_best_pair (collect_pair_stats all_tokens) = (Some best_pair, f) →
  split_pair best_pair = Some (first, second) →
  merged_token first second = first +:+ second.
Proof.
  intros Hbest Hsplit.
  apply get_best_pair_Some in Hbest as (item & Hin & <- & _).
  apply (proj2 (collect_pair_stats_spec all_tokens)) in Hin.
  apply split_pair_Some in Hsplit as [Hpair _].
  apply merged_token_fits. rewrite Hpair, len_app in Hin.
  unfold Str.len in *. simpl in Hin. lia.
Qed.

End SelectionFacts.

(** ** The training loop *)

Section TrainingFacts.

Implicit Types (st : TrainState).

(** What a round stores: the count of the pair under the two parts of the
    key, split at its first space, written one after the other. *)
Lemma bpe_round_stores st (best_pair first second : string) (f : Z) :
  ht_wf (tr_vocab st) →
  get_best_pair (collect_pair_stats (tr_all_tokens st)) = (Some best_pair, f) →
  split_pair best_pair = Some (first, second) →
  let vocab' := tr_vocab (bpe_round st).1 in
  hash_search vocab' (first +:+ second) = Some (mk_item (first +:+ second) f)
  ∧ ht_to_map vocab' = <[first +:+ second := f]> (ht_to_map (tr_vocab st)).
Proof.
  intros Hwf Hbest Hsplit. unfold bpe_round. rewrite Hbest, Hsplit.
  rewrite (best_pair_fits _ _ _ _ _ Hbest Hsplit). cbn [fst tr_vocab].
  split.
  - rewrite hash_search_set by done. by rewrite decide_True.
  - by apply ht_to_map_set.
Qed.

(** C1 (amended): when a round of the corpus training selects the pair of
    the tokens [x] and [y] with frequency [f], where [x] contains no space
    and the two tokens together are shorter than 255 bytes (so that their
    key fits its buffer), the vocabulary after the round holds the
    concatenated token [x y] with count exactly [f], whatever it held for
    that token before, and every other entry is as it was: the count is
    stored, never incremented. *)
Theorem merge_round_sets_count st (x y : string) (f : Z) :
  ht_wf (tr_vocab st) →
  get_best_pair (collect_pair_stats (tr_all_tokens st)) = (Some (pair_key x y), f) →
  Str.mem " " x = false → Str.len x + Str.len y < 255 →
  let vocab' := tr_vocab (bpe_round st).1 in
  hash_search vocab' (x +:+ y) = Some (mk_item (x +:+ y) f)
  ∧ ht_to_map vocab' = <[x +:+ y := f]> (ht_to_map (tr_vocab st)).
Proof.
  intros Hwf Hbest Hx Hlen.
  assert (pair_key x y = x +:+ String " " y) as Hkey.
  { unfold pair_key. apply snprintf256_fits.
    rewrite len_app. unfold Str.len in *. simpl. lia. }
  apply (bpe_round_stores st (pair_key x y)); [done | done |].
  rewrite Hkey. by apply split_pair_app.
Qed.

Lemma merge_round_sets_count_witness :
  let vocab := fold_left hash_insert_or_increment
                 ["[C][C]"; "[C][C]"; "[C][C]"; "[C]"] (ht_create 100) in
  let st := mk_train vocab [["[C]"; "[C]"; "[C]"; "[N]"]] [] in
  ht_wf (tr_vocab st)
  ∧ get_best_pair (collect_pair_stats (tr_all_tokens st))
    = (Some (pair_key "[C]" "[C]"), 2)
  ∧ Str.mem " " "[C]" = false
  ∧ Str.len "[C]" + Str.len "[C]" < 255
  ∧ hash_search (tr_vocab st) "[C][C]" = Some (mk_item "[C][C]" 3)
  ∧ hash_search (tr_vocab (bpe_round st).1) "[C][C]" = Some (mk_item "[C][C]" 2).
Proof.
  intros vocab st.
  assert (ht_wf (tr_vocab st)) as Hwf by (apply fold_insert_wf, ht_create_wf; lia).
  assert (get_best_pair (collect_pair_stats (tr_all_tokens st))
          = (Some (pair_key "[C]" "[C]"), 2))
    as Hbest by (vm_compute; reflexivity).
  assert (Str.mem " " "[C]" = false) as Hx by reflexivity.
  assert (Str.len "[C]" + Str.len "[C]" < 255) as Hlen by reflexivity.
  split; [exact Hwf|]. split; [exact Hbest|]. split; [exact Hx|].
  split; [exact Hlen|]. split; [vm_compute; reflexivity|].
  exact (proj1 (merge_round_sets_count st "[C]" "[C]" 2 Hwf Hbest Hx Hlen)).
Defined.

(** C1 as stated fails on pairs the training selects. With a token that
    holds a space (the SELFIES pattern accepts one between brackets) the
    key of the pair is split at that space: the count is stored under
    another string and the concatenated token is not in the vocabulary.
    With tokens of 255 bytes or more together the key is cut and has no
    space left: the merge is recorded and nothing is stored. *)
Lemma merge_round_misses_token :
  (let st := initial_state false ("[C O][N]" +:+ C.nl) in
   tr_all_tokens st = [["[C O]"; "[N]"]]
   ∧ get_best_pair (collect_pair_stats (tr_all_tokens st))
     = (Some (pair_key "[C O]" "[N]"), 1)
   ∧ hash_search (tr_vocab (bpe_round st).1) ("[C O]" +:+ "[N]") = None
   ∧ hash_search (tr_vocab (bpe_round st).1) "[CO] [N]"
     = Some (mk_item "[CO] [N]" 1))
  ∧ (let long := "[" +:+ Str.cat (replicate 300 "C") +:+ "]" in
     let st := initial_state false (long +:+ "[N]" +:+ C.nl) in
     tr_all_tokens st = [[long; "[N]"]]
     ∧ get_best_pair (collect_pair_stats (tr_all_tokens st))
       = (Some (pair_key long "[N]"), 1)
     ∧ hash_search (tr_vocab (bpe_round st).1) (long +:+ "[N]") = None
     ∧ ht_entries (tr_vocab (bpe_round st).1) = ht_entries (tr_vocab st)
     ∧ tr_merges (bpe_round st).1 = [pair_key long "[N]"]).
Proof. vm_compute. done. Qed.

(** *** The vocabulary stays well formed, and never loses a token *)

Lemma bpe_round_wf st : ht_wf (tr_vocab st) → ht_wf (tr_vocab (bpe_round st).1).
Proof.
  intros Hwf. unfold bpe_round.
  destruct (get_best_pair _) as [[best_pair|] f]; [|done].
  destruct (split_pair best_pair) as [[first second]|]; [|done].
  by apply ht_set_wf.
Qed.

Lemma bpe_loop_wf n st : ht_wf (tr_vocab st) → ht_wf (tr_vocab (bpe_loop n st)).
Proof.
  revert st. induction n as [|n IH]; intros st Hwf; simpl; [done|].
  pose proof (bpe_round_wf st Hwf) as Hwf'.
  destruct (bpe_round st) as [st' [|]]; [by apply IH | done].
Qed.

Lemma first_pass_wf fmt (lines : list string) vocab :
  ht_wf vocab → ht_wf (first_pass fmt lines vocab).1.
Proof.
  unfold first_pass. generalize O. revert vocab.
  induction lines as [|line lines IH]; intros vocab n Hwf; simpl; [done|].
  case_decide; [by apply IH|]. by apply IH, fold_insert_wf.
Qed.

Lemma initial_state_wf fmt file : ht_wf (tr_vocab (initial_state fmt file)).
Proof.
  unfold initial_state.
  pose proof (first_pass_wf fmt (read_lines (String.length file) file)
                (ht_create HT_DEFAULT_SIZE)) as Hwf.
  destruct (first_pass _ _ _) as [vocab n]. apply Hwf.
  apply ht_create_wf. unfold HT_DEFAULT_SIZE. lia.
Qed.

Lemma train_corpus_wf fmt file num_merges :
  ht_wf (tr_vocab (train_corpus fmt file num_merges)).
Proof. apply bpe_loop_wf, initial_state_wf. Qed.

Lemma ht_tokens_set ht key c b :
  ht_wf ht →
  ht_tokens (ht_set ht key c b)
  = ht_tokens ht + (if hash_search ht key is Some _ then 0 else 1).
Proof.
  intros Hwf. unfold ht_tokens. unfold ht_set.
  destruct (hash_search ht key) eqn:Hs.
  - rewrite <- (length_fmap it_key), ht_store_keys by done.
    rewrite length_fmap. lia.
  - rewrite ht_link_entries by done. simpl. lia.
Qed.

Lemma ht_tokens_insert ht key :
  ht_wf ht →
  ht_tokens (hash_insert_or_increment ht key)
  = ht_tokens ht + (if hash_search ht key is Some _ then 0 else 1).
Proof.
  intros Hwf. unfold hash_insert_or_increment.
  pose proof (insert_resize_wf ht Hwf) as Hwf'.
  pose proof (insert_resize_search ht key Hwf) as Hkey.
  assert (ht_tokens
            (if load_factor_reached ht
             then (ht_resize ht ((ht_size ht * 2) mod 2 ^ 32)).1 else ht)
          = ht_tokens ht) as Hcount.
  { destruct (load_factor_reached ht); [|done].
    unfold ht_tokens. rewrite ht_resize_entries; [done|].
    apply Z.mod_pos_bound. lia. }
  rewrite <- Hcount, <- Hkey. unfold ht_tokens.
  destruct (hash_search _ key) eqn:Hs.
  - rewrite <- (length_fmap it_key), ht_store_keys by done.
    rewrite length_fmap. lia.
  - rewrite ht_link_entries by done. simpl. lia.
Qed.

Lemma bpe_round_count st :
  ht_wf (tr_vocab st) →
  ht_tokens (tr_vocab st)
  ≤ ht_tokens (tr_vocab (bpe_round st).1)
  ≤ ht_tokens (tr_vocab st) + 1.
Proof.
  intros Hwf. unfold bpe_round.
  destruct (get_best_pair _) as [[best_pair|] f]; [|simpl; lia].
  destruct (split_pair best_pair) as [[first second]|]; [|simpl; lia].
  cbn [fst tr_vocab]. rewrite ht_tokens_set by done.
  destruct (hash_search _ _); lia.
Qed.

Lemma bpe_round_keeps st key :
  ht_wf (tr_vocab st) → is_Some (hash_search (tr_vocab st) key) →
  is_Some (hash_search (tr_vocab (bpe_round st).1) key).
Proof.
  intros Hwf Hkey. unfold bpe_round.
  destruct (get_best_pair _) as [[best_pair|] f]; [|done].
  destruct (split_pair best_pair) as [[first second]|]; [|done].
  cbn [fst tr_vocab]. rewrite hash_search_set by done. by case_decide.
Qed.

Lemma bpe_loop_count n st :
  ht_wf (tr_vocab st) →
  ht_tokens (tr_vocab st) ≤ ht_tokens (tr_vocab (bpe_loop n st))
  ∧ ∀ key, is_Some (hash_search (tr_vocab st) key) →
           is_Some (hash_search (tr_vocab (bpe_loop n st)) key).
Proof.
  revert st. induction n as [|n IH]; intros st Hwf; simpl; [done|].
  pose proof (bpe_round_wf st Hwf) as Hwf'.
  pose proof (bpe_round_count st Hwf) as Hc.
  pose proof (λ key, bpe_round_keeps st key Hwf) as Hk.
  destruct (bpe_round st) as [st' [|]]; simpl in *.
  - destruct (IH st' Hwf') as [Hc' Hk']. split; [lia | auto].
  - split; [lia | auto].
Qed.

(** C9: the number of tokens in the vocabulary never goes down in the
    merge rounds. One round leaves it unchanged or adds one token; a run of
    any number of rounds leaves at least as many tokens as it found, and
    every token it found is still there; counting a token with
    [hash_insert_or_increment] likewise adds at most one token and removes
    none. The tokens stay pairwise distinct, so the number of items is the
    number of distinct tokens. *)
Theorem vocabulary_never_shrinks st (num_merges : nat) (key : string) :
  ht_wf (tr_vocab st) →
  let vocab := tr_vocab st in
  (ht_tokens vocab ≤ ht_tokens (tr_vocab (bpe_round st).1)
   ≤ ht_tokens vocab + 1)
  ∧ ht_tokens vocab
    ≤ ht_tokens (tr_vocab (bpe_loop num_merges st))
  ∧ (∀ k, is_Some (hash_search vocab k) →
          is_Some (hash_search (tr_vocab (bpe_loop num_merges st)) k))
  ∧ (ht_tokens vocab
     ≤ ht_tokens (hash_insert_or_increment vocab key)
     ≤ ht_tokens vocab + 1)
  ∧ (∀ k, is_Some (hash_search vocab k) →
          is_Some (hash_search (hash_insert_or_increment vocab key) k))
  ∧ NoDup (it_key <$> ht_entries (tr_vocab (bpe_loop num_merges st)))
  ∧ NoDup (it_key <$> ht_entries (hash_insert_or_increment vocab key)).
Proof.
  intros Hwf vocab. destruct (bpe_loop_count num_merges st Hwf) as [Hc Hk].
  split; [by apply bpe_round_count|]. split; [done|]. split; [done|].
  split; [|split; [|split]].
  - rewrite ht_tokens_insert by done. destruct (hash_search _ _); lia.
  - intros k Hsome. rewrite hash_search_insert_or_increment by done.
    by case_decide.
  - by apply bpe_loop_wf.
  - by apply hash_insert_or_increment_wf.
Qed.

Lemma vocabulary_never_shrinks_witness :
  let st := initial_state false ("[C][C][C][N]" +:+ C.nl +:+ "[C][N]" +:+ C.nl) in
  ht_wf (tr_vocab st)
  ∧ ht_tokens (tr_vocab st) = 2
  ∧ ht_tokens (tr_vocab (bpe_loop 5 st)) = 5
  ∧ ht_tokens (tr_vocab st) ≤ ht_tokens (tr_vocab (bpe_loop 5 st)).
Proof.
  intros st.
  assert (ht_wf (tr_vocab st)) as Hwf by apply initial_state_wf.
  split_and!; [done | vm_compute; reflexivity | vm_compute; reflexivity |].
  exact (proj1 (proj2 (vocabulary_never_shrinks st 5 "[C]" Hwf))).
Defined.

(** *** Early termination *)





End TrainingFacts.

(** ** Numbers and streams *)

Section ScanFacts.

Implicit Types (s rest : string) (c : ascii) (n v : Z).

Lemma digit_char_spec d :
  0 ≤ d ≤ 9 →
  C.isdigit (C.digit_char d) = true ∧ C.digit_value (C.digit_char d) = d
  ∧ C.isspace (C.digit_char d) = false
  ∧ C.digit_char d ≠ "-"%char ∧ C.digit_char d ≠ "+"%char.
Proof.
  intros Hd.
  assert (d = 0 ∨ d = 1 ∨ d = 2 ∨ d = 3 ∨ d = 4 ∨ d = 5 ∨ d = 6 ∨ d = 7
          ∨ d = 8 ∨ d = 9) as Hcases by lia.
  repeat destruct Hcases as [-> | Hcases]; try subst d; done.
Qed.

Lemma scan_digits_print_digits fuel n acc v :
  0 ≤ n < 10 ^ Z.of_nat fuel →
  ∃ k, 0 ≤ k ∧
       C.scan_digits (C.print_digits fuel n acc) v = C.scan_digits acc (v * 10 ^ k + n).
Proof.
  revert n acc v. induction fuel as [|fuel IH]; intros n acc v Hn.
  - exists 0. split; [done|]. simpl in *. f_equal; lia.
  - simpl C.print_digits.
    assert (0 ≤ n mod 10 ≤ 9) as Hd by (pose proof (Z.mod_pos_bound n 10); lia).
    destruct (digit_char_spec _ Hd) as (Hdig & Hval & _).
    destruct (Z.ltb_spec n 10) as [Hlt | Hge].
    + exists 1. split; [done|]. simpl. rewrite Hdig, Hval.
      rewrite Z.mod_small by lia. f_equal; lia.
    + destruct (IH (n / 10) (String (C.digit_char (n mod 10)) acc) v) as (k & Hk & ->).
      { split; [apply Z.div_pos; lia|].
        apply Z.div_lt_upper_bound; [lia|].
        rewrite Nat2Z.inj_succ, Z.pow_succ_r in Hn by lia. lia. }
      exists (k + 1). split; [lia|]. simpl. rewrite Hdig, Hval. f_equal.
      rewrite Z.pow_add_r by lia. pose proof (Z.div_mod n 10 ltac:(lia)). lia.
Qed.

Lemma print_digits_head fuel n acc :
  0 ≤ n →
  ∃ d s, C.print_digits (S fuel) n acc = String d s ∧ C.isdigit d = true
         ∧ C.isspace d = false ∧ d ≠ "-"%char ∧ d ≠ "+"%char.
Proof.
  revert n acc. induction fuel as [|fuel IH]; intros n acc Hn.
  - assert (0 ≤ n mod 10 ≤ 9) as Hd by (pose proof (Z.mod_pos_bound n 10); lia).
    destruct (digit_char_spec _ Hd) as (? & _ & ? & ? & ?).
    simpl. destruct (n <? 10); eauto 10.
  - assert (0 ≤ n mod 10 ≤ 9) as Hd by (pose proof (Z.mod_pos_bound n 10); lia).
    destruct (digit_char_spec _ Hd) as (? & _ & ? & ? & ?).
    change (C.print_digits (S (S fuel)) n acc)
      with (let acc' := String (C.digit_char (n mod 10)) acc in
            if n <? 10 then acc' else C.print_digits (S fuel) (n / 10) acc').
    simpl. destruct (n <? 10); [eauto 10|]. apply IH. apply Z.div_pos; lia.
Qed.

Lemma print_digits_acc fuel n acc :
  C.print_digits fuel n acc = C.print_digits fuel n "" +:+ acc.
Proof.
  revert n acc. induction fuel as [|fuel IH]; intros n acc; simpl; [done|].
  destruct (n <? 10); [done|].
  rewrite IH. rewrite (IH _ (String _ "")). by rewrite app_assoc.
Qed.

Lemma print_digits_all (p : ascii → bool) fuel n acc :
  (∀ d, 0 ≤ d ≤ 9 → p (C.digit_char d) = true) → Str.all p acc = true →
  Str.all p (C.print_digits fuel n acc) = true.
Proof.
  intros Hp. revert n acc. induction fuel as [|fuel IH]; intros n acc Hacc; simpl; [done|].
  assert (Str.all p (String (C.digit_char (n mod 10)) acc) = true) as Hacc'.
  { simpl. rewrite Hacc, Hp; [done|]. pose proof (Z.mod_pos_bound n 10). lia. }
  destruct (n <? 10); [done | by apply IH].
Qed.

Lemma fuel_enough z :
  0 ≤ z → z < 10 ^ Z.of_nat (S (Z.to_nat (Z.log2 z))).
Proof.
  intros Hz. rewrite Nat2Z.inj_succ, Z2Nat.id by apply Z.log2_nonneg.
  destruct (decide (z = 0)) as [-> | Hne]; [done|].
  pose proof (Z.log2_spec z ltac:(lia)) as [_ Hlt].
  eapply Z.lt_le_trans; [exact Hlt|].
  apply Z.pow_le_mono_l. pose proof (Z.log2_nonneg z). lia.
Qed.

Lemma scan_digits_stop rest v : no_digit_ahead rest → C.scan_digits rest v = (v, rest).
Proof. destruct rest as [|c rest]; simpl; [done|]. by intros ->. Qed.

(** What ["%d"] prints, ["%d"] and [atoi] read back. *)
Lemma scan_int_print_int z rest :
  no_digit_ahead rest → C.scan_int (C.print_int z +:+ rest) = Some (z, rest).
Proof.
  intros Hrest.
  assert (∀ n, 0 ≤ n →
            let digits := C.print_digits (S (Z.to_nat (Z.log2 n))) n "" in
            C.scan_digits (digits +:+ rest) 0 = (n, rest)
            ∧ ∃ d s, digits = String d s ∧ C.isdigit d = true
                     ∧ C.isspace d = false ∧ d ≠ "-"%char ∧ d ≠ "+"%char)
    as Hdigits.
  { intros n Hn digits. split; [|by apply print_digits_head].
    subst digits. rewrite <- print_digits_acc.
    destruct (scan_digits_print_digits (S (Z.to_nat (Z.log2 n))) n rest 0)
      as (k & _ & ->); [split; [lia | by apply fuel_enough]|].
    rewrite scan_digits_stop by done. f_equal; lia. }
  unfold C.scan_int, C.print_int.
  destruct (Z.ltb_spec z 0) as [Hneg | Hpos].
  - destruct (Hdigits (- z) ltac:(lia)) as (Hscan & d & s & Heq & Hdig & _).
    rewrite app_cons. cbn [C.skip_space]. change (C.isspace "-") with false.
    cbn [C.scan_sign]. rewrite decide_True by done.
    rewrite Heq in *. rewrite app_cons in *. rewrite Hdig, Hscan.
    do 2 f_equal. lia.
  - destruct (Hdigits z ltac:(lia)) as (Hscan & d & s & Heq & Hdig & Hsp & Hm & Hp).
    rewrite Heq in *. rewrite app_cons in *. cbn [C.skip_space]. rewrite Hsp.
    cbn [C.scan_sign]. rewrite !decide_False by done.
    by rewrite Hdig, Hscan.
Qed.

Lemma atoi_print_int z rest :
  no_digit_ahead rest → C.atoi (C.print_int z +:+ rest) = z.
Proof. intros H. unfold C.atoi. by rewrite scan_int_print_int. Qed.

(** The first byte of a printed number is no white space. *)
Lemma print_int_head z :
  ∃ c s, C.print_int z = String c s ∧ C.isspace c = false
         ∧ (C.isdigit c = true ∨ c = "-"%char).
Proof.
  unfold C.print_int. destruct (Z.ltb_spec z 0) as [Hneg | Hpos].
  - eexists _, _. split; [done|]. split; [done | by right].
  - destruct (print_digits_head (Z.to_nat (Z.log2 z)) z "" Hpos)
      as (d & s & Heq & Hdig & Hsp & _).
    exists d, s. split; [done|]. split; [done | by left].
Qed.

End ScanFacts.

(** ** The text format *)

Section TextFormatFacts.

Implicit Types (s rest : string) (c : ascii).

Lemma skip_space_visible s : starts_visibly s → C.skip_space s = s.
Proof. destruct s as [|c s]; simpl; [done|]. by intros ->. Qed.

Lemma skip_space_nl s : C.skip_space (C.nl +:+ s) = C.skip_space s.
Proof. reflexivity. Qed.

Lemma skip_space_tab s : C.skip_space (C.tab +:+ s) = C.skip_space s.
Proof. reflexivity. Qed.

Lemma starts_visibly_app s rest : starts_visibly s → starts_visibly (s +:+ rest).
Proof. by destruct s. Qed.

Lemma scan_word_token width w c rest :
  Str.all (λ c, negb (C.isspace c)) w = true → (String.length w ≤ width)%nat →
  C.isspace c = true →
  C.scan_word width (w +:+ String c rest) = (w, String c rest).
Proof.
  intros Hw Hlen Hc. revert width Hlen.
  induction w as [|d w IH]; intros width Hlen.
  - rewrite app_nil_l. destruct width; simpl; [done | by rewrite Hc].
  - destruct width as [|width]; [simpl in Hlen; lia|].
    rewrite app_cons. simpl in *. apply andb_prop in Hw as [Hd Hw].
    apply negb_true_iff in Hd. rewrite Hd, IH; [done | done | lia].
Qed.

Lemma fgets_loop_line room m rest :
  Str.mem "010" m = false → (String.length m < room)%nat →
  C.fgets_loop room (m +:+ C.nl +:+ rest) = (m +:+ C.nl, rest).
Proof.
  intros Hm. revert room. induction m as [|d m IH]; intros room Hlen.
  - destruct room; [lia | done].
  - destruct room as [|room]; [lia|]. rewrite !app_cons. simpl in *.
    destruct (decide (d = "010"%char)) as [|Hd]; [done|].
    rewrite IH; [done | done | lia].
Qed.

Lemma fgets_line size m rest :
  Str.mem "010" m = false → Str.len m < size - 1 →
  C.fgets size (m +:+ C.nl +:+ rest) = Some (m +:+ C.nl, rest).
Proof.
  intros Hm Hlen. unfold C.fgets.
  rewrite fgets_loop_line by (unfold Str.len in *; done || lia).
  by destruct m.
Qed.

Lemma chomp_cons c d s : C.chomp (String c (String d s)) = String c (C.chomp (String d s)).
Proof. reflexivity. Qed.

Lemma chomp_line m : C.chomp (m +:+ C.nl) = m.
Proof.
  induction m as [|c m IH]; [done|]. rewrite app_cons.
  destruct (m +:+ C.nl) as [|d s] eqn:Heq; [by destruct m|].
  by rewrite chomp_cons, IH.
Qed.

Lemma read_merges_lines (merges : list string) rest :
  Forall text_merge merges →
  read_merges (length merges) (Str.cat ((λ m, m +:+ C.nl) <$> merges) +:+ rest)
  = Some (merges, rest).
Proof.
  induction merges as [|m merges IH]; intros Hall; [done|].
  apply Forall_cons in Hall as [[Hm Hlen] Hall].
  rewrite fmap_cons, cat_cons, !app_assoc. cbn [length read_merges].
  rewrite fgets_line by (done || lia). rewrite IH by done.
  by rewrite chomp_line.
Qed.

Lemma skip_to_marker_found fuel rest :
  skip_to_marker (S fuel) (VOCABULARY_MARKER +:+ C.nl +:+ rest) = rest.
Proof.
  cbn [skip_to_marker]. rewrite fgets_line by done.
  by rewrite decide_True.
Qed.

Lemma skip_to_marker_file rest :
  let file := VOCABULARY_MARKER +:+ C.nl +:+ rest in
  skip_to_marker (String.length file) file = rest.
Proof.
  intros file.
  assert (∃ fuel, String.length file = S fuel) as [fuel ->].
  { subst file. rewrite length_app. simpl. eauto. }
  apply skip_to_marker_found.
Qed.

(** The lines of the vocabulary part start with a visible byte. *)
Lemma vocab_lines_visible (items : list Ht_item) :
  Forall (λ item, text_token (it_key item)) items →
  C.skip_space (Str.cat (vocab_line <$> items)) = Str.cat (vocab_line <$> items).
Proof.
  destruct 1 as [|item items' [Hne [Hall _]] _]; [done|].
  apply skip_space_visible. rewrite fmap_cons, cat_cons. unfold vocab_line.
  do 2 apply starts_visibly_app.
  destruct (it_key item) as [|c key]; [done|]. simpl in *.
  apply andb_prop in Hall as [Hc _]. by apply negb_true_iff in Hc.
Qed.

Lemma read_vocabulary_lines (items : list Ht_item) fuel vocab :
  Forall (λ item, text_token (it_key item)) items → (length items ≤ fuel)%nat →
  read_vocabulary fuel (Str.cat (vocab_line <$> items)) vocab
  = fold_left (λ vocab item, ht_set vocab (it_key item) (it_count item) false)
              items vocab.
Proof.
  revert fuel vocab. induction items as [|item items IH]; intros fuel vocab Hall Hfuel.
  - by destruct fuel.
  - destruct fuel as [|fuel]; [simpl in Hfuel; lia|].
    pose proof (vocab_lines_visible _ Hall) as Hvis.
    apply Forall_cons in Hall as [(Hne & Hsp & Hlen) Hall].
    cbn [read_vocabulary]. rewrite Hvis. rewrite fmap_cons, cat_cons. cbn [fold_left].
    unfold vocab_line at 1. rewrite !app_assoc.
    unfold C.tab at 1. rewrite app_cons, app_nil_l.
    rewrite scan_word_token by (done || unfold Str.len in Hlen; lia).
    destruct (it_key item) as [|c key] eqn:Hkey; [done|]. rewrite <- Hkey.
    change (String "009" ?s) with (C.tab +:+ s).
    rewrite skip_space_tab.
    destruct (print_int_head (it_count item)) as (d & s & Hd & Hdsp & _).
    rewrite (skip_space_visible (C.print_int _ +:+ _))
      by (rewrite Hd, app_cons; done).
    rewrite scan_int_print_int by done.
    rewrite skip_space_nl, (vocab_lines_visible _ Hall).
    apply IH; [done | simpl in Hfuel; lia].
Qed.

(** *** Tables rebuilt item by item *)

Lemma fold_set_spec (items : list Ht_item) vocab bump :
  ht_wf vocab →
  let vocab' := fold_left (λ vocab item, ht_set vocab (it_key item) (it_count item) bump)
                          items vocab in
  ht_wf vocab'
  ∧ ht_to_map vocab'
    = fold_left (λ m item, <[it_key item := it_count item]> m) items (ht_to_map vocab).
Proof.
  revert vocab. induction items as [|item items IH]; intros vocab Hwf; [done|].
  cbn [fold_left]. rewrite <- ht_to_map_set with (b := bump) by done.
  by apply IH, ht_set_wf.
Qed.

Lemma fold_insert_list_to_map (items : list Ht_item) (m : gmap string Z) :
  NoDup (it_key <$> items) →
  fold_left (λ m item, <[it_key item := it_count item]> m) items m
  = list_to_map ((λ item, (it_key item, it_count item)) <$> items) ∪ m.
Proof.
  revert m. induction items as [|item items IH]; intros m Hnd.
  - simpl. by rewrite (left_id ∅ (∪)).
  - rewrite fmap_cons in Hnd. apply NoDup_cons in Hnd as [Hitem Hnd].
    cbn [fold_left]. rewrite IH by done. rewrite fmap_cons. cbn [list_to_map foldr].
    rewrite <- insert_union_l. symmetry. apply insert_union_r.
    apply not_elem_of_list_to_map_1. by rewrite <- list_fmap_compose.
Qed.

Lemma ht_to_map_create size : ht_to_map (ht_create size) = ∅.
Proof. unfold ht_to_map. by rewrite ht_create_entries. Qed.

Lemma hash_search_of_map ht key :
  ht_wf ht → hash_search ht key = mk_item key <$> ht_to_map ht !! key.
Proof.
  intros Hwf. rewrite ht_to_map_lookup by done.
  destruct (hash_search ht key) as [[k c]|] eqn:Hs; [|done].
  apply hash_search_Some in Hs as [_ Hk]; [|done]. simpl in *. by subst.
Qed.

(** Well-formed tables with the same map hold the same items. *)
Lemma ht_entries_of_map ht1 ht2 :
  ht_wf ht1 → ht_wf ht2 → ht_to_map ht1 = ht_to_map ht2 →
  ht_entries ht1 ≡ₚ ht_entries ht2.
Proof.
  intros Hwf1 Hwf2 Hmap.
  assert (∀ ht item, ht_wf ht →
            item ∈ ht_entries ht ↔ ht_to_map ht !! it_key item = Some (it_count item))
    as Hin.
  { intros ht [k c] Hwf. simpl. split.
    - intros Hi. rewrite ht_to_map_lookup by done.
      assert (hash_search ht k = Some (mk_item k c)) as ->; [|done].
      by apply hash_search_Some.
    - intros Hl.
      assert (hash_search ht k = Some (mk_item k c)) as Hs.
      { rewrite hash_search_of_map by done. by rewrite Hl. }
      by apply hash_search_Some in Hs as [? _]. }
  apply NoDup_Permutation.
  - eapply NoDup_fmap_1, Hwf1.
  - eapply NoDup_fmap_1, Hwf2.
  - intros item. by rewrite !Hin, Hmap.
Qed.

Lemma vocab_lines_length (items : list Ht_item) :
  (length items ≤ String.length (Str.cat (vocab_line <$> items)))%nat.
Proof.
  induction items as [|item items IH]; [done|].
  rewrite fmap_cons, cat_cons. unfold vocab_line at 1.
  rewrite !length_app. change (String.length C.nl) with 1%nat.
  cbn [length]. lia.
Qed.

(** What the loader makes of a file written by [save_vocabulary]. *)
Lemma load_vocabulary_text vocab merges :
  Forall (λ item, text_token (it_key item)) (ht_entries vocab) →
  text_merges merges →
  let file := vocabulary_text vocab merges in
  ∀ (fs : FileSystem) filename, fs !! filename = Some file →
    load_vocabulary fs filename
    = Some (fold_left (λ vocab item, ht_set vocab (it_key item) (it_count item) false)
                      (ht_entries vocab) (ht_create 100), merges).
Proof.
  intros Htokens [Hmerges Hfirst] file fs filename Hfile.
  unfold load_vocabulary. rewrite Hfile. subst file. unfold vocabulary_text.
  rewrite scan_int_print_int by done.
  destruct (Z.ltb_spec (Z.of_nat (length merges)) 0) as [? | _]; [lia|].
  rewrite skip_space_nl, Nat2Z.id.
  rewrite skip_space_visible.
  2:{ destruct merges as [|m merges'].
      - rewrite fmap_nil. change (Str.cat []) with "". rewrite app_nil_l.
        by apply starts_visibly_app.
      - rewrite fmap_cons, cat_cons. by do 3 apply starts_visibly_app. }
  rewrite read_merges_lines by done.
  rewrite skip_to_marker_file.
  by rewrite read_vocabulary_lines by (done || apply vocab_lines_length).
Qed.

(** C4 (amended): for every well-formed vocabulary table whose tokens are
    not empty, hold no white space and are at most 255 bytes long, and
    every merge list whose entries hold no newline and are shorter than 255
    bytes, the first of them starting with a visible byte, the file written
    by [save_vocabulary] is loaded by [load_vocabulary] as a table with
    the same count under every token (the same items, up to their order in
    the table) and the same merge list in the same order. *)
Theorem text_round_trip (fs : FileSystem) vocab (merges : list string) filename :
  ht_wf vocab →
  Forall (λ item, text_token (it_key item)) (ht_entries vocab) →
  text_merges merges →
  ∃ loaded,
    load_vocabulary (save_vocabulary fs vocab merges filename).1 filename
    = Some (loaded, merges)
    ∧ ht_to_map loaded = ht_to_map vocab
    ∧ ht_entries loaded ≡ₚ ht_entries vocab
    ∧ ∀ key, hash_search loaded key = hash_search vocab key.
Proof.
  intros Hwf Htokens Hmerges. eexists. split.
  { apply load_vocabulary_text; [done | done |]. simpl. apply lookup_insert_eq. }
  destruct (fold_set_spec (ht_entries vocab) (ht_create 100) false) as [Hwf' Hmap].
  { apply ht_create_wf. lia. }
  assert (ht_to_map
            (fold_left (λ vocab item, ht_set vocab (it_key item) (it_count item) false)
                       (ht_entries vocab) (ht_create 100))
          = ht_to_map vocab) as Heq.
  { rewrite Hmap, ht_to_map_create, fold_insert_list_to_map by apply Hwf.
    by rewrite (right_id ∅ (∪)). }
  split; [done|].
  assert (ht_entries
            (fold_left (λ vocab item, ht_set vocab (it_key item) (it_count item) false)
                       (ht_entries vocab) (ht_create 100))
          ≡ₚ ht_entries vocab) as Hp by (by apply ht_entries_of_map).
  split; [done|]. intros key. by apply hash_search_ext.
Qed.

Lemma text_round_trip_witness :
  let st := train_corpus false ("[C][C][C][N]" +:+ C.nl +:+ "[C][N]" +:+ C.nl) 2 in
  ht_wf (tr_vocab st)
  ∧ Forall (λ item, text_token (it_key item)) (ht_entries (tr_vocab st))
  ∧ text_merges (tr_merges st)
  ∧ tr_merges st = ["[C] [C]"; "[C] [N]"]
  ∧ ∃ loaded,
      load_vocabulary (save_vocabulary ∅ (tr_vocab st) (tr_merges st) "vocab_2.txt").1
                      "vocab_2.txt" = Some (loaded, tr_merges st)
      ∧ ht_to_map loaded = ht_to_map (tr_vocab st).
Proof.
  intros st.
  assert (ht_wf (tr_vocab st)) as Hwf by apply train_corpus_wf.
  assert (Forall (λ item, text_token (it_key item)) (ht_entries (tr_vocab st)))
    as Htokens.
  { vm_compute ht_entries. repeat constructor; done. }
  assert (tr_merges st = ["[C] [C]"; "[C] [N]"]) as Hm by (vm_compute; reflexivity).
  assert (text_merges (tr_merges st)) as Hmerges.
  { rewrite Hm. repeat constructor; done. }
  destruct (text_round_trip ∅ (tr_vocab st) (tr_merges st) "vocab_2.txt"
              Hwf Htokens Hmerges) as (loaded & Hload & Hmap & _).
  split; [exact Hwf|]. split; [exact Htokens|]. split; [exact Hmerges|].
  split; [exact Hm|]. exists loaded. split; [exact Hload | exact Hmap].
Defined.

(** C4 as stated fails on tables and merge lists the training produces.
    A token with a space (the SELFIES pattern accepts one inside brackets)
    is read back only up to the space, which ends the reading of the
    vocabulary. A merge of 255 bytes is split over two reads by [fgets],
    so the merge after it comes back empty. *)
Lemma text_round_trip_fails :
  (let vocab := tr_vocab (initial_state false ("[C O][N]" +:+ C.nl)) in
   ht_entries vocab = [mk_item "[N]" 1; mk_item "[C O]" 1]
   ∧ (λ r, (ht_entries r.1, r.2))
       <$> load_vocabulary (save_vocabulary ∅ vocab [] "vocab.txt").1 "vocab.txt"
     = Some ([mk_item "[N]" 1], []))
  ∧ (let long := "[" +:+ Str.cat (replicate 300 "C") +:+ "]" in
     let st := train_corpus false ("[C]" +:+ long +:+ "[N]" +:+ C.nl) 2 in
     let key := pair_key "[C]" long in
     tr_merges st = [key; key]
     ∧ snd <$> load_vocabulary
                 (save_vocabulary ∅ (tr_vocab st) (tr_merges st) "vocab.txt").1
                 "vocab.txt"
       = Some [key; ""]).
Proof. vm_compute. done. Qed.

End TextFormatFacts.

(** C3 (the code at a failing input): a vocabulary file that ends after
    its merge lines, without the marker line, is not refused. The loader
    returns a table, which holds no token at all, together with the merges
    it read. *)
Theorem load_vocabulary_without_marker :
  let file := "1" +:+ C.nl +:+ "[C] [C]" +:+ C.nl
              +:+ "[C]" +:+ C.tab +:+ "3" +:+ C.nl
              +:+ "[C][C]" +:+ C.tab +:+ "2" +:+ C.nl in
  (λ r, (ht_entries r.1, r.2)) <$> load_vocabulary {[ "vocab.txt" := file ]} "vocab.txt"
  = Some ([], ["[C] [C]"]).
Proof. vm_compute. reflexivity. Qed.

(** The loader has no failure exit after the merges are read. *)
Lemma load_vocabulary_succeeds (fs : FileSystem) filename file n rest merges rest' :
  fs !! filename = Some file → C.scan_int file = Some (n, rest) → 0 ≤ n →
  read_merges (Z.to_nat n) (C.skip_space rest) = Some (merges, rest') →
  ∃ vocab, load_vocabulary fs filename = Some (vocab, merges).
Proof.
  intros Hfile Hscan Hn Hmerges. unfold load_vocabulary.
  rewrite Hfile, Hscan. destruct (Z.ltb_spec n 0) as [? | _]; [lia|].
  rewrite Hmerges. eauto.
Qed.

(** ** The JSON format *)

Section JsonFormatFacts.

Implicit Types (s rest : string) (c : ascii).

Lemma span_until_app stop w c rest :
  Str.all (λ c, negb (stop c)) w = true → stop c = true →
  C.span_until stop (w +:+ String c rest) = w
  ∧ C.skip_until stop (w +:+ String c rest) = String c rest.
Proof.
  intros Hw Hc. induction w as [|d w IH].
  - rewrite app_nil_l. simpl. by rewrite Hc.
  - rewrite app_cons. simpl in *. apply andb_prop in Hw as [Hd Hw].
    apply negb_true_iff in Hd. rewrite Hd. destruct (IH Hw) as [-> ->]. done.
Qed.

Lemma skip_until_all stop w rest :
  Str.all (λ c, negb (stop c)) w = true →
  C.skip_until stop (w +:+ rest) = C.skip_until stop rest.
Proof.
  intros Hw. induction w as [|d w IH]; [done|].
  rewrite app_cons. simpl in *. apply andb_prop in Hw as [Hd Hw].
  apply negb_true_iff in Hd. by rewrite Hd, IH.
Qed.

Lemma print_int_all (p : ascii → bool) z :
  (∀ d, 0 ≤ d ≤ 9 → p (C.digit_char d) = true) → p "-"%char = true →
  Str.all p (C.print_int z) = true.
Proof.
  intros Hd Hm. unfold C.print_int. destruct (z <? 0).
  - cbn [Str.all]. rewrite Hm. by apply print_digits_all.
  - by apply print_digits_all.
Qed.

Lemma digit_char_cases (p : ascii → bool) :
  p "0"%char = true → p "1"%char = true → p "2"%char = true → p "3"%char = true →
  p "4"%char = true → p "5"%char = true → p "6"%char = true → p "7"%char = true →
  p "8"%char = true → p "9"%char = true →
  ∀ d, 0 ≤ d ≤ 9 → p (C.digit_char d) = true.
Proof.
  intros ?????????? d Hd.
  assert (d = 0 ∨ d = 1 ∨ d = 2 ∨ d = 3 ∨ d = 4 ∨ d = 5 ∨ d = 6 ∨ d = 7
          ∨ d = 8 ∨ d = 9) as Hcases by lia.
  repeat destruct Hcases as [-> | Hcases]; try subst d; done.
Qed.

Lemma json_plain_no_quote t :
  json_plain t → Str.all (λ c, negb (is_quote c)) t = true.
Proof.
  unfold json_plain. induction t as [|c t IH]; [done|]. simpl.
  intros [Hc Ht]%andb_prop. rewrite (IH Ht), andb_true_r.
  unfold is_quote. case_bool_decide as Hq; [|done]. by subst c.
Qed.

Lemma json_plain_escape t : json_plain t → json_escape_string t = t.
Proof.
  unfold json_plain. induction t as [|c t IH]; [done|]. simpl.
  intros [Hc Ht]%andb_prop. rewrite (IH Ht).
  apply negb_true_iff in Hc. unfold json_escaped in Hc.
  apply bool_decide_eq_false in Hc.
  repeat (case_decide; [exfalso; apply Hc; subst c; set_solver|]). done.
Qed.

Lemma json_line_eq key v comma rest :
  C.nl +:+ json_line key v comma +:+ rest
  = C.nl +:+ "  " +:+ C.dq
    +:+ (key +:+ String "034" (": " +:+ C.print_int v +:+ line_tail comma rest)).
Proof.
  unfold json_line, line_tail, C.dq. by rewrite !app_assoc.
Qed.

Lemma json_key_line key v tail :
  Str.all (λ c, negb (is_quote c)) key = true →
  json_key (key +:+ String "034" (": " +:+ C.print_int v +:+ tail))
  = Some (key, C.print_int v +:+ tail).
Proof.
  intros Hkey. unfold json_key.
  destruct (span_until_app is_quote key "034"
              (": " +:+ C.print_int v +:+ tail) Hkey eq_refl) as [-> ->].
  rewrite !app_cons, app_nil_l. cbn [C.skip_until].
  change (is_colon ":"%char) with true.
  cbv iota. cbn [C.skip_space]. change (C.isspace " "%char) with true.
  cbv iota. destruct (print_int_head v) as (d & s & Hd & Hsp & _).
  rewrite Hd, app_cons. cbn [C.skip_space]. by rewrite Hsp.
Qed.

Lemma line_tail_head comma rest :
  ∃ c r, line_tail comma rest = String c r
         ∧ C.isdigit c = false ∧ is_number_char c = false.
Proof. destruct comma; eexists _, _; (split; [reflexivity | done]). Qed.

Lemma skip_number tail v :
  (∃ c r, tail = String c r ∧ is_number_char c = false) →
  C.skip_until (λ c, negb (is_number_char c)) (C.print_int v +:+ tail) = tail.
Proof.
  intros (c & r & -> & Hc). rewrite skip_until_all.
  - simpl. by rewrite Hc.
  - apply (print_int_all (λ c, negb (negb (is_number_char c)))); [|done].
    by apply (digit_char_cases (λ c, negb (negb (is_number_char c)))).
Qed.

Lemma skip_to_next_pair_number comma rest v :
  skip_to_next_pair (C.print_int v +:+ line_tail comma rest)
  = skip_to_next_pair (line_tail comma rest).
Proof.
  unfold skip_to_next_pair. rewrite skip_until_all; [done|].
  apply (print_int_all (λ c, negb (is_pair_end c))); [|done].
  by apply (digit_char_cases (λ c, negb (is_pair_end c))).
Qed.

Lemma skip_to_next_pair_comma rest :
  skip_to_next_pair (line_tail true rest) = C.nl +:+ rest.
Proof. reflexivity. Qed.

Lemma skip_to_next_pair_close rest :
  skip_to_next_pair (line_tail false ("}" +:+ rest)) = "}" +:+ rest.
Proof. reflexivity. Qed.

Lemma skip_space_line_start rest :
  C.skip_space (C.nl +:+ "  " +:+ C.dq +:+ rest) = String "034" rest.
Proof. reflexivity. Qed.

Lemma json_vocab_value_number key v comma rest (st : json_state) :
  json_vocab_value key (C.print_int v +:+ line_tail comma rest) st
  = Some ((ht_link st.1 key v false, st.2), line_tail comma rest).
Proof.
  destruct (line_tail_head comma rest) as (c & r & Htail & Hdig & Hnum).
  pose proof (atoi_print_int v (line_tail comma rest)) as Hatoi.
  pose proof (skip_number (line_tail comma rest) v) as Hskip.
  destruct (print_int_head v) as (d & s & Hd & _ & Hstart).
  unfold json_vocab_value. rewrite Hd in *. rewrite (app_cons d s) in *.
  assert (is_quote d = false ∧ is_number_start d = true) as [-> ->].
  { unfold is_number_start. destruct Hstart as [Hdg | ->]; [|done].
    unfold C.isdigit in *. rewrite Hdg. split; [|done].
    unfold is_quote. case_bool_decide; [by subst d | done]. }
  rewrite Hatoi by (by rewrite Htail). rewrite Hskip by eauto. done.
Qed.

(** One line with a comma in the vocabulary loop. *)
Lemma json_vocab_loop_line fuel key v rest (st : json_state) :
  Str.all (λ c, negb (is_quote c)) key = true →
  json_vocab_loop (S fuel) (C.nl +:+ json_line key v true +:+ rest) st
  = json_vocab_loop fuel (C.nl +:+ rest) (ht_link st.1 key v false, st.2).
Proof.
  intros Hkey. rewrite json_line_eq. cbn [json_vocab_loop].
  rewrite skip_space_line_start.
  change (bool_decide ("034"%char = "}"%char)) with false.
  change (is_quote "034"%char) with true. cbv iota.
  rewrite json_key_line by done. rewrite json_vocab_value_number.
  by rewrite skip_to_next_pair_comma.
Qed.

Lemma json_vocab_loop_close fuel rest (st : json_state) :
  json_vocab_loop fuel ("}" +:+ rest) st = st
  ∧ json_vocab_loop fuel (C.nl +:+ "}" +:+ rest) st = st.
Proof. by destruct fuel. Qed.

(** The last line, without a comma, and the closing brace. *)
Lemma json_vocab_loop_last fuel key v rest (st : json_state) :
  Str.all (λ c, negb (is_quote c)) key = true →
  json_vocab_loop (S fuel) (C.nl +:+ json_line key v false +:+ "}" +:+ rest) st
  = (ht_link st.1 key v false, st.2).
Proof.
  intros Hkey. rewrite json_line_eq. cbn [json_vocab_loop].
  rewrite skip_space_line_start.
  change (bool_decide ("034"%char = "}"%char)) with false.
  change (is_quote "034"%char) with true. cbv iota.
  rewrite json_key_line by done. rewrite json_vocab_value_number.
  rewrite skip_to_next_pair_close. apply json_vocab_loop_close.
Qed.

(** The same two steps in the frequency loop. *)
Lemma json_freq_loop_line fuel key v rest vocab :
  Str.all (λ c, negb (is_quote c)) key = true →
  json_freq_loop (S fuel) (C.nl +:+ json_line key v true +:+ rest) vocab
  = json_freq_loop fuel (C.nl +:+ rest) (ht_update vocab key v).
Proof.
  intros Hkey. rewrite json_line_eq. cbn [json_freq_loop].
  rewrite skip_space_line_start.
  change (bool_decide ("034"%char = "}"%char)) with false.
  change (is_quote "034"%char) with true. cbv iota.
  rewrite json_key_line by done.
  rewrite skip_to_next_pair_number, skip_to_next_pair_comma.
  pose proof (atoi_print_int v (line_tail true rest)) as Hatoi.
  destruct (print_int_head v) as (d & s & Hd & _ & Hstart).
  rewrite Hd in *. rewrite (app_cons d s) in *. cbv beta iota zeta.
  assert (is_number_start d = true) as Hnum.
  { unfold is_number_start. destruct Hstart as [Hdg | ->]; [|done].
    unfold C.isdigit in *. by rewrite Hdg. }
  rewrite Hnum.
  by rewrite Hatoi.
Qed.

Lemma json_freq_loop_close fuel rest vocab :
  json_freq_loop fuel ("}" +:+ rest) vocab = vocab
  ∧ json_freq_loop fuel (C.nl +:+ "}" +:+ rest) vocab = vocab.
Proof. by destruct fuel. Qed.

Lemma json_freq_loop_last fuel key v rest vocab :
  Str.all (λ c, negb (is_quote c)) key = true →
  json_freq_loop (S fuel) (C.nl +:+ json_line key v false +:+ "}" +:+ rest) vocab
  = ht_update vocab key v.
Proof.
  intros Hkey. rewrite json_line_eq. cbn [json_freq_loop].
  rewrite skip_space_line_start.
  change (bool_decide ("034"%char = "}"%char)) with false.
  change (is_quote "034"%char) with true. cbv iota.
  rewrite json_key_line by done.
  rewrite skip_to_next_pair_number, skip_to_next_pair_close.
  pose proof (atoi_print_int v (line_tail false ("}" +:+ rest))) as Hatoi.
  destruct (print_int_head v) as (d & s & Hd & _ & Hstart).
  rewrite Hd in *. rewrite (app_cons d s) in *. cbv beta iota zeta.
  assert (is_number_start d = true) as Hnum.
  { unfold is_number_start. destruct Hstart as [Hdg | ->]; [|done].
    unfold C.isdigit in *. by rewrite Hdg. }
  rewrite Hnum.
  rewrite Hatoi by done. apply json_freq_loop_close.
Qed.

(** *** The loops over a whole file *)

Lemma json_vocab_loop_specials (tokens : list string) index fuel rest (st : json_state) :
  Forall (λ t, Str.all (λ c, negb (is_quote c)) t = true) tokens →
  json_vocab_loop (length tokens + fuel) (C.nl +:+ special_lines tokens index true +:+ rest) st
  = json_vocab_loop fuel (C.nl +:+ rest) (link_pairs (numbered tokens index) st.1, st.2).
Proof.
  revert index st. induction tokens as [|t tokens IH]; intros index st Hall.
  - simpl. rewrite app_nil_l. by destruct st.
  - apply Forall_cons in Hall as [Ht Hall].
    cbn [special_lines length Nat.add numbered].
    assert (match tokens with [] => true | _ :: _ => true end = true) as ->
      by (by destruct tokens).
    rewrite app_assoc, json_vocab_loop_line by done.
    by rewrite IH.
Qed.

Lemma token_lines_cons value item items index rest :
  json_plain (it_key item) →
  token_lines value (item :: items) index +:+ rest
  = json_line (it_key item) (value item index)
              (match items with [] => false | _ => true end)
    +:+ token_lines value items (index + 1) +:+ rest.
Proof.
  intros Hplain. cbn [token_lines]. by rewrite json_plain_escape, app_assoc.
Qed.

Lemma json_vocab_loop_tokens (items : list Ht_item) index fuel rest (st : json_state) :
  Forall (λ item, json_plain (it_key item)) items → (length items ≤ fuel)%nat →
  json_vocab_loop fuel
    (C.nl +:+ token_lines (λ _ index, index) items index +:+ "}" +:+ rest) st
  = (link_pairs (numbered (it_key <$> items) index) st.1, st.2).
Proof.
  revert index fuel st. induction items as [|item items IH]; intros index fuel st Hall Hfuel.
  - cbn [token_lines]. rewrite app_nil_l.
    rewrite (proj2 (json_vocab_loop_close _ _ _)). by destruct st.
  - apply Forall_cons in Hall as [Hplain Hall].
    destruct fuel as [|fuel]; [simpl in Hfuel; lia|].
    rewrite token_lines_cons by done. rewrite fmap_cons. cbn [numbered].
    destruct items as [|item' items].
    + cbn [token_lines]. rewrite app_nil_l.
      by rewrite json_vocab_loop_last by (by apply json_plain_no_quote).
    + rewrite json_vocab_loop_line by (by apply json_plain_no_quote).
      rewrite IH; [done | done | simpl in *; lia].
Qed.

Lemma json_freq_loop_tokens (items : list Ht_item) index fuel rest vocab :
  Forall (λ item, json_plain (it_key item)) items → (length items ≤ fuel)%nat →
  json_freq_loop fuel
    (C.nl +:+ token_lines (λ item _, it_count item) items index +:+ "}" +:+ rest) vocab
  = update_pairs (item_pair <$> items) vocab.
Proof.
  revert index fuel vocab.
  induction items as [|item items IH]; intros index fuel vocab Hall Hfuel.
  - cbn [token_lines]. rewrite app_nil_l.
    by rewrite (proj2 (json_freq_loop_close _ _ _)).
  - apply Forall_cons in Hall as [Hplain Hall].
    destruct fuel as [|fuel]; [simpl in Hfuel; lia|].
    rewrite token_lines_cons by done. rewrite fmap_cons.
    destruct items as [|item' items].
    + cbn [token_lines]. rewrite app_nil_l.
      by rewrite json_freq_loop_last by (by apply json_plain_no_quote).
    + rewrite json_freq_loop_line by (by apply json_plain_no_quote).
      rewrite IH; [done | done | simpl in *; lia].
Qed.

Lemma token_lines_length value (items : list Ht_item) index :
  (length items ≤ String.length (token_lines value items index))%nat.
Proof.
  revert index. induction items as [|item items IH]; intros index; [done|].
  cbn [token_lines length]. rewrite length_app. unfold json_line at 1.
  rewrite length_app. specialize (IH (index + 1)). simpl. lia.
Qed.

Lemma special_lines_length (tokens : list string) index last_comma :
  (length tokens ≤ String.length (special_lines tokens index last_comma))%nat.
Proof.
  revert index. induction tokens as [|t tokens IH]; intros index; [done|].
  cbn [special_lines length]. rewrite length_app. unfold json_line at 1.
  rewrite length_app. specialize (IH (index + 1)). simpl. lia.
Qed.

(** *** The table the loader builds *)

Lemma numbered_keys (keys : list string) index : (numbered keys index).*1 = keys.
Proof.
  revert index. induction keys as [|key keys IH]; intros index; [done|].
  cbn [numbered]. rewrite fmap_cons. by rewrite IH.
Qed.

Lemma hash_search_map_None ht key :
  ht_wf ht → ht_to_map ht !! key = None → hash_search ht key = None.
Proof.
  intros Hwf. rewrite ht_to_map_lookup by done. by destruct (hash_search ht key).
Qed.

Lemma link_pairs_cons k v (kvs : list (string * Z)) ht :
  link_pairs ((k, v) :: kvs) ht = link_pairs kvs (ht_link ht k v false).
Proof. reflexivity. Qed.

Lemma update_pairs_cons k v (kvs : list (string * Z)) ht :
  update_pairs ((k, v) :: kvs) ht = update_pairs kvs (ht_update ht k v).
Proof. reflexivity. Qed.

Lemma link_pairs_spec (kvs : list (string * Z)) ht :
  ht_wf ht → NoDup kvs.*1 → (∀ k, k ∈ kvs.*1 → ht_to_map ht !! k = None) →
  ht_wf (link_pairs kvs ht)
  ∧ ht_to_map (link_pairs kvs ht) = list_to_map kvs ∪ ht_to_map ht.
Proof.
  revert ht. induction kvs as [|[k v] kvs IH]; intros ht Hwf Hnd Hfresh.
  - split; [done|]. simpl. by rewrite (left_id ∅ (∪)).
  - rewrite fmap_cons in Hnd, Hfresh. apply NoDup_cons in Hnd as [Hk Hnd].
    assert (hash_search ht k = None) as Hs.
    { apply hash_search_map_None; [done|]. apply Hfresh. left. }
    assert (ht_link ht k v false = ht_set ht k v false) as Hlink
      by (unfold ht_set; by rewrite Hs).
    rewrite link_pairs_cons, Hlink.
    destruct (IH (ht_set ht k v false)) as [Hwf' Hmap]; [by apply ht_set_wf | done | |].
    { intros k' Hk'. rewrite ht_to_map_set by done.
      rewrite lookup_insert_ne by (by intros ->). apply Hfresh. by right. }
    split; [done|]. rewrite Hmap, ht_to_map_set by done. cbn [list_to_map foldr].
    rewrite <- insert_union_l. symmetry. apply insert_union_r.
    by apply not_elem_of_list_to_map_1.
Qed.

Lemma update_pairs_spec (kvs : list (string * Z)) ht :
  ht_wf ht → NoDup kvs.*1 → (∀ k, k ∈ kvs.*1 → is_Some (ht_to_map ht !! k)) →
  ht_wf (update_pairs kvs ht)
  ∧ ht_to_map (update_pairs kvs ht) = list_to_map kvs ∪ ht_to_map ht.
Proof.
  revert ht. induction kvs as [|[k v] kvs IH]; intros ht Hwf Hnd Hthere.
  - split; [done|]. simpl. by rewrite (left_id ∅ (∪)).
  - rewrite fmap_cons in Hnd, Hthere. apply NoDup_cons in Hnd as [Hk Hnd].
    assert (ht_update ht k v = ht_set ht k v false) as Hupd.
    { unfold ht_update, ht_set. destruct (hash_search ht k) eqn:Hs; [done|].
      destruct (Hthere k) as [c Hc]; [left|].
      rewrite ht_to_map_lookup, Hs in Hc by done. done. }
    rewrite update_pairs_cons, Hupd.
    destruct (IH (ht_set ht k v false)) as [Hwf' Hmap]; [by apply ht_set_wf | done | |].
    { intros k' Hk'. rewrite ht_to_map_set by done.
      rewrite lookup_insert_ne by (by intros ->). apply Hthere. by right. }
    split; [done|]. rewrite Hmap, ht_to_map_set by done. cbn [list_to_map foldr].
    rewrite <- insert_union_l. symmetry. apply insert_union_r.
    by apply not_elem_of_list_to_map_1.
Qed.

Lemma special_map_lookup key :
  if is_special key then is_Some (special_map !! key) else special_map !! key = None.
Proof.
  unfold is_special. case_bool_decide as Hs.
  - unfold special_tokens in Hs.
    repeat (apply elem_of_cons in Hs as [-> | Hs]; [by eexists|]).
    by apply elem_of_nil in Hs.
  - by apply not_elem_of_list_to_map_1.
Qed.

Lemma special_map_numbered : list_to_map (numbered special_tokens 0) = special_map.
Proof. reflexivity. Qed.

Lemma list_to_map_item_cons item (items : list Ht_item) :
  (list_to_map (item_pair <$> item :: items) : gmap string Z)
  = <[it_key item := it_count item]> (list_to_map (item_pair <$> items)).
Proof. reflexivity. Qed.

(** The map of the items written to the JSON files. *)
Lemma json_tokens_lookup vocab key :
  (list_to_map (item_pair <$> json_tokens vocab) : gmap string Z) !! key
  = if is_special key then None else ht_to_map vocab !! key.
Proof.
  unfold json_tokens, ht_to_map. change (λ item, (it_key item, it_count item)) with item_pair.
  induction (ht_entries vocab) as [|item items IH].
  - simpl. rewrite lookup_empty. by destruct (is_special key).
  - rewrite filter_cons, (list_to_map_item_cons item items).
    destruct (decide (it_key item = key)) as [<- | Hne].
    + rewrite lookup_insert_eq. case_decide as Hsp.
      * by rewrite Hsp, list_to_map_item_cons, lookup_insert_eq.
      * apply not_false_iff_true in Hsp. rewrite IH. by rewrite Hsp.
    + rewrite lookup_insert_ne by done. case_decide as Hsp; [|done].
      by rewrite list_to_map_item_cons, lookup_insert_ne.
Qed.

Lemma json_tokens_keys vocab :
  ht_wf vocab →
  NoDup (it_key <$> json_tokens vocab)
  ∧ ∀ k, k ∈ it_key <$> json_tokens vocab → is_special k = false.
Proof.
  intros Hwf. split.
  - eapply sublist_NoDup; [apply Hwf|].
    unfold json_tokens. apply fmap_sublist, sublist_filter.
  - intros k (item & -> & Hin)%list_elem_of_fmap.
    by apply list_elem_of_filter in Hin as [? _].
Qed.

(** *** Loading what was saved *)

Lemma load_vocabulary_json_content vocab (merges : list string) :
  ht_wf vocab →
  Forall (λ item, json_plain (it_key item)) (json_tokens vocab) →
  let content := vocabulary_json vocab merges in
  json_vocab_loop (String.length content) (skip_open_brace content) (ht_create 100, [])
  = (link_pairs (numbered (it_key <$> json_tokens vocab) 5)
       (link_pairs (numbered special_tokens 0) (ht_create 100)), []).
Proof.
  intros Hwf Hplain content. subst content. unfold vocabulary_json.
  assert ((0 <? ht_size vocab) = true) as ->.
  { apply Z.ltb_lt. apply Hwf. }
  cbn [orb].
  change (skip_open_brace ("{" +:+ ?s)) with s.
  pose proof (special_lines_length special_tokens 0 true) as Hs.
  pose proof (token_lines_length (λ _ index, index) (json_tokens vocab) 5) as Ht.
  assert (∃ f, String.length
                 ("{" +:+ C.nl +:+ special_lines special_tokens 0 true
                  +:+ token_lines (λ _ index, index) (json_tokens vocab) 5
                  +:+ "}" +:+ C.nl)
               = (length special_tokens + f)%nat
               ∧ (length (json_tokens vocab) ≤ f)%nat) as (f & -> & Hf).
  { rewrite !length_app.
    exists (String.length (special_lines special_tokens 0 true)
            - length special_tokens
            + String.length (token_lines (λ _ index, index) (json_tokens vocab) 5)
            + 4)%nat.
    change (String.length "{") with 1%nat. change (String.length C.nl) with 1%nat.
    change (String.length "}") with 1%nat. lia. }
  rewrite json_vocab_loop_specials by (repeat constructor).
  by rewrite json_vocab_loop_tokens.
Qed.

Lemma load_frequency_json_content vocab loaded :
  Forall (λ item, json_plain (it_key item)) (json_tokens vocab) →
  let content := frequency_json vocab in
  json_freq_loop (String.length content) (skip_open_brace content) loaded
  = update_pairs (item_pair <$> json_tokens vocab) loaded.
Proof.
  intros Hplain content. subst content. unfold frequency_json.
  change (skip_open_brace ("{" +:+ ?s)) with s.
  apply json_freq_loop_tokens; [done|].
  pose proof (token_lines_length (λ item _, it_count item) (json_tokens vocab) 5).
  rewrite !length_app. lia.
Qed.

(** The table the loader builds from the two files of a vocabulary. *)
Lemma loaded_json_table vocab :
  ht_wf vocab →
  let loaded :=
    update_pairs (item_pair <$> json_tokens vocab)
      (link_pairs (numbered (it_key <$> json_tokens vocab) 5)
         (link_pairs (numbered special_tokens 0) (ht_create 100))) in
  ht_wf loaded ∧ ht_to_map loaded = special_map ∪ ht_to_map vocab.
Proof.
  intros Hwf. destruct (json_tokens_keys vocab Hwf) as [Hnd Hplainkeys].
  destruct (link_pairs_spec (numbered special_tokens 0) (ht_create 100))
    as [Hwf1 Hmap1].
  { apply ht_create_wf. lia. }
  { rewrite numbered_keys. apply (bool_decide_unpack _). by vm_compute. }
  { intros k _. by rewrite ht_to_map_create, lookup_empty. }
  rewrite ht_to_map_create, (right_id ∅ (∪)), special_map_numbered in Hmap1.
  destruct (link_pairs_spec (numbered (it_key <$> json_tokens vocab) 5)
              (link_pairs (numbered special_tokens 0) (ht_create 100)))
    as [Hwf2 Hmap2]; [done | by rewrite numbered_keys | |].
  { intros k Hk. rewrite numbered_keys in Hk. rewrite Hmap1.
    pose proof (special_map_lookup k) as Hsp. by rewrite (Hplainkeys k Hk) in Hsp. }
  destruct (update_pairs_spec (item_pair <$> json_tokens vocab)
              (link_pairs (numbered (it_key <$> json_tokens vocab) 5)
                 (link_pairs (numbered special_tokens 0) (ht_create 100))))
    as [Hwf3 Hmap3]; [done | | |].
  { by rewrite <- list_fmap_compose. }
  { intros k Hk. rewrite <- list_fmap_compose in Hk. rewrite Hmap2.
    apply lookup_union_is_Some. left.
    apply not_eq_None_Some. intros Hnone.
    apply not_elem_of_list_to_map in Hnone. by rewrite numbered_keys in Hnone. }
  intros loaded. split; [done|]. subst loaded. rewrite Hmap3, Hmap2, Hmap1.
  apply map_eq. intros k. rewrite !lookup_union, json_tokens_lookup.
  pose proof (special_map_lookup k) as Hsp.
  destruct (is_special k) eqn:Hspecial.
  - destruct Hsp as [i Hi]. rewrite Hi.
    assert ((list_to_map (numbered (it_key <$> json_tokens vocab) 5)
             : gmap string Z) !! k = None) as ->.
    { apply not_elem_of_list_to_map_1. rewrite numbered_keys. intros Hk.
      apply Hplainkeys in Hk. congruence. }
    by destruct (ht_to_map vocab !! k).
  - rewrite Hsp.
    destruct (ht_to_map vocab !! k) as [c|] eqn:Hv.
    { by destruct ((list_to_map (numbered (it_key <$> json_tokens vocab) 5)
                    : gmap string Z) !! k). }
    assert ((list_to_map (numbered (it_key <$> json_tokens vocab) 5)
             : gmap string Z) !! k = None) as ->; [|done].
    apply not_elem_of_list_to_map_1. rewrite numbered_keys.
    intros (item & -> & Hin)%list_elem_of_fmap.
    assert ((list_to_map (item_pair <$> json_tokens vocab) : gmap string Z)
              !! it_key item = None) as Hnone
      by (by rewrite json_tokens_lookup, Hspecial).
    apply not_elem_of_list_to_map in Hnone. apply Hnone.
    rewrite <- list_fmap_compose. by apply (list_elem_of_fmap_2 it_key).
Qed.

Lemma json_filenames base :
  Str.len base < 246 → C.cut_at ".json" (base +:+ ".json") = base →
  json_vocab_filename base = base +:+ ".json"
  ∧ json_freq_filename base = base +:+ "_freq.json"
  ∧ freq_filename_of (json_vocab_filename base) = json_freq_filename base
  ∧ json_freq_filename base ≠ json_vocab_filename base.
Proof.
  intros Hlen Hcut.
  assert (json_vocab_filename base = base +:+ ".json") as Hv.
  { apply snprintf256_fits. rewrite len_app. change (Str.len ".json") with 5. lia. }
  assert (json_freq_filename base = base +:+ "_freq.json") as Hf.
  { apply snprintf256_fits. rewrite len_app.
    change (Str.len "_freq.json") with 10. lia. }
  split; [done|]. split; [done|]. split.
  - unfold freq_filename_of. by rewrite Hv, Hcut.
  - rewrite Hv, Hf. intros Heq. by apply (inj (String.app base)) in Heq.
Qed.

(** C2 (amended): for every well-formed vocabulary whose tokens, the five
    special tokens apart, hold no byte that [json_escape_string] escapes,
    every merge history, and every base file name shorter than 246 bytes
    without [.json] in it, saving with [save_vocabulary_json] and then
    loading [<base>.json] (which also reads [<base>_freq.json]) gives a
    table that holds every token of the vocabulary with its count, except
    that the five special tokens are there with the values 0 to 4 whatever
    the vocabulary held for them; the merge list loaded is empty, since the
    JSON files do not hold the merges. *)
Theorem json_round_trip (fs : FileSystem) vocab (merges : list string) base :
  ht_wf vocab →
  Forall (λ item, json_plain (it_key item)) (json_tokens vocab) →
  Str.len base < 246 →
  C.cut_at ".json" (base +:+ ".json") = base →
  ∃ loaded,
    load_vocabulary_json (save_vocabulary_json fs vocab merges base).1
                         (json_vocab_filename base) = Some (loaded, [])
    ∧ ht_wf loaded
    ∧ ht_to_map loaded = special_map ∪ ht_to_map vocab
    ∧ ∀ key, is_special key = false → hash_search loaded key = hash_search vocab key.
Proof.
  intros Hwf Hplain Hlen Hcut.
  destruct (json_filenames base Hlen Hcut) as (Hv & Hf & Hderived & Hne).
  destruct (loaded_json_table vocab Hwf) as [Hwf' Hmap].
  eexists. split; [|split; [exact Hwf' | split; [exact Hmap|]]].
  - unfold load_vocabulary_json, save_vocabulary_json. cbn [fst].
    rewrite Hderived.
    rewrite lookup_insert_ne by done. rewrite lookup_insert_eq.
    rewrite load_vocabulary_json_content by done.
    rewrite lookup_insert_eq.
    by rewrite load_frequency_json_content by done.
  - intros key Hkey. rewrite !hash_search_of_map by done.
    rewrite Hmap, lookup_union.
    pose proof (special_map_lookup key) as Hsp. rewrite Hkey in Hsp.
    rewrite Hsp. by destruct (ht_to_map vocab !! key).
Qed.

Lemma json_round_trip_witness :
  let st := train_corpus false ("[C][C][C][N]" +:+ C.nl +:+ "[C][N]" +:+ C.nl) 2 in
  ht_wf (tr_vocab st)
  ∧ Forall (λ item, json_plain (it_key item)) (json_tokens (tr_vocab st))
  ∧ Str.len "out/vocab_2" < 246
  ∧ C.cut_at ".json" ("out/vocab_2" +:+ ".json") = "out/vocab_2"
  ∧ ∃ loaded,
      load_vocabulary_json
        (save_vocabulary_json ∅ (tr_vocab st) (tr_merges st) "out/vocab_2").1
        (json_vocab_filename "out/vocab_2") = Some (loaded, [])
      ∧ ht_to_map loaded = special_map ∪ ht_to_map (tr_vocab st).
Proof.
  intros st.
  assert (ht_wf (tr_vocab st)) as Hwf by apply train_corpus_wf.
  assert (Forall (λ item, json_plain (it_key item)) (json_tokens (tr_vocab st)))
    as Hplain.
  { vm_compute json_tokens. repeat constructor. }
  assert (Str.len "out/vocab_2" < 246) as Hlen by reflexivity.
  assert (C.cut_at ".json" ("out/vocab_2" +:+ ".json") = "out/vocab_2") as Hcut
    by reflexivity.
  destruct (json_round_trip ∅ (tr_vocab st) (tr_merges st) "out/vocab_2"
              Hwf Hplain Hlen Hcut) as (loaded & Hload & _ & Hmap & _).
  split; [exact Hwf|]. split; [exact Hplain|]. split; [exact Hlen|].
  split; [exact Hcut|]. exists loaded. split; [exact Hload | exact Hmap].
Defined.

(** C2 as stated fails on every vocabulary with a merge history: the
    merges are not in the JSON files and the loader returns none, and the
    table loaded holds the five special tokens the vocabulary did not
    hold. A token with an escaped byte, such as the SMILES bond [/], comes
    back under its escaped spelling. *)
Lemma json_round_trip_fails :
  (let st := train_corpus false ("[C][C][C][N]" +:+ C.nl) 1 in
   let loaded := load_vocabulary_json
                   (save_vocabulary_json ∅ (tr_vocab st) (tr_merges st) "vocab_1").1
                   "vocab_1.json" in
   tr_merges st = ["[C] [C]"]
   ∧ snd <$> loaded = Some []
   ∧ hash_search (tr_vocab st) "<s>" = None
   ∧ (λ r, hash_search r.1 "<s>") <$> loaded = Some (Some (mk_item "<s>" 0)))
  ∧ (let st := train_corpus true ("C/C=C" +:+ C.nl) 0 in
     let loaded := load_vocabulary_json
                     (save_vocabulary_json ∅ (tr_vocab st) (tr_merges st) "vocab_0").1
                     "vocab_0.json" in
     hash_search (tr_vocab st) "/" = Some (mk_item "/" 1)
     ∧ (λ r, hash_search r.1 "/") <$> loaded = Some None
     ∧ (λ r, hash_search r.1 "\/") <$> loaded = Some (Some (mk_item "\/" 1))).
Proof. vm_compute. done. Qed.

End JsonFormatFacts.

(** ** The loops are not cut short

    The loops of the source that run until the input is used up are
    written with a number of rounds, chosen as the length of the input.
    Every round consumes at least one byte, so that number is never
    reached before the loop ends by itself: any larger number of rounds
    gives the same result. *)

Section FuelFacts.

Implicit Types (s p file rest : string) (c : ascii).

Lemma length_drop n s : String.length (Str.drop n s) = (String.length s - n)%nat.
Proof.
  revert n. induction s as [|c s IH]; intros [|n]; simpl; auto.
Qed.

Lemma length_skip_space s : (String.length (C.skip_space s) ≤ String.length s)%nat.
Proof.
  induction s as [|c s IH]; simpl; [done|]. destruct (C.isspace c); simpl; lia.
Qed.

Lemma length_skip_until stop s :
  (String.length (C.skip_until stop s) ≤ String.length s)%nat.
Proof.
  induction s as [|c s IH]; simpl; [done|]. destruct (stop c); simpl; lia.
Qed.

Lemma length_scan_word width s :
  let '(w, rest) := C.scan_word width s in
  (String.length rest ≤ String.length s)%nat
  ∧ (w ≠ "" → String.length rest < String.length s)%nat.
Proof.
  revert width. induction s as [|c s IH]; intros [|width]; simpl; try done.
  destruct (C.isspace c); [done|]. specialize (IH width).
  destruct (C.scan_word width s) as [w rest]. destruct IH as [IH _].
  split; [lia | intros _; lia].
Qed.

Lemma length_scan_digits s acc :
  (String.length (C.scan_digits s acc).2 ≤ String.length s)%nat.
Proof.
  revert acc. induction s as [|c s IH]; intros acc; simpl; [done|].
  destruct (C.isdigit c); simpl; [|done]. specialize (IH (acc * 10 + C.digit_value c)). lia.
Qed.

Lemma length_scan_sign s :
  (String.length (C.scan_sign s).2 ≤ String.length s)%nat.
Proof.
  destruct s as [|c s]; [done|]. unfold C.scan_sign.
  repeat case_decide; simpl; lia.
Qed.

Lemma length_scan_int s v rest :
  C.scan_int s = Some (v, rest) → (String.length rest ≤ String.length s)%nat.
Proof.
  unfold C.scan_int. pose proof (length_skip_space s) as Hs.
  pose proof (length_scan_sign (C.skip_space s)) as Hsign.
  destruct (C.scan_sign (C.skip_space s)) as [neg s1]. simpl in Hsign.
  destruct s1 as [|d t]; [done|]. destruct (C.isdigit d); [|done].
  pose proof (length_scan_digits (String d t) 0) as Hd.
  destruct (C.scan_digits (String d t) 0) as [v' rest'].
  intros [= <- <-]. simpl in *. lia.
Qed.

Lemma length_fgets size file line rest :
  2 ≤ size → C.fgets size file = Some (line, rest) →
  (String.length rest < String.length file)%nat.
Proof.
  intros Hsize. unfold C.fgets. destruct file as [|c file]; [done|].
  destruct (Z.to_nat (size - 1)) as [|room] eqn:Hroom; [lia|].
  intros [= Heq]. revert Heq. simpl.
  destruct (decide (c = "010"%char)); [intros [= <- <-]; simpl; lia|].
  assert (∀ room s, (String.length (C.fgets_loop room s).2 ≤ String.length s)%nat)
    as Hloop.
  { clear. intros room s. revert room.
    induction s as [|c s IH]; intros [|room]; simpl; try done.
    destruct (decide (c = "010"%char)); simpl; [lia|].
    specialize (IH room). destruct (C.fgets_loop room s). simpl in *. lia. }
  specialize (Hloop room file). destruct (C.fgets_loop room file) as [l r].
  intros [= <- <-]. simpl in *. lia.
Qed.

Lemma read_lines_fuel fuel1 fuel2 file :
  (String.length file ≤ fuel1)%nat → (String.length file ≤ fuel2)%nat →
  read_lines fuel1 file = read_lines fuel2 file.
Proof.
  revert fuel2 file. induction fuel1 as [|fuel1 IH]; intros fuel2 file H1 H2.
  - destruct file; [by destruct fuel2 | simpl in H1; lia].
  - destruct fuel2 as [|fuel2]; [destruct file; [done | simpl in H2; lia]|].
    cbn [read_lines]. destruct (C.fgets 65536 file) as [[line rest]|] eqn:Hf; [|done].
    apply length_fgets in Hf; [|done]. f_equal. apply IH; lia.
Qed.

Lemma skip_to_marker_fuel fuel1 fuel2 file :
  (String.length file ≤ fuel1)%nat → (String.length file ≤ fuel2)%nat →
  skip_to_marker fuel1 file = skip_to_marker fuel2 file.
Proof.
  revert fuel2 file. induction fuel1 as [|fuel1 IH]; intros fuel2 file H1 H2.
  - destruct file; [by destruct fuel2 | simpl in H1; lia].
  - destruct fuel2 as [|fuel2]; [destruct file; [done | simpl in H2; lia]|].
    cbn [skip_to_marker]. destruct (C.fgets 256 file) as [[line rest]|] eqn:Hf; [|done].
    apply length_fgets in Hf; [|done]. case_decide; [done|]. apply IH; lia.
Qed.

Lemma read_vocabulary_fuel fuel1 fuel2 file vocab :
  (String.length file ≤ fuel1)%nat → (String.length file ≤ fuel2)%nat →
  read_vocabulary fuel1 file vocab = read_vocabulary fuel2 file vocab.
Proof.
  revert fuel2 file vocab.
  induction fuel1 as [|fuel1 IH]; intros fuel2 file vocab H1 H2.
  - destruct file; [by destruct fuel2 | simpl in H1; lia].
  - destruct fuel2 as [|fuel2]; [destruct file; [done | simpl in H2; lia]|].
    cbn [read_vocabulary]. pose proof (length_skip_space file) as Hs.
    pose proof (length_scan_word 255 (C.skip_space file)) as Hw.
    destruct (C.scan_word 255 (C.skip_space file)) as [[|c token] file1]; [done|].
    destruct Hw as [_ Hw]. specialize (Hw ltac:(done)).
    pose proof (length_skip_space file1) as Hs1.
    destruct (C.scan_int (C.skip_space file1)) as [[count file2]|] eqn:Hi; [|done].
    apply length_scan_int in Hi. pose proof (length_skip_space file2) as Hs2.
    apply IH; lia.
Qed.

Lemma length_json_key ptr key ptr' :
  json_key ptr = Some (key, ptr') → (String.length ptr' ≤ String.length ptr)%nat.
Proof.
  unfold json_key. pose proof (length_skip_until is_quote ptr) as H1.
  destruct (C.skip_until is_quote ptr) as [|c1 p1]; [done|].
  pose proof (length_skip_until is_colon p1) as H2.
  destruct (C.skip_until is_colon p1) as [|c2 p2]; [done|].
  pose proof (length_skip_space p2) as H3.
  destruct (C.skip_space p2) as [|c3 p3]; [done|].
  intros [= <- <-]. simpl in *. lia.
Qed.

Lemma length_skip_to_next_pair s :
  (String.length (skip_to_next_pair s) ≤ String.length s)%nat.
Proof.
  unfold skip_to_next_pair. pose proof (length_skip_until is_pair_end s) as H.
  destruct (C.skip_until is_pair_end s) as [|c r]; [simpl; lia|].
  case_decide; simpl in *; lia.
Qed.

Lemma length_json_vocab_value key ptr (st st' : json_state) ptr' :
  json_vocab_value key ptr st = Some (st', ptr') →
  (String.length ptr' ≤ String.length ptr)%nat.
Proof.
  unfold json_vocab_value. destruct ptr as [|c r]; [done|].
  destruct (is_quote c).
  - pose proof (length_skip_until is_quote r) as H.
    destruct (C.skip_until is_quote r) as [|c1 r1]; [done|].
    intros [= _ <-]. simpl in *. lia.
  - destruct (is_number_start c).
    + intros [= _ <-]. exact (length_skip_until _ (String c r)).
    + by intros [= _ <-].
Qed.

Lemma json_vocab_loop_fuel fuel1 fuel2 ptr (st : json_state) :
  (String.length ptr ≤ fuel1)%nat → (String.length ptr ≤ fuel2)%nat →
  json_vocab_loop fuel1 ptr st = json_vocab_loop fuel2 ptr st.
Proof.
  revert fuel2 ptr st. induction fuel1 as [|fuel1 IH]; intros fuel2 ptr st H1 H2.
  - destruct ptr; [by destruct fuel2 | simpl in H1; lia].
  - destruct fuel2 as [|fuel2]; [destruct ptr; [done | simpl in H2; lia]|].
    cbn [json_vocab_loop]. pose proof (length_skip_space ptr) as Hs.
    destruct (C.skip_space ptr) as [|c ptr1]; [done|]. simpl in Hs.
    case_bool_decide; [done|]. destruct (is_quote c); [|apply IH; lia].
    destruct (json_key ptr1) as [[key ptr2]|] eqn:Hk; [|done].
    apply length_json_key in Hk.
    destruct (json_vocab_value key ptr2 st) as [[st' ptr3]|] eqn:Hv; [|done].
    apply length_json_vocab_value in Hv.
    pose proof (length_skip_to_next_pair ptr3). apply IH; lia.
Qed.

Lemma json_freq_loop_fuel fuel1 fuel2 ptr vocab :
  (String.length ptr ≤ fuel1)%nat → (String.length ptr ≤ fuel2)%nat →
  json_freq_loop fuel1 ptr vocab = json_freq_loop fuel2 ptr vocab.
Proof.
  revert fuel2 ptr vocab. induction fuel1 as [|fuel1 IH]; intros fuel2 ptr vocab H1 H2.
  - destruct ptr; [by destruct fuel2 | simpl in H1; lia].
  - destruct fuel2 as [|fuel2]; [destruct ptr; [done | simpl in H2; lia]|].
    cbn [json_freq_loop]. pose proof (length_skip_space ptr) as Hs.
    destruct (C.skip_space ptr) as [|c ptr1]; [done|]. simpl in Hs.
    case_bool_decide; [done|]. destruct (is_quote c); [|apply IH; lia].
    destruct (json_key ptr1) as [[key ptr2]|] eqn:Hk; [|done].
    apply length_json_key in Hk.
    pose proof (length_skip_to_next_pair ptr2). apply IH; lia.
Qed.

(** *** The segmenter *)

Lemma bracket_body_bound s k :
  Regex.bracket_body s = Some k → (k < String.length s)%nat.
Proof.
  revert k. induction s as [|c s IH]; intros k; simpl; [done|].
  case_decide; [intros [= <-]; lia|].
  destruct (Regex.bracket_body s) as [k'|]; [|done].
  intros [= <-]. specialize (IH k' eq_refl). lia.
Qed.

Lemma bracket_group_bound p n :
  Regex.bracket_group p = Some n → (0 < n ≤ String.length p)%nat.
Proof.
  unfold Regex.bracket_group. destruct p as [|c rest]; [done|].
  destruct (decide (c = "["%char)) as [-> | Hne].
  - destruct (Regex.bracket_body rest) as [[|k]|] eqn:Hb; try done.
    apply bracket_body_bound in Hb. intros [= <-]. simpl. lia.
  - destruct c as [[] [] [] [] [] [] [] []]; done.
Qed.

Lemma selfies_match_at_bound p n :
  Regex.selfies_match_at p = Some n → (0 < n ≤ String.length p)%nat.
Proof.
  unfold Regex.selfies_match_at. destruct p as [|c rest]; [done|].
  destruct (decide (c = "."%char)) as [-> | Hne].
  - intros [= <-]. simpl. lia.
  - intros H. apply bracket_group_bound.
    destruct c as [[] [] [] [] [] [] [] []]; done.
Qed.

Lemma smiles_match_at_bound p n :
  Regex.smiles_match_at p = Some n → (0 < n ≤ String.length p)%nat.
Proof.
  unfold Regex.smiles_match_at. destruct p as [|c rest]; [done|].
  repeat case_decide.
  - apply bracket_group_bound.
  - destruct rest as [|d rest]; [intros [= <-]; simpl; lia|].
    destruct d as [[] [] [] [] [] [] [] []]; intros [= <-]; simpl; lia.
  - destruct rest as [|d rest]; [intros [= <-]; simpl; lia|].
    destruct d as [[] [] [] [] [] [] [] []]; intros [= <-]; simpl; lia.
  - destruct rest as [|d1 [|d2 rest]]; try done.
    destruct (_ && _); [|done]. intros [= <-]. simpl. lia.
  - destruct (_ || _); [|done]. intros [= <-]. simpl. lia.
Qed.

Section Tokenize.

Variable match_at : string → option nat.
Hypothesis match_at_bound :
  ∀ p n, match_at p = Some n → (0 < n ≤ String.length p)%nat.

Lemma regexec_bound p so eo :
  Regex.regexec match_at p = Some (so, eo) → (so < eo ≤ String.length p)%nat.
Proof.
  revert so eo. induction p as [|c p IH]; intros so eo; rewrite regexec_unfold.
  - destruct (match_at "") as [n|] eqn:Hm; [|done].
    apply match_at_bound in Hm. intros [= <- <-]. done.
  - destruct (match_at (String c p)) as [n|] eqn:Hm.
    + apply match_at_bound in Hm. intros [= <- <-]. done.
    + destruct (Regex.regexec match_at p) as [[so' eo']|]; [|done].
      intros [= <- <-]. specialize (IH so' eo' eq_refl). simpl. lia.
Qed.

Lemma tokenize_loop_fuel fuel1 fuel2 p :
  (String.length p < fuel1)%nat → (String.length p < fuel2)%nat →
  tokenize_loop match_at fuel1 p = tokenize_loop match_at fuel2 p.
Proof.
  revert fuel2 p. induction fuel1 as [|fuel1 IH]; intros fuel2 p H1 H2; [lia|].
  destruct fuel2 as [|fuel2]; [lia|]. cbn [tokenize_loop].
  destruct (Regex.regexec match_at p) as [[so eo]|] eqn:Hr; [|done].
  apply regexec_bound in Hr. f_equal. apply IH; rewrite length_drop; lia.
Qed.

Lemma tokenize_loop_nonempty fuel p :
  Forall (λ t, t ≠ "") (tokenize_loop match_at fuel p).
Proof.
  revert p. induction fuel as [|fuel IH]; intros p; cbn [tokenize_loop]; [constructor|].
  destruct (Regex.regexec match_at p) as [[so eo]|] eqn:Hr; [|constructor].
  apply regexec_bound in Hr. constructor; [|apply IH].
  intros Hempty. apply (f_equal String.length) in Hempty.
  rewrite length_take, length_drop in Hempty. simpl in Hempty. lia.
Qed.

End Tokenize.

(** More rounds than [pre_tokenize] is given change nothing. *)
Lemma pre_tokenize_fuel fmt text fuel :
  (String.length text < fuel)%nat →
  tokenize_loop (if fmt : bool then Regex.smiles_match_at else Regex.selfies_match_at)
                fuel text
  = pre_tokenize fmt text.
Proof.
  intros Hfuel. unfold pre_tokenize. apply tokenize_loop_fuel; [|done | lia].
  destruct fmt; [apply smiles_match_at_bound | apply selfies_match_at_bound].
Qed.

(** The segmenter never produces an empty token. *)
Lemma pre_tokenize_nonempty fmt text : Forall (λ t, t ≠ "") (pre_tokenize fmt text).
Proof.
  unfold pre_tokenize. apply tokenize_loop_nonempty.
  destruct fmt; [apply smiles_match_at_bound | apply selfies_match_at_bound].
Qed.

End FuelFacts.

(** * Further properties of the code *)

(** ** The hash table *)

Section TableUse.

Implicit Types (ht : HashTable) (key k : string) (keys : list string).

Lemma occurrences_cons key k keys :
  occurrences key (k :: keys)
  = (if decide (k = key) then 1 else 0) + occurrences key keys.
Proof.
  unfold occurrences. rewrite filter_cons.
  case_decide; simpl; lia.
Qed.

Lemma occurrences_pos key keys : key ∈ keys → 0 < occurrences key keys.
Proof.
  induction keys as [|k keys IH]; intros Hin; [by apply elem_of_nil in Hin|].
  rewrite occurrences_cons. apply elem_of_cons in Hin.
  assert (0 ≤ occurrences key keys) by (unfold occurrences; lia).
  case_decide; [lia|]. destruct Hin as [-> | Hin]; [done|].
  specialize (IH Hin). lia.
Qed.

Lemma occurrences_zero key keys : key ∉ keys → occurrences key keys = 0.
Proof.
  induction keys as [|k keys IH]; intros Hin; [done|].
  apply not_elem_of_cons in Hin as [Hne Hin].
  rewrite occurrences_cons, IH by done. by rewrite decide_False.
Qed.

Lemma occurrences_app key keys1 keys2 :
  occurrences key (keys1 ++ keys2) = occurrences key keys1 + occurrences key keys2.
Proof. unfold occurrences. rewrite filter_app, List.length_app. lia. Qed.

(** The table after a list of keys was counted in it. *)
Lemma fold_insert_counts keys ht k :
  ht_wf ht →
  hash_search (fold_left hash_insert_or_increment keys ht) k
  = if decide (k ∈ keys)
    then Some (mk_item k (from_option it_count 0 (hash_search ht k)
                          + occurrences k keys))
    else hash_search ht k.
Proof.
  revert ht. induction keys as [|key keys IH]; intros ht Hwf.
  { cbn [fold_left]. case_decide as Hin; [by apply elem_of_nil in Hin | done]. }
  cbn [fold_left]. rewrite IH by (by apply hash_insert_or_increment_wf).
  rewrite hash_search_insert_or_increment by done.
  rewrite occurrences_cons.
  destruct (decide (k = key)) as [-> | Hne].
  - rewrite (decide_True (P := key ∈ key :: keys)) by apply list_elem_of_here.
    rewrite (decide_True (P := key = key)) by done.
    cbn [from_option it_count].
    destruct (decide (key ∈ keys)) as [Hin | Hin].
    + f_equal. f_equal. unfold incremented. destruct (hash_search ht key); simpl; lia.
    + rewrite occurrences_zero by done.
      f_equal. f_equal. unfold incremented. destruct (hash_search ht key); simpl; lia.
  - rewrite (decide_False (P := key = k)) by done.
    destruct (decide (k ∈ keys)) as [Hin | Hin].
    + rewrite decide_True by (by apply list_elem_of_further).
      f_equal; f_equal; lia.
    + rewrite decide_False; [done|].
      intros [?|?]%elem_of_cons; done.
Qed.

Lemma fold_insert_new keys size k :
  0 ≤ size < 2 ^ 32 →
  hash_search (fold_left hash_insert_or_increment keys (ht_create size)) k
  = counted keys k.
Proof.
  intros Hs. rewrite fold_insert_counts by (by apply ht_create_wf).
  rewrite hash_search_create. unfold counted. case_decide; [|done].
  simpl. by rewrite Z.add_0_l.
Qed.

(** X1: a table created with size 0 gets [HT_DEFAULT_SIZE] buckets, any
    other size is taken as it is; a new table holds no item: every search
    fails, the item count is 0 and there is no best pair in it. *)
Theorem ht_create_empty (size : Z) (key : string) :
  let ht := ht_create size in
  ht_size ht = (if size =? 0 then 10000 else size)
  ∧ ht_count ht = 0
  ∧ ht_entries ht = []
  ∧ hash_search ht key = None
  ∧ count_unique_tokens ht = 0
  ∧ get_best_pair ht = (None, -1).
Proof.
  intros ht. split; [done|]. split; [done|].
  split; [apply ht_create_entries|]. split; [apply hash_search_create|].
  split.
  - rewrite count_unique_tokens_spec. unfold ht_tokens.
    subst ht. by rewrite ht_create_entries.
  - apply get_best_pair_empty, ht_create_entries.
Qed.

(** X2: a search finds exactly the items that the loops over the table
    visit: it returns an item if and only if that item is in the table under
    the key asked for, and it returns nothing if and only if no item of the
    table has that key. *)
Theorem hash_search_finds_entries ht key :
  ht_wf ht →
  (∀ item, hash_search ht key = Some item ↔ item ∈ ht_entries ht ∧ it_key item = key)
  ∧ (hash_search ht key = None ↔ ∀ item, item ∈ ht_entries ht → it_key item ≠ key).
Proof.
  intros Hwf. split.
  - intros item. by apply hash_search_Some.
  - rewrite hash_search_None by done. split.
    + intros Hn item Hin Hk. apply Hn. apply list_elem_of_fmap. by exists item.
    + intros Hn (item & Hk & Hin)%list_elem_of_fmap. by apply (Hn item).
Qed.

Lemma hash_search_finds_entries_witness :
  let ht := fold_left hash_insert_or_increment ["[C]"; "[N]"; "[C]"] (ht_create 7) in
  ht_wf ht
  ∧ mk_item "[C]" 2 ∈ ht_entries ht
  ∧ hash_search ht "[O]" = None.
Proof.
  intros ht.
  assert (ht_wf ht) as Hwf by (apply fold_insert_wf, ht_create_wf; lia).
  destruct (hash_search_finds_entries ht "[C]" Hwf) as [Hsome _].
  split; [exact Hwf|]. split; [|vm_compute; reflexivity].
  apply (Hsome (mk_item "[C]" 2)). vm_compute. reflexivity.
Defined.

(** X3: [hash_insert_or_increment] leaves the key with one more than the
    count it had, or with 1 when it was not in the table, and changes the
    count of no other key; the table stays well formed, also when the call
    resizes it. *)
Theorem insert_or_increment_counts ht key :
  ht_wf ht →
  let ht' := hash_insert_or_increment ht key in
  ht_wf ht'
  ∧ hash_search ht' key
    = Some (mk_item key (from_option it_count 0 (hash_search ht key) + 1))
  ∧ (∀ k, k ≠ key → hash_search ht' k = hash_search ht k)
  ∧ ht_to_map ht' = <[key := default 0 (ht_to_map ht !! key) + 1]> (ht_to_map ht).
Proof.
  intros Hwf ht'.
  assert (ht_wf ht') as Hwf' by (by apply hash_insert_or_increment_wf).
  assert (incremented (hash_search ht key)
          = from_option it_count 0 (hash_search ht key) + 1) as Hinc.
  { unfold incremented. by destruct (hash_search ht key). }
  split; [done|]. split; [|split].
  - subst ht'. rewrite hash_search_insert_or_increment by done.
    rewrite decide_True by done. by rewrite Hinc.
  - intros k Hne. subst ht'. rewrite hash_search_insert_or_increment by done.
    by rewrite decide_False.
  - apply map_eq. intros k. rewrite ht_to_map_lookup by done.
    subst ht'. rewrite hash_search_insert_or_increment by done.
    destruct (decide (k = key)) as [-> | Hne].
    + rewrite lookup_insert_eq, ht_to_map_lookup, Hinc by done.
      simpl. by destruct (hash_search ht key).
    + rewrite lookup_insert_ne by done. by rewrite ht_to_map_lookup.
Qed.

Lemma insert_or_increment_counts_witness :
  let ht := hash_insert_or_increment (ht_create 3) "[C]" in
  ht_wf ht
  ∧ hash_search (hash_insert_or_increment ht "[C]") "[C]" = Some (mk_item "[C]" 2)
  ∧ hash_search (hash_insert_or_increment ht "[N]") "[C]" = Some (mk_item "[C]" 1).
Proof.
  intros ht.
  assert (ht_wf ht) as Hwf by (apply hash_insert_or_increment_wf, ht_create_wf; lia).
  destruct (insert_or_increment_counts ht "[C]" Hwf) as (_ & Hkey & _).
  destruct (insert_or_increment_counts ht "[N]" Hwf) as (_ & _ & Hother & _).
  split; [exact Hwf|]. split.
  - rewrite Hkey. vm_compute. reflexivity.
  - rewrite Hother by done. vm_compute. reflexivity.
Defined.

Lemma ht_count_insert ht key :
  ht_wf ht →
  ht_count (hash_insert_or_increment ht key)
  = if hash_search ht key is Some _ then ht_count ht
    else (ht_count ht + 1) mod 2 ^ 32.
Proof.
  intros Hwf. unfold hash_insert_or_increment.
  pose proof (insert_resize_search ht key Hwf) as Hkey.
  set (ht1 := if load_factor_reached ht then _ else ht) in *.
  assert (ht_count ht1 = ht_count ht) as Hc.
  { subst ht1. destruct (load_factor_reached ht); [|done].
    unfold ht_resize. by destruct (_ =? 0). }
  rewrite <- Hkey. by destruct (hash_search ht1 key); simpl; rewrite Hc.
Qed.

(** The item count of a table is the number of its items (as far as an
    [unsigned int] can tell). *)
Lemma fold_insert_count keys ht :
  ht_wf ht → ht_count ht = ht_tokens ht mod 2 ^ 32 →
  let ht' := fold_left hash_insert_or_increment keys ht in
  ht_count ht' = ht_tokens ht' mod 2 ^ 32.
Proof.
  revert ht. induction keys as [|key keys IH]; intros ht Hwf Hc; [done|].
  cbn [fold_left]. apply IH; [by apply hash_insert_or_increment_wf|].
  rewrite ht_count_insert, ht_tokens_insert by done.
  destruct (hash_search ht key).
  - by rewrite Z.add_0_r.
  - by rewrite Hc, Zplus_mod_idemp_l.
Qed.

Lemma fold_insert_keys keys size :
  0 ≤ size < 2 ^ 32 →
  it_key <$> ht_entries (fold_left hash_insert_or_increment keys (ht_create size))
  ≡ₚ remove_dups keys.
Proof.
  intros Hs.
  set (ht := fold_left _ _ _).
  assert (ht_wf ht) as Hwf by (apply fold_insert_wf, ht_create_wf; lia).
  apply NoDup_Permutation; [apply Hwf | apply NoDup_remove_dups |].
  intros k. rewrite elem_of_remove_dups.
  pose proof (hash_search_None ht k Hwf) as Hn.
  subst ht. rewrite fold_insert_new in Hn by done. unfold counted in Hn.
  case_decide as Hin.
  - split; [done|]. intros _. destruct (decide (k ∈ it_key <$> ht_entries
      (fold_left hash_insert_or_increment keys (ht_create size)))) as [|Hno]; [done|].
    by apply Hn in Hno.
  - split; [|done]. intros Hk. by apply Hn in Hk.
Qed.

Lemma fold_insert_tokens keys size :
  0 ≤ size < 2 ^ 32 →
  ht_tokens (fold_left hash_insert_or_increment keys (ht_create size))
  = Z.of_nat (length (remove_dups keys)).
Proof.
  intros Hs. unfold ht_tokens.
  by rewrite <- (fold_insert_keys keys size Hs), length_fmap.
Qed.

Lemma fold_insert_new_count keys size :
  0 ≤ size < 2 ^ 32 →
  let ht := fold_left hash_insert_or_increment keys (ht_create size) in
  ht_count ht = ht_tokens ht mod 2 ^ 32.
Proof.
  intros Hs. apply fold_insert_count; [by apply ht_create_wf|].
  unfold ht_tokens. by rewrite ht_create_entries.
Qed.

(** X4: in a table filled by [hash_insert_or_increment] from a new table,
    the number of items is the number of distinct keys inserted, and the
    item count the table keeps and the count [count_unique_tokens] returns
    are both that number (modulo 2^32, being [unsigned int]). *)
Theorem ht_count_is_number_of_keys (keys : list string) (size : Z) :
  0 ≤ size < 2 ^ 32 →
  let ht := fold_left hash_insert_or_increment keys (ht_create size) in
  ht_tokens ht = Z.of_nat (length (remove_dups keys))
  ∧ ht_count ht = ht_tokens ht mod 2 ^ 32
  ∧ count_unique_tokens ht = ht_count ht.
Proof.
  intros Hs ht.
  assert (ht_count ht = ht_tokens ht mod 2 ^ 32) as Hc
    by (by apply fold_insert_new_count).
  split; [by apply fold_insert_tokens|]. split; [done|].
  by rewrite count_unique_tokens_spec.
Qed.

Lemma ht_count_is_number_of_keys_witness :
  let ht := fold_left hash_insert_or_increment ["[C]"; "[N]"; "[C]"; "[C]"] (ht_create 2) in
  0 ≤ 2 < 2 ^ 32 ∧ ht_tokens ht = 2 ∧ ht_count ht = 2 ∧ count_unique_tokens ht = 2.
Proof.
  intros ht. subst ht. assert (0 ≤ 2 < 2 ^ 32) as Hs by lia.
  destruct (ht_count_is_number_of_keys ["[C]"; "[N]"; "[C]"; "[C]"] 2 Hs)
    as (Ht & Hc & Hu).
  split; [exact Hs|]. split; [exact Ht|].
  split; [|rewrite Hu]; rewrite Hc, Ht; reflexivity.
Defined.

(** X5: [get_word_counts] returns a table in which every token of the
    text is stored with the number of times the segmenter produced it, and
    nothing else is stored: a token the segmenter did not produce is not
    found, and the table holds as many items as there are distinct
    tokens. *)
Theorem get_word_counts_counts (input_format_is_smiles : bool) (text token : string) :
  let tokens := pre_tokenize input_format_is_smiles text in
  let ht := get_word_counts input_format_is_smiles text in
  hash_search ht token = counted tokens token
  ∧ ht_tokens ht = Z.of_nat (length (remove_dups tokens)).
Proof.
  intros tokens ht. split.
  - apply fold_insert_new. lia.
  - apply fold_insert_tokens. lia.
Qed.

End TableUse.


(** ** Pair statistics and the best pair *)

Section PairUse.

Lemma length_adjacent_pairs (tokens : TokenList) :
  length (adjacent_pairs tokens) = (length tokens - 1)%nat.
Proof.
  induction tokens as [|a rest IH]; [done|].
  destruct rest as [|b rest]; [done|].
  change (adjacent_pairs (a :: b :: rest))
    with (pair_key a b :: adjacent_pairs (b :: rest)).
  rewrite length_cons, IH, !length_cons. lia.
Qed.

(** X6: [get_pair_stats] returns no table for fewer than two tokens;
    otherwise it returns a table that holds, for every key made of two
    neighbouring tokens, the number of places where that key is made, and
    nothing else. There is one key for each of the [count - 1] pairs of
    neighbours. *)
Theorem get_pair_stats_counts (tokens : TokenList) :
  match get_pair_stats tokens with
  | None => (length tokens < 2)%nat
  | Some stats =>
      (2 ≤ length tokens)%nat
      ∧ ht_wf stats
      ∧ (∀ key, hash_search stats key = counted (adjacent_pairs tokens) key)
      ∧ length (adjacent_pairs tokens) = (length tokens - 1)%nat
  end.
Proof.
  unfold get_pair_stats. destruct (length tokens <? 2)%nat eqn:Hlen.
  - by apply Nat.ltb_lt in Hlen.
  - apply Nat.ltb_ge in Hlen. split; [done|]. split; [|split].
    + apply fold_insert_wf, ht_create_wf. change (HT_DEFAULT_SIZE / 10) with 1000. lia.
    + intros key. apply fold_insert_new. change (HT_DEFAULT_SIZE / 10) with 1000. lia.
    + apply length_adjacent_pairs.
Qed.

Lemma get_pair_stats_keys (tokens : TokenList) :
  match get_pair_stats tokens with
  | None => True
  | Some stats =>
      ht_wf stats ∧ ∀ key, hash_search stats key = counted (adjacent_pairs tokens) key
  end.
Proof.
  unfold get_pair_stats. destruct (length tokens <? 2)%nat; [done|]. split.
  - apply fold_insert_wf, ht_create_wf. change (HT_DEFAULT_SIZE / 10) with 1000. lia.
  - intros key. apply fold_insert_new. change (HT_DEFAULT_SIZE / 10) with 1000. lia.
Qed.

(** What the selection loop leaves after a list of items. *)
Lemma best_step_fold (items : list Ht_item) (best : option string * Z) :
  let r := fold_left best_step items best in
  (r = best ∧ Forall (λ i, it_count i ≤ best.2) items)
  ∨ ∃ l1 item l2,
      items = l1 ++ item :: l2
      ∧ r = (Some (it_key item), it_count item)
      ∧ best.2 < it_count item
      ∧ Forall (λ i, it_count i < it_count item) l1
      ∧ Forall (λ i, it_count i ≤ it_count item) l2.
Proof.
  cbv zeta. revert best. induction items as [|item items IH]; intros best; cbn [fold_left].
  { left. split; [done | constructor]. }
  specialize (IH (best_step best item)).
  destruct (best.2 <? it_count item) eqn:Hcmp.
  - apply Z.ltb_lt in Hcmp.
    assert (best_step best item = (Some (it_key item), it_count item)) as Hb.
    { unfold best_step. apply Z.ltb_lt in Hcmp. by rewrite Hcmp. }
    rewrite Hb in *. cbn [snd] in IH. right.
    destruct IH as [[Hr Hall] | (l1 & x & l2 & -> & Hr & Hlt & H1 & H2)].
    + exists [], item, items.
      split; [done|]. split; [done|]. split; [done|]. split; [constructor | done].
    + exists (item :: l1), x, l2. split; [done|]. split; [done|].
      split; [lia|]. split; [|done]. constructor; [lia | done].
  - apply Z.ltb_ge in Hcmp.
    assert (best_step best item = best) as Hb.
    { unfold best_step. apply Z.ltb_ge in Hcmp. by rewrite Hcmp. }
    rewrite Hb in *.
    destruct IH as [[Hr Hall] | (l1 & x & l2 & -> & Hr & Hlt & H1 & H2)].
    + left. split; [done|]. by constructor.
    + right. exists (item :: l1), x, l2. split; [done|]. split; [done|].
      split; [lia|]. split; [|done]. constructor; [lia | done].
Qed.

(** X7: the pair [get_best_pair] returns is the key of an item of the
    table and the count returned is that item's count; no item has a
    higher count, and every item the loop visits before it has a lower
    one, so that among items with the highest count the first in table
    order wins. Counts below 0 are never selected: when no item has a
    count of 0 or more the result is [NULL] with the count -1. *)
Theorem get_best_pair_first_maximum (stats : HashTable) :
  match get_best_pair stats with
  | (Some key, f) =>
      ∃ l1 item l2,
        ht_entries stats = l1 ++ item :: l2
        ∧ it_key item = key ∧ it_count item = f ∧ 0 ≤ f
        ∧ Forall (λ i, it_count i < f) l1
        ∧ Forall (λ i, it_count i ≤ f) l2
  | (None, f) => f = -1 ∧ Forall (λ i, it_count i < 0) (ht_entries stats)
  end.
Proof.
  rewrite get_best_pair_entries.
  destruct (best_step_fold (ht_entries stats) (None, -1))
    as [[-> Hall] | (l1 & item & l2 & Hl & -> & Hlt & H1 & H2)].
  - split; [done|]. eapply Forall_impl; [exact Hall|]. simpl. intros; lia.
  - exists l1, item, l2. simpl in Hlt. split_and!; [done..|lia|done|done].
Qed.

End PairUse.

(** ** The merge engine *)

Section MergeUse.

Lemma merge_loop_lengths first second (tokens : TokenList) :
  (length (merge_loop first second tokens) ≤ length tokens)%nat
  ∧ (has_adjacent first second tokens →
     (length (merge_loop first second tokens) < length tokens)%nat)
  ∧ (¬ has_adjacent first second tokens → merge_loop first second tokens = tokens).
Proof.
  induction tokens as [| t | t t' rest IH1 IH2] using token_list_ind.
  - split; [done|]. split; [intros []|done].
  - split; [done|]. split; [intros []|done].
  - rewrite merge_loop_cons2.
    destruct IH1 as (Hle1 & _ & _). destruct IH2 as (Hle2 & Hlt2 & Heq2).
    change (has_adjacent first second (t :: t' :: rest))
      with ((t = first ∧ t' = second) ∨ has_adjacent first second (t' :: rest)).
    case_decide as Hd.
    + split; [|split].
      * rewrite !length_cons. lia.
      * intros _. rewrite !length_cons. lia.
      * intros Hn. destruct Hn. by left.
    + split; [|split].
      * rewrite !(length_cons t). lia.
      * intros [? | Hadj]; [done|]. rewrite !(length_cons t).
        specialize (Hlt2 Hadj). lia.
      * intros Hn. f_equal. apply Heq2. intros Hadj. apply Hn. by right.
Qed.

Lemma merge_loop_cat first second tokens :
  Str.len first + Str.len second < 256 →
  Str.cat (merge_loop first second tokens) = Str.cat tokens.
Proof.
  intros Hlen.
  induction tokens as [| t | t t' rest IH1 IH2] using token_list_ind; [done..|].
  rewrite merge_loop_cons2. case_decide as Hm.
  - destruct Hm as [-> ->]. rewrite !cat_cons, IH1.
    rewrite merged_token_fits by done. by rewrite app_assoc.
  - rewrite (cat_cons t (merge_loop _ _ _)), IH2. done.
Qed.

Lemma merge_pair_length (tokens : TokenList) pair :
  (length (merge_pair tokens pair) ≤ length tokens)%nat.
Proof.
  unfold merge_pair. destruct (split_pair pair) as [[first second]|]; [|done].
  apply merge_loop_lengths.
Qed.

(** X8: [merge_pair] never lengthens a token list. A pair without a space
    leaves the list as it is; for a pair with a space, the list gets
    shorter if the first part is somewhere immediately followed by the
    second, and is returned unchanged if it is not. *)
Theorem merge_pair_shortens (tokens : TokenList) (pair : string) :
  (length (merge_pair tokens pair) ≤ length tokens)%nat
  ∧ match split_pair pair with
    | None => merge_pair tokens pair = tokens
    | Some (first, second) =>
        (has_adjacent first second tokens →
         (length (merge_pair tokens pair) < length tokens)%nat)
        ∧ (¬ has_adjacent first second tokens → merge_pair tokens pair = tokens)
    end.
Proof.
  split; [apply merge_pair_length|].
  unfold merge_pair. destruct (split_pair pair) as [[first second]|]; [|done].
  destruct (merge_loop_lengths first second tokens) as (Hle & Hlt & Heq). done.
Qed.

End MergeUse.

(** ** The segmenter *)

Section SegmenterUse.

Lemma str_take_app s t : Str.take (String.length s) (s +:+ t) = s.
Proof. induction s as [|c s IH]; simpl; [by destruct t | by rewrite IH]. Qed.

Lemma str_drop_app s t : Str.drop (String.length s) (s +:+ t) = t.
Proof. induction s as [|c s IH]; simpl; [by destruct t | done]. Qed.

Lemma str_take_drop n s : Str.take n s +:+ Str.drop n s = s.
Proof.
  revert s. induction n as [|n IH]; intros [|c s]; try done.
  cbn [Str.take Str.drop]. rewrite app_cons. f_equal. apply IH.
Qed.

Lemma bracket_body_app body rest :
  Str.mem "]" body = false →
  Regex.bracket_body (body +:+ "]" +:+ rest) = Some (String.length body).
Proof.
  induction body as [|c body IH]; intros Hm; simpl in *.
  - done.
  - case_decide; [done|]. by rewrite IH.
Qed.

Lemma bracket_body_split s k :
  Regex.bracket_body s = Some k →
  ∃ body rest, s = body +:+ "]" +:+ rest ∧ String.length body = k
               ∧ Str.mem "]" body = false.
Proof.
  revert k. induction s as [|c s IH]; intros k; simpl; [done|].
  case_decide as Hc.
  - intros [= <-]. subst c. by exists "", s.
  - destruct (Regex.bracket_body s) as [k'|]; [|done]. intros [= <-].
    destruct (IH k' eq_refl) as (body & rest & -> & Hlen & Hm).
    exists (String c body), rest. simpl. rewrite Hlen.
    split; [done|]. split; [done|]. by rewrite decide_False.
Qed.

Lemma selfies_match_at_token t rest :
  selfies_token t →
  Regex.selfies_match_at (t +:+ rest) = Some (String.length t).
Proof.
  intros [-> | (body & -> & Hne & Hm)]; [done|].
  change (("[" +:+ body +:+ "]") +:+ rest) with (String "[" ((body +:+ "]") +:+ rest)).
  rewrite app_assoc. cbn [Regex.selfies_match_at Regex.bracket_group].
  rewrite bracket_body_app by done.
  destruct body as [|c body]; [done|].
  cbn [String.length]. f_equal. simpl. rewrite ?length_app. simpl. lia.
Qed.

Lemma bracket_group_shape p n :
  Regex.bracket_group p = Some n →
  ∃ body, Str.take n p = "[" +:+ body +:+ "]" ∧ body ≠ ""
          ∧ Str.mem "]" body = false.
Proof.
  unfold Regex.bracket_group. destruct p as [|c rest]; [done|].
  destruct (decide (c = "["%char)) as [-> | Hbr].
  - destruct (Regex.bracket_body rest) as [[|k]|] eqn:Hb; try done.
    intros Hg.
    destruct (bracket_body_split _ _ Hb) as (body & rest' & -> & Hlen & Hm).
    exists body. split; [|split; [by destruct body | done]].
    set (t := "[" +:+ body +:+ "]").
    assert (n = String.length t) as ->.
    { injection Hg as <-. subst t. simpl. rewrite ?length_app. simpl. lia. }
    assert (String "[" (body +:+ "]" +:+ rest') = t +:+ rest') as ->.
    { subst t. by rewrite !app_cons, app_nil_l, !app_assoc. }
    apply str_take_app.
  - intros Hg. exfalso. revert Hg.
    destruct c as [[] [] [] [] [] [] [] []]; done.
Qed.

Lemma selfies_match_at_shape p n :
  Regex.selfies_match_at p = Some n → selfies_token (Str.take n p).
Proof.
  unfold Regex.selfies_match_at. destruct p as [|c rest]; [done|].
  destruct (decide (c = "."%char)) as [-> | Hdot].
  { intros [= <-]. by left. }
  intros Hg. right. apply bracket_group_shape.
  revert Hg. destruct c as [[] [] [] [] [] [] [] []]; done.
Qed.

Lemma regexec_match match_at p so eo :
  Regex.regexec match_at p = Some (so, eo) →
  ∃ n, match_at (Str.drop so p) = Some n ∧ eo = (so + n)%nat.
Proof.
  revert so eo. induction p as [|c p IH]; intros so eo; rewrite regexec_unfold.
  - destruct (match_at "") as [n|] eqn:Hm; [|done].
    intros [= <- <-]. by exists n.
  - destruct (match_at (String c p)) as [n|] eqn:Hm.
    + intros [= <- <-]. by exists n.
    + destruct (Regex.regexec match_at p) as [[so' eo']|]; [|done].
      intros [= <- <-]. destruct (IH so' eo' eq_refl) as (n & Hn & ->).
      exists n. by split.
Qed.

Lemma tokenize_loop_matches match_at (P : string → Prop) fuel p :
  (∀ q n, match_at q = Some n → P (Str.take n q)) →
  Forall P (tokenize_loop match_at fuel p).
Proof.
  intros HP. revert p. induction fuel as [|fuel IH]; intros p; cbn [tokenize_loop].
  { constructor. }
  destruct (Regex.regexec match_at p) as [[so eo]|] eqn:Hr; [|constructor].
  constructor; [|apply IH].
  destruct (regexec_match _ _ _ _ Hr) as (n & Hn & ->).
  replace (so + n - so)%nat with n by lia. by apply HP.
Qed.

Lemma selfies_token_length t : selfies_token t → (0 < String.length t)%nat.
Proof. intros [-> | (body & -> & _)]; simpl; lia. Qed.

Lemma tokenize_loop_tokens (ts : list string) fuel :
  Forall selfies_token ts →
  (String.length (Str.cat ts) < fuel)%nat →
  tokenize_loop Regex.selfies_match_at fuel (Str.cat ts) = ts.
Proof.
  revert fuel. induction ts as [|t ts IH]; intros fuel Hts Hfuel.
  - destruct fuel as [|fuel]; [simpl in Hfuel; lia | done].
  - apply Forall_cons in Hts as [Ht Hts].
    destruct fuel as [|fuel]; [lia|].
    rewrite cat_cons in *. cbn [tokenize_loop].
    rewrite regexec_unfold, selfies_match_at_token by done.
    rewrite Nat.sub_0_r. cbn [Str.drop]. rewrite str_take_app, str_drop_app.
    f_equal. apply IH; [done|].
    rewrite length_app in Hfuel.
    pose proof (selfies_token_length t Ht). lia.
Qed.

(** X9: in SELFIES mode the segmenter returns a text made of SELFIES
    tokens (dots and bracket groups) as the list of these tokens: nothing
    is lost, merged or split. *)
Theorem selfies_tokens_round_trip (ts : list string) :
  Forall selfies_token ts → pre_tokenize false (Str.cat ts) = ts.
Proof.
  intros Hts. unfold pre_tokenize. apply tokenize_loop_tokens; [done | lia].
Qed.

Lemma selfies_tokens_round_trip_witness :
  Forall selfies_token ["[C]"; "[=O]"; "."; "[Branch1]"]
  ∧ pre_tokenize false "[C][=O].[Branch1]" = ["[C]"; "[=O]"; "."; "[Branch1]"].
Proof.
  assert (Forall selfies_token ["[C]"; "[=O]"; "."; "[Branch1]"]) as Hts.
  { apply Forall_cons. split; [right; by exists "C"|].
    apply Forall_cons. split; [right; by exists "=O"|].
    apply Forall_cons. split; [by left|].
    apply Forall_cons. split; [right; by exists "Branch1"|]. constructor. }
  split; [exact Hts|].
  exact (selfies_tokens_round_trip ["[C]"; "[=O]"; "."; "[Branch1]"] Hts).
Defined.

(** X10: every token the segmenter returns in SELFIES mode is a dot or a
    bracket group, whatever the text; segmenting the tokens written one
    after the other gives the same tokens again. *)
Theorem selfies_tokens_shape (text : string) :
  Forall selfies_token (pre_tokenize false text)
  ∧ pre_tokenize false (Str.cat (pre_tokenize false text)) = pre_tokenize false text.
Proof.
  assert (Forall selfies_token (pre_tokenize false text)) as Hts.
  { unfold pre_tokenize. apply tokenize_loop_matches.
    intros q n. apply selfies_match_at_shape. }
  split; [done|]. unfold pre_tokenize at 1.
  apply tokenize_loop_tokens; [done | lia].
Qed.

(** *** SMILES mode *)

Lemma bracket_group_token body rest :
  body ≠ "" → Str.mem "]" body = false →
  Regex.bracket_group (("[" +:+ body +:+ "]") +:+ rest)
  = Some (String.length ("[" +:+ body +:+ "]")).
Proof.
  intros Hne Hm.
  change (("[" +:+ body +:+ "]") +:+ rest) with (String "[" ((body +:+ "]") +:+ rest)).
  rewrite app_assoc. cbn [Regex.bracket_group].
  rewrite bracket_body_app by done.
  destruct body as [|c body]; [done|].
  cbn [String.length]. f_equal. simpl. rewrite ?length_app. simpl. lia.
Qed.

Lemma atom_alone (x : ascii) rest (n : option nat) :
  match rest with String c _ => c ≠ x | "" => True end →
  match rest with
  | String c _ => if decide (c = x) then n else Some 1%nat
  | "" => Some 1%nat
  end = Some 1%nat.
Proof. destruct rest as [|c rest]; [done|]. intros Hc. by rewrite decide_False. Qed.

Lemma smiles_B rest :
  Regex.smiles_match_at (String "B" rest)
  = match rest with
    | String c _ => if decide (c = "r"%char) then Some 2%nat else Some 1%nat
    | "" => Some 1%nat
    end.
Proof.
  destruct rest as [|c rest]; [done|].
  case_decide as Hc; [by subst c|].
  destruct c as [[] [] [] [] [] [] [] []]; done.
Qed.

Lemma smiles_C rest :
  Regex.smiles_match_at (String "C" rest)
  = match rest with
    | String c _ => if decide (c = "l"%char) then Some 2%nat else Some 1%nat
    | "" => Some 1%nat
    end.
Proof.
  destruct rest as [|c rest]; [done|].
  case_decide as Hc; [by subst c|].
  destruct c as [[] [] [] [] [] [] [] []]; done.
Qed.

Lemma smiles_single_byte c rest :
  Regex.smiles_single c || Regex.is_digit c = true →
  Regex.smiles_match_at (String c rest) = Some 1%nat.
Proof.
  intros Hc. cbn [Regex.smiles_match_at].
  destruct (decide (c = "["%char)) as [-> | ?]; [by vm_compute in Hc|].
  destruct (decide (c = "B"%char)) as [-> | ?]; [by vm_compute in Hc|].
  destruct (decide (c = "C"%char)) as [-> | ?]; [by vm_compute in Hc|].
  destruct (decide (c = "%"%char)) as [-> | ?]; [by vm_compute in Hc|].
  by rewrite Hc.
Qed.

Lemma smiles_match_at_token t rest :
  smiles_token t → no_atom_tail rest →
  Regex.smiles_match_at (t +:+ rest) = Some (String.length t).
Proof.
  intros [(body & -> & Hne & Hm) | [Hin | [(d1 & d2 & -> & H1 & H2) | (c & -> & Hc)]]] Hrest.
  - rewrite <- (bracket_group_token body rest) by done. reflexivity.
  - repeat (apply elem_of_cons in Hin as [-> | Hin]).
    + done.
    + rewrite app_cons, app_nil_l, smiles_B.
      destruct rest as [|c rest]; [done|]. destruct Hrest as [Hr _].
      by rewrite decide_False.
    + done.
    + rewrite app_cons, app_nil_l, smiles_C.
      destruct rest as [|c rest]; [done|]. destruct Hrest as [_ Hl].
      by rewrite decide_False.
    + by apply elem_of_nil in Hin.
  - rewrite !app_cons, app_nil_l.
    assert (Regex.smiles_match_at (String "%" (String d1 (String d2 rest)))
            = if Regex.is_digit d1 && Regex.is_digit d2 then Some 3%nat else None)
      as -> by reflexivity.
    by rewrite H1, H2.
  - rewrite app_cons, app_nil_l. by apply smiles_single_byte.
Qed.

Lemma smiles_token_start t rest : smiles_token t → no_atom_tail (t +:+ rest).
Proof.
  intros [(body & -> & _) | [Hin | [(d1 & d2 & -> & _) | (c & -> & Hc)]]].
  - done.
  - repeat (apply elem_of_cons in Hin as [-> | Hin]); try done.
    by apply elem_of_nil in Hin.
  - done.
  - rewrite app_cons. split; intros ->; by vm_compute in Hc.
Qed.

Lemma smiles_token_length t : smiles_token t → (0 < String.length t)%nat.
Proof.
  intros [(body & -> & _) | [Hin | [(d1 & d2 & -> & _) | (c & -> & Hc)]]];
    [simpl; lia | | simpl; lia | simpl; lia].
  repeat (apply elem_of_cons in Hin as [-> | Hin]); try (simpl; lia).
  by apply elem_of_nil in Hin.
Qed.

Lemma no_atom_tail_cat (ts : list string) :
  Forall smiles_token ts → no_atom_tail (Str.cat ts).
Proof.
  intros [|t ts' Ht _]; [done|]. rewrite cat_cons. by apply smiles_token_start.
Qed.

Lemma tokenize_loop_smiles (ts : list string) fuel :
  Forall smiles_token ts →
  (String.length (Str.cat ts) < fuel)%nat →
  tokenize_loop Regex.smiles_match_at fuel (Str.cat ts) = ts.
Proof.
  revert fuel. induction ts as [|t ts IH]; intros fuel Hts Hfuel.
  - destruct fuel as [|fuel]; [simpl in Hfuel; lia | done].
  - apply Forall_cons in Hts as [Ht Hts].
    destruct fuel as [|fuel]; [lia|].
    rewrite cat_cons in *. cbn [tokenize_loop].
    rewrite regexec_unfold, smiles_match_at_token by (done || by apply no_atom_tail_cat).
    rewrite Nat.sub_0_r. cbn [Str.drop]. rewrite str_take_app, str_drop_app.
    f_equal. apply IH; [done|].
    rewrite length_app in Hfuel.
    pose proof (smiles_token_length t Ht). lia.
Qed.

(** X11: in SMILES mode the segmenter returns a text made of SMILES
    tokens as the list of these tokens: bracket groups, the two-byte atoms
    [Br] and [Cl], ring-closure numbers [%nn] and the single bytes of the
    pattern come back as they were written, none lost, merged or split. *)
Theorem smiles_tokens_round_trip (ts : list string) :
  Forall smiles_token ts → pre_tokenize true (Str.cat ts) = ts.
Proof.
  intros Hts. unfold pre_tokenize. apply tokenize_loop_smiles; [done | lia].
Qed.

Lemma smiles_tokens_round_trip_witness :
  Forall smiles_token ["C"; "C"; "("; "="; "O"; ")"; "Cl"; "[nH]"; "%12"; "Br"]
  ∧ pre_tokenize true "CC(=O)Cl[nH]%12Br"
    = ["C"; "C"; "("; "="; "O"; ")"; "Cl"; "[nH]"; "%12"; "Br"].
Proof.
  assert (Forall smiles_token ["C"; "C"; "("; "="; "O"; ")"; "Cl"; "[nH]"; "%12"; "Br"])
    as Hts.
  { assert (∀ t, t ∈ ["Br"; "B"; "Cl"; "C"] → smiles_token t) as Hatom
      by (intros t Ht; right; by left).
    assert (∀ c, Regex.smiles_single c || Regex.is_digit c = true →
                 smiles_token (String c "")) as Hbyte
      by (intros c Hc; do 3 right; by exists c).
    apply Forall_cons. split; [apply Hatom; set_solver|].
    apply Forall_cons. split; [apply Hatom; set_solver|].
    apply Forall_cons. split; [by apply Hbyte|].
    apply Forall_cons. split; [by apply Hbyte|].
    apply Forall_cons. split; [by apply Hbyte|].
    apply Forall_cons. split; [by apply Hbyte|].
    apply Forall_cons. split; [apply Hatom; set_solver|].
    apply Forall_cons. split; [left; by exists "nH"|].
    apply Forall_cons. split; [right; right; left; by exists "1"%char, "2"%char|].
    apply Forall_cons. split; [apply Hatom; set_solver|]. constructor. }
  split; [exact Hts|].
  exact (smiles_tokens_round_trip _ Hts).
Defined.

Lemma smiles_match_at_shape p n :
  Regex.smiles_match_at p = Some n → smiles_token (Str.take n p).
Proof.
  destruct p as [|c rest]; [done|].
  destruct (decide (c = "["%char)) as [-> | Hc1].
  { intros Hg. left. by apply bracket_group_shape. }
  destruct (decide (c = "B"%char)) as [-> | Hc2].
  { rewrite smiles_B. destruct rest as [|d rest].
    - intros [= <-]. right. left. set_solver.
    - case_decide as Hd; intros [= <-]; right; left; [subst d|]; set_solver. }
  destruct (decide (c = "C"%char)) as [-> | Hc3].
  { rewrite smiles_C. destruct rest as [|d rest].
    - intros [= <-]. right. left. set_solver.
    - case_decide as Hd; intros [= <-]; right; left; [subst d|]; set_solver. }
  cbn [Regex.smiles_match_at]. rewrite !decide_False by done.
  destruct (decide (c = "%"%char)) as [-> | Hc4].
  { destruct rest as [|d1 [|d2 rest]]; try done.
    destruct (Regex.is_digit d1) eqn:H1; [|done].
    destruct (Regex.is_digit d2) eqn:H2; [|done].
    intros [= <-]. right. right. left. by exists d1, d2. }
  destruct (Regex.smiles_single c || Regex.is_digit c) eqn:Hc; [|done].
  intros [= <-]. do 3 right. exists c. split; [by destruct rest | done].
Qed.

(** X12: every token the segmenter returns in SMILES mode is a SMILES
    token, whatever the text; segmenting the tokens written one after the
    other gives the same tokens again. *)
Theorem smiles_tokens_shape (text : string) :
  Forall smiles_token (pre_tokenize true text)
  ∧ pre_tokenize true (Str.cat (pre_tokenize true text)) = pre_tokenize true text.
Proof.
  assert (Forall smiles_token (pre_tokenize true text)) as Hts.
  { unfold pre_tokenize. apply tokenize_loop_matches.
    intros q n. apply smiles_match_at_shape. }
  split; [done|]. unfold pre_tokenize at 1.
  apply tokenize_loop_smiles; [done | lia].
Qed.

End SegmenterUse.

(** ** Training on a corpus file *)

Section TrainingUse.

Implicit Types (st : TrainState) (lines : list string).

Lemma fgets_loop_end room m :
  Str.mem "010" m = false → (String.length m ≤ room)%nat →
  C.fgets_loop room m = (m, "").
Proof.
  revert room. induction m as [|c m IH]; intros room Hm Hlen.
  - by destruct room.
  - destruct room as [|room]; [simpl in Hlen; lia|].
    cbn [Str.mem] in Hm. simpl in Hlen. cbn [C.fgets_loop].
    destruct (decide (c = "010"%char)) as [-> | Hc]; [done|].
    rewrite IH by (done || lia). done.
Qed.

Lemma chomp_no_nl m : Str.mem "010" m = false → C.chomp m = m.
Proof.
  induction m as [|c m IH]; [done|]. intros Hm. cbn [Str.mem] in Hm.
  destruct (decide (c = "010"%char)) as [-> | Hc]; [done|].
  destruct m as [|d m]; [by cbn; rewrite decide_False|].
  rewrite chomp_cons. f_equal. by apply IH.
Qed.

Lemma cstr_no_nul s : no_nul s → C.cstr s = s.
Proof.
  unfold no_nul, C.cstr. induction s as [|c s IH]; [done|].
  cbn [Str.mem C.span_until]. case_decide as Hc; [done|].
  intros Hm. rewrite bool_decide_false by done. f_equal. by apply IH.
Qed.

Lemma read_lines_last fuel last :
  Str.mem "010" last = false → no_nul last → Str.len last ≤ 65535 → (0 < fuel)%nat →
  read_lines fuel last = if decide (last = "") then [] else [last].
Proof.
  intros Hm Hz Hlen Hfuel. destruct fuel as [|fuel]; [lia|].
  cbn [read_lines]. destruct last as [|c last]; [done|].
  rewrite decide_False by done. unfold C.fgets.
  rewrite fgets_loop_end; [|done|].
  - rewrite cstr_no_nul, chomp_no_nl by done. by destruct fuel.
  - unfold Str.len in Hlen. lia.
Qed.

Lemma read_lines_cat lines last fuel :
  Forall corpus_line lines →
  Str.mem "010" last = false → no_nul last → Str.len last ≤ 65535 →
  (length lines < fuel)%nat →
  read_lines fuel (Str.cat ((λ l, l +:+ C.nl) <$> lines) +:+ last)
  = lines ++ (if decide (last = "") then [] else [last]).
Proof.
  intros Hlines Hm Hz Hlen. revert fuel.
  induction Hlines as [|l lines (Hl1 & Hl0 & Hl2) _ IH]; intros fuel Hfuel.
  - simpl. rewrite app_nil_l. by apply read_lines_last.
  - destruct fuel as [|fuel]; [simpl in Hfuel; lia|].
    rewrite fmap_cons, cat_cons, !app_assoc. cbn [read_lines].
    rewrite fgets_line by (done || lia).
    rewrite cstr_no_nul by (unfold no_nul in *; by rewrite mem_app, Hl0).
    rewrite chomp_line.
    cbn [app]. f_equal. apply IH. simpl in Hfuel. lia.
Qed.

Lemma length_cat_lines lines :
  (length lines ≤ String.length (Str.cat ((λ l, l +:+ C.nl) <$> lines)))%nat.
Proof.
  induction lines as [|l lines IH]; [done|].
  rewrite fmap_cons, cat_cons, !length_app. simpl. lia.
Qed.

(** X13: the corpus reader returns the lines of a file as they were
    written: for lines without a newline and without a NUL byte that fit
    the 65536-byte buffer, each followed by a newline, and a last line
    that may lack its newline, the lines read are these lines, in order. *)
Theorem read_lines_round_trip lines (last : string) :
  Forall corpus_line lines →
  Str.mem "010" last = false → no_nul last → Str.len last ≤ 65535 →
  let file := Str.cat ((λ l, l +:+ C.nl) <$> lines) +:+ last in
  read_lines (String.length file) file
  = lines ++ (if decide (last = "") then [] else [last]).
Proof.
  intros Hlines Hm Hz Hlen file.
  destruct (decide (last = "")) as [-> | Hne].
  - destruct lines as [|l lines]; [done|].
    rewrite <- (read_lines_fuel (S (String.length file))) by lia.
    rewrite <- (decide_True (P := "" = "") [] [""]) by done.
    apply read_lines_cat; try done.
    pose proof (length_cat_lines (l :: lines)).
    subst file. rewrite length_app. simpl in *. lia.
  - rewrite <- (decide_False (P := last = "") [] [last]) by done.
    apply read_lines_cat; try done.
    pose proof (length_cat_lines lines).
    subst file. rewrite length_app. destruct last; [done|]. simpl. lia.
Qed.

Lemma read_lines_round_trip_witness :
  Forall corpus_line ["[C][O]"; ""; "[N]"]
  ∧ Str.mem "010" "[S]" = false ∧ no_nul "[S]" ∧ Str.len "[S]" ≤ 65535
  ∧ read_lines 14 (String.app "[C][O]" (String.app C.nl (String.app C.nl
                     (String.app "[N]" (String.app C.nl "[S]")))))
    = ["[C][O]"; ""; "[N]"; "[S]"].
Proof.
  assert (Forall corpus_line ["[C][O]"; ""; "[N]"]) as Hlines.
  { repeat (apply Forall_cons; split; [by split|]). constructor. }
  assert (Str.mem "010" "[S]" = false) as Hm by reflexivity.
  assert (no_nul "[S]") as Hz by reflexivity.
  assert (Str.len "[S]" ≤ 65535) as Hlen by (by vm_compute).
  split; [exact Hlines|]. split; [exact Hm|]. split; [exact Hz|]. split; [exact Hlen|].
  exact (read_lines_round_trip ["[C][O]"; ""; "[N]"] "[S]" Hlines Hm Hz Hlen).
Defined.

Lemma first_pass_spec fmt lines vocab (n : nat) :
  fold_left (λ '(vocab, line_count) line,
               if decide (line = "") then (vocab, line_count)
               else (fold_left hash_insert_or_increment (pre_tokenize fmt line) vocab,
                     S line_count))
            lines (vocab, n)
  = (fold_left hash_insert_or_increment
               (concat (pre_tokenize fmt <$> filter (λ l, l ≠ "") lines)) vocab,
     (n + length (filter (λ l, l ≠ "") lines))%nat).
Proof.
  revert vocab n. induction lines as [|line lines IH]; intros vocab n.
  { simpl. f_equal. lia. }
  cbn [fold_left]. rewrite filter_cons.
  destruct (decide (line = "")) as [-> | Hne].
  - rewrite decide_False by (by intros ?). apply IH.
  - rewrite decide_True by done. rewrite IH, fmap_cons.
    cbn [concat]. rewrite fold_left_app, length_cons. f_equal. lia.
Qed.

Lemma second_pass_spec fmt lines (room : nat) :
  (length (filter (λ l, l ≠ "") lines) ≤ room)%nat →
  second_pass fmt lines room = pre_tokenize fmt <$> filter (λ l, l ≠ "") lines.
Proof.
  revert room. induction lines as [|line lines IH]; intros room Hroom.
  { by destruct room. }
  rewrite filter_cons in *.
  destruct (decide (line = "")) as [-> | Hne].
  - rewrite decide_False in * by (by intros ?).
    destruct room as [|room].
    + destruct (filter _ lines); [done | simpl in Hroom; lia].
    + cbn [second_pass]. rewrite decide_True by done. by apply IH.
  - rewrite decide_True in * by done. rewrite length_cons in Hroom.
    destruct room as [|room]; [lia|].
    cbn [second_pass]. rewrite decide_False by done.
    rewrite fmap_cons. f_equal. apply IH. lia.
Qed.

Lemma initial_state_eq fmt file :
  let lines := filter (λ l, l ≠ "") (read_lines (String.length file) file) in
  initial_state fmt file
  = mk_train (fold_left hash_insert_or_increment
                        (concat (pre_tokenize fmt <$> lines))
                        (ht_create HT_DEFAULT_SIZE))
             (pre_tokenize fmt <$> lines) [].
Proof.
  intros lines. unfold initial_state, first_pass.
  rewrite first_pass_spec. f_equal. by apply second_pass_spec.
Qed.

(** X14: when the merge loop starts, there is one token list for each
    non-empty line of the corpus file, in the order of the lines, and no
    merge yet: the second pass stores the token list of every line the
    first pass counted. The lines are those of [read_lines], the C strings
    the loop body sees: a line with a NUL byte counts up to that byte, and
    is skipped as empty when it starts with it. *)
Theorem initial_state_token_lists (fmt : bool) (file : string) :
  let lines := filter (λ l, l ≠ "") (read_lines (String.length file) file) in
  let st := initial_state fmt file in
  tr_all_tokens st = pre_tokenize fmt <$> lines
  ∧ length (tr_all_tokens st) = length lines
  ∧ tr_merges st = [].
Proof.
  intros lines st. subst st. rewrite initial_state_eq. cbn [tr_all_tokens tr_merges].
  split; [done|]. split; [apply length_fmap | done].
Qed.

(** X15: the initial vocabulary holds every token of the corpus with the
    number of times it occurs in all the token lists together, and no other
    key (the token lists being those of the lines as the loop body sees
    them, cut at a NUL byte). *)
Theorem initial_vocabulary_counts (fmt : bool) (file token : string) :
  let st := initial_state fmt file in
  hash_search (tr_vocab st) token = counted (concat (tr_all_tokens st)) token
  ∧ ht_tokens (tr_vocab st)
    = Z.of_nat (length (remove_dups (concat (tr_all_tokens st)))).
Proof.
  intros st. subst st. rewrite initial_state_eq. cbn [tr_all_tokens tr_vocab].
  split.
  - apply fold_insert_new. unfold HT_DEFAULT_SIZE. lia.
  - apply fold_insert_tokens. unfold HT_DEFAULT_SIZE. lia.
Qed.

Lemma bpe_round_merges st :
  ht_wf (tr_vocab st) →
  let st' := (bpe_round st).1 in
  (tr_merges st' = tr_merges st ∧ tr_vocab st' = tr_vocab st)
  ∨ ∃ best, tr_merges st' = tr_merges st ++ [best]
            ∧ Str.len best ≤ 255
            ∧ ht_tokens (tr_vocab st') ≤ ht_tokens (tr_vocab st) + 1.
Proof.
  intros Hwf st'. subst st'. pose proof (bpe_round_count st Hwf) as Hc.
  unfold bpe_round in *.
  destruct (get_best_pair _) as [[best_pair|] f] eqn:Hbest; [|by left].
  right. exists best_pair.
  apply get_best_pair_Some in Hbest as (item & Hin & <- & _).
  destruct (collect_pair_stats_spec (tr_all_tokens st)) as [_ Hlen].
  specialize (Hlen item Hin).
  destruct (split_pair (it_key item)) as [[first second]|].
  - cbn [fst tr_merges tr_vocab] in *. split; [done|]. split; [done | lia].
  - cbn [fst tr_merges tr_vocab] in *. split; [done|]. split; [done | lia].
Qed.

Lemma bpe_loop_merges n st :
  ht_wf (tr_vocab st) →
  let st' := bpe_loop n st in
  (length (tr_merges st') ≤ length (tr_merges st) + n)%nat
  ∧ ht_tokens (tr_vocab st') + Z.of_nat (length (tr_merges st))
    ≤ ht_tokens (tr_vocab st) + Z.of_nat (length (tr_merges st'))
  ∧ (Forall (λ m, Str.len m ≤ 255) (tr_merges st) →
     Forall (λ m, Str.len m ≤ 255) (tr_merges st')).
Proof.
  cbv zeta. revert st. induction n as [|n IH]; intros st Hwf; cbn [bpe_loop].
  { split; [lia|]. split; [lia | done]. }
  pose proof (bpe_round_wf st Hwf) as Hwf'.
  pose proof (bpe_round_merges st Hwf) as Hm. cbv zeta in Hm.
  destruct (bpe_round st) as [st1 continue]. cbn [fst] in *.
  assert ((length (tr_merges st1) ≤ length (tr_merges st) + 1)%nat
          ∧ ht_tokens (tr_vocab st1) + Z.of_nat (length (tr_merges st))
            ≤ ht_tokens (tr_vocab st) + Z.of_nat (length (tr_merges st1))
          ∧ (Forall (λ m, Str.len m ≤ 255) (tr_merges st) →
             Forall (λ m, Str.len m ≤ 255) (tr_merges st1))) as (H1 & H2 & H3).
  { destruct Hm as [[-> ->] | (best & -> & Hlen & Hc)].
    - split; [lia|]. split; [lia | done].
    - rewrite List.length_app. simpl. split; [lia|]. split; [lia|].
      intros Hall. apply Forall_app. split; [done|]. by repeat constructor. }
  destruct continue; [|split; [lia | done]].
  destruct (IH st1 Hwf') as (H1' & H2' & H3').
  split; [lia|]. split; [lia | auto].
Qed.

(** X16: training records at most [num_merges] merges, so the array
    allocated for them is never overrun; every recorded merge is at most
    255 bytes long; and the vocabulary gains at most one token for each
    merge recorded. *)
Theorem merges_within_bound (fmt : bool) (file : string) (num_merges : Z) :
  let st := train_corpus fmt file num_merges in
  Z.of_nat (length (tr_merges st)) ≤ Z.max 0 num_merges
  ∧ Forall (λ m, Str.len m ≤ 255) (tr_merges st)
  ∧ ht_tokens (tr_vocab st)
    ≤ ht_tokens (tr_vocab (initial_state fmt file)) + Z.of_nat (length (tr_merges st)).
Proof.
  intros st. subst st. unfold train_corpus.
  destruct (bpe_loop_merges (Z.to_nat num_merges) (initial_state fmt file)
              (initial_state_wf fmt file)) as (H1 & H2 & H3).
  rewrite initial_state_eq in H1, H2, H3. cbn [tr_merges] in H1, H2, H3.
  rewrite <- initial_state_eq in H1, H2, H3.
  split; [simpl in H1; lia|]. split; [by apply H3|].
  simpl in H2. lia.
Qed.

Lemma adjacent_pairs_short (tokens : TokenList) :
  (length tokens < 2)%nat → adjacent_pairs tokens = [].
Proof. destruct tokens as [|a [|b rest]]; simpl; [done | done | lia]. Qed.

Lemma collect_pair_stats_eq (all_tokens : list TokenList) :
  collect_pair_stats all_tokens
  = fold_left hash_insert_or_increment (concat (adjacent_pairs <$> all_tokens))
              (ht_create HT_DEFAULT_SIZE).
Proof.
  unfold collect_pair_stats. generalize (ht_create HT_DEFAULT_SIZE).
  induction all_tokens as [|tokens all_tokens IH]; intros stats; [done|].
  cbn [fold_left]. rewrite fmap_cons. cbn [concat]. rewrite fold_left_app, IH.
  f_equal. destruct (Nat.ltb_spec (length tokens) 2) as [Hshort | _]; [|done].
  by rewrite adjacent_pairs_short.
Qed.

Lemma get_best_pair_max stats key f :
  get_best_pair stats = (Some key, f) →
  ∀ item, item ∈ ht_entries stats → it_count item ≤ f.
Proof.
  rewrite get_best_pair_entries. intros Hbest item Hin.
  destruct (best_step_fold (ht_entries stats) (None, -1))
    as [[Hr _] | (l1 & x & l2 & Hl & Hr & _ & H1 & H2)].
  - rewrite Hr in Hbest. done.
  - rewrite Hr in Hbest. injection Hbest as _ <-.
    rewrite Hl in Hin. apply elem_of_app in Hin as [Hin | Hin].
    + rewrite Forall_forall in H1. specialize (H1 _ Hin). lia.
    + apply elem_of_cons in Hin as [-> | Hin]; [lia|].
      rewrite Forall_forall in H2. by apply H2.
Qed.

(** X17: the pair selected in a round of the training loop is a most
    frequent pair of neighbouring tokens of the corpus: it occurs in some
    molecule, the frequency reported is the number of places where it
    occurs in all the molecules, and no pair key occurs more often. *)
Theorem best_pair_most_frequent (all_tokens : list TokenList) (best_pair : string) (f : Z) :
  get_best_pair (collect_pair_stats all_tokens) = (Some best_pair, f) →
  let keys := concat (adjacent_pairs <$> all_tokens) in
  best_pair ∈ keys
  ∧ f = occurrences best_pair keys
  ∧ ∀ key, occurrences key keys ≤ f.
Proof.
  intros Hbest keys.
  assert (0 ≤ HT_DEFAULT_SIZE < 2 ^ 32) as Hs by (unfold HT_DEFAULT_SIZE; lia).
  destruct (collect_pair_stats_spec all_tokens) as [Hwf _].
  pose proof (get_best_pair_max _ _ _ Hbest) as Hmax.
  apply get_best_pair_Some in Hbest as (item & Hin & Hkey & Hf).
  assert (hash_search (collect_pair_stats all_tokens) best_pair = Some item) as Hfound
    by (by apply hash_search_Some).
  rewrite collect_pair_stats_eq in Hfound, Hmax, Hwf.
  rewrite fold_insert_new in Hfound by done. fold keys in Hfound, Hmax, Hwf.
  unfold counted in Hfound. case_decide as Hbk; [|done].
  injection Hfound as <-. cbn [it_count] in Hf.
  split; [done|]. split; [done|]. intros key.
  destruct (decide (key ∈ keys)) as [Hk | Hk].
  - apply (Hmax (mk_item key (occurrences key keys))).
    apply hash_search_Some with (key := key); [done|].
    rewrite fold_insert_new by done. unfold counted. by rewrite decide_True.
  - rewrite occurrences_zero by done. pose proof (occurrences_pos _ _ Hbk). lia.
Qed.

Lemma best_pair_most_frequent_witness :
  let all_tokens := [["[C]"; "[C]"; "[N]"]; ["[C]"; "[C]"]] in
  get_best_pair (collect_pair_stats all_tokens) = (Some "[C] [C]", 2)
  ∧ occurrences "[C] [N]" (concat (adjacent_pairs <$> all_tokens)) ≤ 2.
Proof.
  intros all_tokens.
  assert (get_best_pair (collect_pair_stats all_tokens) = (Some "[C] [C]", 2)) as Hbest
    by (vm_compute; reflexivity).
  split; [exact Hbest|].
  exact (proj2 (proj2 (best_pair_most_frequent all_tokens "[C] [C]" 2 Hbest)) "[C] [N]").
Defined.

Lemma concat_length_lt {A} (f : list A → list A) (ls : list (list A)) l :
  (∀ l, length (f l) ≤ length l)%nat →
  l ∈ ls → (length (f l) < length l)%nat →
  (length (concat (f <$> ls)) < length (concat ls))%nat.
Proof.
  intros Hle Hin Hlt.
  assert (∀ ls' : list (list A),
            (length (concat (f <$> ls')) ≤ length (concat ls'))%nat) as Hall.
  { induction ls' as [|l' ls' IH]; [done|].
    rewrite fmap_cons. cbn [concat]. rewrite !List.length_app.
    specialize (Hle l'). lia. }
  induction ls as [|l' ls IH]; [by apply elem_of_nil in Hin|].
  rewrite fmap_cons. cbn [concat]. rewrite !List.length_app.
  apply elem_of_cons in Hin as [<- | Hin].
  - specialize (Hall ls). lia.
  - specialize (IH Hin). specialize (Hle l'). lia.
Qed.

(** X18: a round of the merge loop that goes on merges at least one pair
    of neighbours: when the tokens contain no space and are at most 126
    bytes long, all the molecules together have fewer tokens after the
    round than before. *)
Theorem bpe_round_merges_a_pair st st' :
  Forall (Forall (λ t, Str.mem " " t = false ∧ Str.len t ≤ 126)) (tr_all_tokens st) →
  bpe_round st = (st', true) →
  (total_tokens (tr_all_tokens st') < total_tokens (tr_all_tokens st))%nat.
Proof.
  intros Htok. unfold bpe_round.
  destruct (get_best_pair _) as [[best_pair|] f] eqn:Hbest; [|done].
  destruct (split_pair best_pair) as [[first second]|] eqn:Hsplit; [|done].
  intros [= <-]. cbn [tr_all_tokens]. unfold total_tokens.
  apply get_best_pair_Some in Hbest as (item & Hin & Hkey & _).
  assert (best_pair ∈ concat (adjacent_pairs <$> tr_all_tokens st)) as Hbk.
  { destruct (decide (best_pair ∈ concat (adjacent_pairs <$> tr_all_tokens st)))
      as [|Hno]; [done|]. exfalso.
    assert (hash_search (collect_pair_stats (tr_all_tokens st)) best_pair = Some item)
      as Hfound.
    { apply hash_search_Some; [|done]. apply collect_pair_stats_spec. }
    rewrite collect_pair_stats_eq, fold_insert_new in Hfound
      by (unfold HT_DEFAULT_SIZE; lia).
    unfold counted in Hfound. by rewrite decide_False in Hfound. }
  apply elem_of_concat in Hbk as (keys & Hbk & Hkeys).
  apply list_elem_of_fmap in Hkeys as (tokens & -> & Htokens).
  apply adjacent_pairs_elem in Hbk as (x & y & Hadj & Hxy).
  rewrite Forall_forall in Htok. specialize (Htok _ Htokens).
  rewrite Forall_forall in Htok.
  apply has_adjacent_elem in Hadj as Hxyin. destruct Hxyin as [Hx Hy].
  destruct (Htok _ Hx) as [Hxs Hxl]. destruct (Htok _ Hy) as [_ Hyl].
  assert (best_pair = x +:+ String " " y) as Hbest.
  { rewrite Hxy. unfold pair_key. apply snprintf256_fits.
    rewrite len_app. unfold Str.len in *. simpl. lia. }
  rewrite Hbest, split_pair_app in Hsplit by done. injection Hsplit as <- <-.
  apply (concat_length_lt (λ tokens, merge_pair tokens best_pair) _ tokens).
  - intros l. apply merge_pair_length.
  - done.
  - unfold merge_pair. rewrite Hbest, split_pair_app by done.
    by apply merge_loop_lengths.
Qed.

Lemma bpe_round_merges_a_pair_witness :
  let st := mk_train (ht_create 10) [["[C]"; "[C]"; "[N]"]] [] in
  Forall (Forall (λ t, Str.mem " " t = false ∧ Str.len t ≤ 126)) (tr_all_tokens st)
  ∧ (bpe_round st).2 = true
  ∧ (total_tokens (tr_all_tokens (bpe_round st).1) < 3)%nat.
Proof.
  intros st.
  assert (Forall (Forall (λ t, Str.mem " " t = false ∧ Str.len t ≤ 126))
                 (tr_all_tokens st)) as Htok.
  { repeat (constructor; [repeat (constructor; [by split|]); constructor|]).
    constructor. }
  assert ((bpe_round st).2 = true) as Hgo by (vm_compute; reflexivity).
  assert (bpe_round st = ((bpe_round st).1, true)) as Hround.
  { destruct (bpe_round st) as [st' continue]. simpl in Hgo. by rewrite Hgo. }
  split; [exact Htok|]. split; [exact Hgo|].
  exact (bpe_round_merges_a_pair st (bpe_round st).1 Htok Hround).
Defined.

(** X19: [train_bpe_from_file] fails only for a negative number of
    merges, a corpus file that cannot be opened, or an output path of
    [PATH_MAX] bytes or more, and a failed call leaves every file as it
    was. A call that succeeds returns the vocabulary of the training and
    changes no file but the three it writes. *)
Theorem train_bpe_from_file_files (fmt : bool) (output_directory : string)
  (fs : FileSystem) (corpus_file : string) (num_merges : Z) :
  let vocab_base := output_directory +:+ "/vocab_" +:+ C.print_int num_merges in
  let result := train_bpe_from_file fmt output_directory fs corpus_file num_merges in
  match result.2 with
  | None =>
      result.1 = fs
      ∧ (num_merges < 0 ∨ fs !! corpus_file = None
         ∨ PATH_MAX ≤ Str.len (vocab_base +:+ ".txt"))
  | Some vocab =>
      0 ≤ num_merges
      ∧ (∃ file, fs !! corpus_file = Some file
                 ∧ vocab = tr_vocab (train_corpus fmt file num_merges))
      ∧ Str.len (vocab_base +:+ ".txt") < PATH_MAX
      ∧ ∀ name, name ≠ vocab_base +:+ ".txt" →
                name ≠ json_vocab_filename vocab_base →
                name ≠ json_freq_filename vocab_base →
                result.1 !! name = fs !! name
  end.
Proof.
  intros vocab_base result. subst result. unfold train_bpe_from_file.
  destruct (Z.ltb_spec num_merges 0) as [Hneg | Hpos].
  { cbn [fst snd]. split; [done | by left]. }
  destruct (fs !! corpus_file) as [file|] eqn:Hfile.
  2: { cbn [fst snd]. split; [done | right; by left]. }
  fold vocab_base.
  assert (Str.len vocab_base ≤ Str.len (vocab_base +:+ ".txt")) as Hlen.
  { rewrite len_app. pose proof (len_nonneg ".txt"). lia. }
  destruct (Z.leb_spec PATH_MAX (Str.len (vocab_base +:+ ".txt"))) as [Hlong | Hfits].
  { cbn [orb fst snd]. split; [done | right; by right]. }
  destruct (Z.leb_spec PATH_MAX (Str.len vocab_base)) as [Hlong | _]; [lia|].
  cbn [orb fst snd]. split; [done|]. split; [by exists file|]. split; [done|].
  intros name Ht Hj Hf. unfold save_vocabulary_json, save_vocabulary. cbn [fst].
  by rewrite !lookup_insert_ne.
Qed.

Lemma bpe_round_text st :
  Str.cat <$> tr_all_tokens (bpe_round st).1 = Str.cat <$> tr_all_tokens st.
Proof.
  unfold bpe_round.
  destruct (get_best_pair _) as [[best_pair|] f] eqn:Hbest; [|done].
  destruct (split_pair best_pair) as [[first second]|] eqn:Hsplit; [|done].
  cbn [fst tr_all_tokens]. rewrite <- list_fmap_compose.
  apply list_fmap_ext. intros _ tokens _. cbn.
  unfold merge_pair. rewrite Hsplit. apply merge_loop_cat.
  apply get_best_pair_Some in Hbest as (item & Hin & <- & _).
  apply (proj2 (collect_pair_stats_spec (tr_all_tokens st))) in Hin.
  apply split_pair_Some in Hsplit as [Hpair _].
  rewrite Hpair, len_app in Hin. unfold Str.len in *. simpl in Hin. lia.
Qed.

Lemma bpe_loop_text n st :
  Str.cat <$> tr_all_tokens (bpe_loop n st) = Str.cat <$> tr_all_tokens st.
Proof.
  revert st. induction n as [|n IH]; intros st; [done|].
  cbn [bpe_loop]. pose proof (bpe_round_text st) as Hround.
  destruct (bpe_round st) as [st' continue]. cbn [fst] in Hround.
  destruct continue; [by rewrite IH | done].
Qed.

(** X20: training never alters the text of a molecule: after any number
    of merges there are as many token lists as before, and the tokens of
    each list, written one after the other, spell what the tokens of the
    segmenter spelt for its line (the line as the loop body sees it, cut at
    a NUL byte). The pair keys are at most 255 bytes long, so no merged
    token is ever cut by its buffer. *)
Theorem training_preserves_text (fmt : bool) (file : string) (num_merges : Z) :
  let lines := filter (λ l, l ≠ "") (read_lines (String.length file) file) in
  Str.cat <$> tr_all_tokens (train_corpus fmt file num_merges)
  = (λ line, Str.cat (pre_tokenize fmt line)) <$> lines.
Proof.
  intros lines. unfold train_corpus. rewrite bpe_loop_text, initial_state_eq.
  cbn [tr_all_tokens]. by rewrite <- list_fmap_compose.
Qed.

End TrainingUse.

(** ** Training on a text *)

Section TextTraining.

Implicit Types (st : TextState) (tokens : TokenList).

Lemma tokenize_loop_within match_at fuel p :
  (∀ q n, match_at q = Some n → (0 < n ≤ String.length q)%nat) →
  (String.length (Str.cat (tokenize_loop match_at fuel p)) ≤ String.length p)%nat.
Proof.
  intros Hb. revert p. induction fuel as [|fuel IH]; intros p; cbn [tokenize_loop].
  { simpl. lia. }
  destruct (Regex.regexec match_at p) as [[so eo]|] eqn:Hr; [|simpl; lia].
  apply (regexec_bound match_at Hb) in Hr.
  rewrite cat_cons, length_app, length_take, length_drop.
  specialize (IH (Str.drop eo p)). rewrite length_drop in IH. lia.
Qed.

Lemma pre_tokenize_within fmt text :
  Str.len (Str.cat (pre_tokenize fmt text)) ≤ Str.len text.
Proof.
  unfold Str.len, pre_tokenize. apply inj_le, tokenize_loop_within.
  destruct fmt; [apply smiles_match_at_bound | apply selfies_match_at_bound].
Qed.

Lemma elem_cat_len t tokens : t ∈ tokens → Str.len t ≤ Str.len (Str.cat tokens).
Proof.
  induction tokens as [|a tokens IH]; intros Hin; [by apply elem_of_nil in Hin|].
  rewrite cat_cons, len_app.
  pose proof (len_nonneg a). pose proof (len_nonneg (Str.cat tokens)).
  apply elem_of_cons in Hin as [-> | Hin]; [lia|]. specialize (IH Hin). lia.
Qed.

Lemma mem_take_sep n x y :
  (String.length x < n)%nat → Str.mem " " (Str.take n (x +:+ String " " y)) = true.
Proof.
  revert n. induction x as [|c x IH]; intros n Hlen.
  - destruct n as [|n]; [lia|]. done.
  - destruct n as [|n]; [lia|]. simpl in Hlen.
    rewrite app_cons. cbn [Str.take Str.mem].
    case_decide; [done|]. apply IH. lia.
Qed.

(** A round on a text shorter than the buffers never frees a list that
    is used again. *)
Lemma text_round_short st :
  ht_wf (tx_vocab st) → Str.len (Str.cat (tx_tokens st)) < 255 →
  match text_round st with
  | round_break st' => st' = st
  | round_next st' =>
      ht_wf (tx_vocab st')
      ∧ Str.cat (tx_tokens st') = Str.cat (tx_tokens st)
      ∧ ∃ best, tx_merges st' = tx_merges st ++ [best]
  | round_undefined => False
  end.
Proof.
  intros Hwf Hlen. unfold text_round.
  pose proof (get_pair_stats_keys (tx_tokens st)) as Hstats.
  destruct (get_pair_stats (tx_tokens st)) as [stats|]; [|done].
  destruct Hstats as [Hwfs Hcounted].
  destruct (get_best_pair stats) as [[best|] f] eqn:Hbest; [|done].
  apply get_best_pair_Some in Hbest as (item & Hin & Hkey & _).
  assert (hash_search stats best = Some item) as Hfound by (by apply hash_search_Some).
  rewrite Hcounted in Hfound. unfold counted in Hfound.
  case_decide as Hbk; [|done]. clear Hfound.
  apply adjacent_pairs_elem in Hbk as (x & y & Hadj & Hxy).
  apply has_adjacent_elem in Hadj as [Hx _].
  apply elem_cat_len in Hx.
  destruct (split_pair best) as [[first second]|] eqn:Hsplit.
  - split; [by apply hash_insert_or_increment_wf|]. split; [|by exists best].
    cbn [tx_tokens]. unfold merge_pair. rewrite Hsplit. apply merge_loop_cat.
    apply split_pair_Some in Hsplit as [Hpair _].
    pose proof (snprintf256_len (x +:+ " " +:+ y)) as Hb.
    fold (pair_key x y) in Hb. rewrite <- Hxy, Hpair, len_app in Hb.
    unfold Str.len in *. simpl in Hb. lia.
  - apply split_pair_None in Hsplit.
    assert (Str.mem " " (pair_key x y) = true) as Hm.
    { apply (mem_take_sep 255 x y). unfold Str.len in *. lia. }
    rewrite <- Hxy in Hm. congruence.
Qed.

Lemma text_loop_short n st :
  ht_wf (tx_vocab st) → Str.len (Str.cat (tx_tokens st)) < 255 →
  ∃ st', text_loop n st = Some st'
         ∧ ht_wf (tx_vocab st')
         ∧ Str.cat (tx_tokens st') = Str.cat (tx_tokens st)
         ∧ (length (tx_merges st') ≤ length (tx_merges st) + n)%nat.
Proof.
  revert st. induction n as [|n IH]; intros st Hwf Hlen; cbn [text_loop].
  { exists st. split; [done|]. split; [done|]. split; [done | lia]. }
  pose proof (text_round_short st Hwf Hlen) as Hround.
  destruct (text_round st) as [st1 | st1 |]; [| |done].
  - subst st1. exists st. split; [done|]. split; [done|]. split; [done | lia].
  - destruct Hround as (Hwf1 & Hcat1 & best & Hm1).
    destruct (IH st1 Hwf1) as (st' & Hloop & Hwf' & Hcat' & Hm'); [by rewrite Hcat1|].
    exists st'. split; [done|]. split; [done|]. split; [congruence|].
    rewrite Hm1, List.length_app in Hm'. simpl in Hm'. lia.
Qed.

(** X21: on a text shorter than 255 bytes [train_bpe] never uses the token
    list after freeing it. It returns [NULL] and writes nothing when the
    number of merges is not positive; otherwise it returns a table, leaves
    a token list that still spells the tokens of the text, records at most
    [num_merges] merges, and writes the vocabulary and the merges to
    [vocab.txt]. *)
Theorem train_bpe_on_short_text (fmt : bool) (fs : FileSystem) (text : string)
  (num_merges : Z) :
  Str.len text < 255 →
  if num_merges <=? 0 then train_bpe fmt fs text num_merges = Some (fs, None)
  else
    ∃ st fs',
      text_loop (Z.to_nat num_merges) (initial_text_state fmt text) = Some st
      ∧ train_bpe fmt fs text num_merges = Some (fs', Some (tx_vocab st))
      ∧ ht_wf (tx_vocab st)
      ∧ Str.cat (tx_tokens st) = Str.cat (pre_tokenize fmt text)
      ∧ Z.of_nat (length (tx_merges st)) ≤ num_merges
      ∧ fs' !! "vocab.txt" = Some (vocabulary_text (tx_vocab st) (tx_merges st)).
Proof.
  intros Hlen. unfold train_bpe.
  destruct (Z.leb_spec num_merges 0) as [Hn | Hn]; [done|].
  destruct (text_loop_short (Z.to_nat num_merges) (initial_text_state fmt text))
    as (st & Hloop & Hwf & Hcat & Hm).
  { apply fold_insert_wf, ht_create_wf. lia. }
  { cbn [initial_text_state tx_tokens]. pose proof (pre_tokenize_within fmt text). lia. }
  rewrite Hloop. eexists st, _. split; [done|]. split; [reflexivity|].
  split; [done|]. split; [done|]. split; [simpl in Hm; lia|].
  unfold save_vocabulary_json, save_vocabulary. cbn [fst].
  rewrite !lookup_insert_ne by done. by rewrite lookup_insert_eq.
Qed.

Lemma train_bpe_on_short_text_witness :
  Str.len "[C][C][N][C][C]" < 255
  ∧ ∃ st fs',
      train_bpe false ∅ "[C][C][N][C][C]" 2 = Some (fs', Some (tx_vocab st))
      ∧ Str.cat (tx_tokens st) = "[C][C][N][C][C]"
      ∧ Z.of_nat (length (tx_merges st)) ≤ 2.
Proof.
  assert (Str.len "[C][C][N][C][C]" < 255) as Hlen by reflexivity.
  split; [exact Hlen|].
  destruct (train_bpe_on_short_text false ∅ "[C][C][N][C][C]" 2 Hlen)
    as (st & fs' & _ & Htrain & _ & Hcat & Hm & _).
  exists st, fs'. split; [exact Htrain|]. split; [exact Hcat | exact Hm].
Defined.



Lemma get_best_pair_None stats f :
  get_best_pair stats = (None, f) →
  ∀ item, item ∈ ht_entries stats → it_count item < 0.
Proof.
  rewrite get_best_pair_entries. intros Hbest item Hin.
  destruct (best_step_fold (ht_entries stats) (None, -1))
    as [[_ Hall] | (l1 & x & l2 & _ & Hr & _)].
  - rewrite Forall_forall in Hall. specialize (Hall _ Hin). simpl in Hall. lia.
  - rewrite Hr in Hbest. done.
Qed.

Lemma str_take_long n a s :
  (n ≤ String.length a)%nat → Str.take n (a +:+ s) = Str.take n a.
Proof.
  revert a. induction n as [|n IH]; intros a Hlen.
  - by destruct a, s.
  - destruct a as [|c a]; [simpl in Hlen; lia|].
    rewrite app_cons. cbn [Str.take]. f_equal. apply IH. simpl in Hlen. lia.
Qed.

Lemma mem_take c n s : Str.mem c s = false → Str.mem c (Str.take n s) = false.
Proof.
  revert n. induction s as [|d s IH]; intros n Hm; [by destruct n|].
  destruct n as [|n]; [done|]. cbn [Str.take Str.mem] in *.
  case_decide; [done|]. by apply IH.
Qed.

Lemma split_pair_no_space pair : Str.mem " " pair = false → split_pair pair = None.
Proof.
  intros Hm. destruct (split_pair pair) as [[first second]|] eqn:Hsplit; [|done].
  apply split_pair_Some in Hsplit as [-> _].
  rewrite mem_app in Hm. cbn [Str.mem] in Hm.
  rewrite decide_True in Hm by done. by rewrite orb_true_r in Hm.
Qed.

Lemma text_round_long_token st a b :
  tx_tokens st = [a; b] → 255 ≤ Str.len a → Str.mem " " a = false →
  text_round st = round_undefined.
Proof.
  intros Htokens Hlen Hm. unfold text_round. rewrite Htokens.
  pose proof (get_pair_stats_keys [a; b]) as Hstats.
  change (get_pair_stats [a; b])
    with (Some (count_pairs (ht_create (HT_DEFAULT_SIZE / 10)) [a; b])) in *.
  revert Hstats. generalize (count_pairs (ht_create (HT_DEFAULT_SIZE / 10)) [a; b]).
  intros stats [Hwf Hcounted].
  assert (split_pair (pair_key a b) = None) as Hsplit.
  { apply split_pair_no_space. unfold pair_key, snprintf256.
    rewrite str_take_long by (unfold Str.len in Hlen; lia). by apply mem_take. }
  assert (pair_key a b ∈ adjacent_pairs [a; b]) as Hin by apply list_elem_of_here.
  destruct (get_best_pair stats) as [[best|] f] eqn:Hbest.
  - apply get_best_pair_Some in Hbest as (item & Hitem & Hkey & _).
    assert (hash_search stats best = Some item) as Hfound by (by apply hash_search_Some).
    rewrite Hcounted in Hfound. unfold counted in Hfound.
    case_decide as Hbk; [|done].
    apply list_elem_of_singleton in Hbk as ->. by rewrite Hsplit.
  - exfalso.
    assert (mk_item (pair_key a b) (occurrences (pair_key a b) (adjacent_pairs [a; b]))
            ∈ ht_entries stats) as Hitem.
    { apply (hash_search_Some stats (pair_key a b)); [done|].
      rewrite Hcounted. unfold counted. by rewrite decide_True. }
    apply (get_best_pair_None _ _ Hbest) in Hitem. cbn [it_count] in Hitem.
    pose proof (occurrences_pos _ _ Hin). lia.
Qed.

(** X23: [train_bpe] frees the token list while it is still in use when
    the text has two tokens of which the first is 255 bytes or longer and
    has no space: the key of the only pair is cut to 255 bytes and loses
    its space, [merge_pair] returns the list it was given, and that list is
    freed. *)
Theorem train_bpe_long_token (fmt : bool) (fs : FileSystem) (text a b : string)
  (num_merges : Z) :
  pre_tokenize fmt text = [a; b] → 255 ≤ Str.len a → Str.mem " " a = false →
  0 < num_merges →
  train_bpe fmt fs text num_merges = None.
Proof.
  intros Htokens Hlen Hm Hn. unfold train_bpe.
  destruct (Z.leb_spec num_merges 0) as [? | _]; [lia|].
  destruct (Z.to_nat num_merges) as [|n] eqn:Hnat; [lia|].
  cbn [text_loop].
  by rewrite (text_round_long_token (initial_text_state fmt text) a b Htokens Hlen Hm).
Qed.

Lemma train_bpe_long_token_witness :
  let a := "[" +:+ Str.cat (replicate 253 "C") +:+ "]" in
  pre_tokenize false (a +:+ ".") = [a; "."]
  ∧ 255 ≤ Str.len a ∧ Str.mem " " a = false ∧ 0 < 1
  ∧ train_bpe false ∅ (a +:+ ".") 1 = None.
Proof.
  intros a.
  assert (pre_tokenize false (a +:+ ".") = [a; "."]) as Htokens
    by (vm_compute; reflexivity).
  assert (255 ≤ Str.len a) as Hlen by (by vm_compute).
  assert (Str.mem " " a = false) as Hm by (vm_compute; reflexivity).
  assert (0 < 1) as Hn by lia.
  split; [exact Htokens|]. split; [exact Hlen|]. split; [exact Hm|]. split; [exact Hn|].
  exact (train_bpe_long_token false ∅ (a +:+ ".") a "." 1 Htokens Hlen Hm Hn).
Defined.

End TextTraining.

(** ** The text format *)

Section TextFormatUse.

Lemma chomp_cons_visible c s :
  c ≠ "010"%char → C.chomp (String c s) = String c (C.chomp s).
Proof.
  intros Hc. destruct s as [|d s]; [|apply chomp_cons].
  cbn. by rewrite decide_False.
Qed.

(** The line [fgets] returns has at most [room] bytes, and a newline only
    at its end. *)
Lemma fgets_loop_chomp room file :
  (String.length (C.chomp (C.fgets_loop room file).1) ≤ room)%nat
  ∧ Str.mem "010" (C.chomp (C.fgets_loop room file).1) = false.
Proof.
  revert file. induction room as [|room IH]; intros file; [by destruct file|].
  destruct file as [|c file]; [simpl; split; [lia | done]|]. cbn [C.fgets_loop].
  destruct (decide (c = "010"%char)) as [-> | Hc].
  { cbn [fst C.chomp]. rewrite decide_True by done. simpl. split; [lia | done]. }
  specialize (IH file). destruct (C.fgets_loop room file) as [line rest].
  cbn [fst] in *. rewrite chomp_cons_visible by done.
  destruct IH as [IH1 IH2]. cbn [String.length Str.mem].
  rewrite decide_False by done. split; [lia | done].
Qed.

Lemma read_merges_spec (n : nat) file merges rest :
  read_merges n file = Some (merges, rest) →
  length merges = n
  ∧ Forall (λ m, Str.len m ≤ 255 ∧ Str.mem "010" m = false) merges.
Proof.
  revert file merges rest. induction n as [|n IH]; intros file merges rest.
  { intros [= <- <-]. by split. }
  cbn [read_merges]. unfold C.fgets. destruct file as [|c file]; [done|].
  pose proof (fgets_loop_chomp (Z.to_nat (256 - 1)) (String c file)) as Hline.
  destruct (C.fgets_loop _ (String c file)) as [line file'].
  destruct (read_merges n file') as [[merges' rest']|] eqn:Hrest; [|done].
  intros [= <- <-]. destruct (IH _ _ _ Hrest) as [Hlen Hall].
  split; [simpl; by rewrite Hlen|]. constructor; [|done].
  cbn [fst] in Hline. unfold Str.len. split; [lia | apply Hline].
Qed.

(** Numbers of at most nine digits are below 10^9. *)
Lemma digit_runs_mono s (run run' : nat) :
  (run' ≤ run)%nat → digit_runs s run = true → digit_runs s run' = true.
Proof.
  revert run run'. induction s as [|c s IH]; intros run run' Hle; [done|].
  cbn [digit_runs]. destruct (C.isdigit c); [|done].
  intros [Hlt Hs]%andb_true_iff. apply Nat.ltb_lt in Hlt.
  apply andb_true_iff. split; [apply Nat.ltb_lt; lia|].
  apply (IH (S run)); [lia | done].
Qed.

Lemma digit_runs_tail c s run : digit_runs (String c s) run = true → digit_runs s 0 = true.
Proof.
  cbn [digit_runs]. destruct (C.isdigit c); [|done].
  intros [_ Hs]%andb_true_iff. apply (digit_runs_mono s (S run)); [lia | done].
Qed.

Lemma digit_runs_skip_space s : digit_runs s 0 = true → digit_runs (C.skip_space s) 0 = true.
Proof.
  induction s as [|c s IH]; [done|]. intros Hs. cbn [C.skip_space].
  destruct (C.isspace c); [|done]. by apply IH, (digit_runs_tail c s 0%nat).
Qed.

Lemma digit_value_bound c : C.isdigit c = true → 0 ≤ C.digit_value c ≤ 9.
Proof.
  unfold C.isdigit, Regex.is_digit, C.digit_value.
  intros [H1 H2]%andb_true_iff. apply N.leb_le in H1, H2. lia.
Qed.

Lemma scan_digits_bound s (run : nat) acc :
  digit_runs s run = true → (run ≤ 9)%nat → 0 ≤ acc < 10 ^ Z.of_nat run →
  0 ≤ (C.scan_digits s acc).1 < 10 ^ 9.
Proof.
  revert run acc. induction s as [|c s IH]; intros run acc Hs Hrun Hacc.
  - cbn. split; [lia|]. eapply Z.lt_le_trans; [apply Hacc|].
    apply Z.pow_le_mono_r; lia.
  - cbn [C.scan_digits digit_runs] in *. destruct (C.isdigit c) eqn:Hc.
    + apply andb_true_iff in Hs as [Hlt Hs]. apply Nat.ltb_lt in Hlt.
      apply (IH (S run)); [done | lia |].
      pose proof (digit_value_bound c Hc).
      rewrite Nat2Z.inj_succ, Z.pow_succ_r by lia. lia.
    + cbn. split; [lia|]. eapply Z.lt_le_trans; [apply Hacc|].
      apply Z.pow_le_mono_r; lia.
Qed.

Lemma scan_int_bound s n rest :
  short_numbers s → C.scan_int s = Some (n, rest) → - 10 ^ 9 < n < 10 ^ 9.
Proof.
  unfold short_numbers, C.scan_int. intros Hs%digit_runs_skip_space.
  assert (digit_runs (C.scan_sign (C.skip_space s)).2 0 = true) as Hs'.
  { unfold C.scan_sign. destruct (C.skip_space s) as [|c s']; [done|].
    repeat case_decide; cbn [snd]; try done; by apply (digit_runs_tail c s' 0%nat). }
  destruct (C.scan_sign (C.skip_space s)) as [neg s1]. cbn [snd] in Hs'.
  destruct s1 as [|c s2]; [done|]. destruct (C.isdigit c); [|done].
  pose proof (scan_digits_bound (String c s2) 0 0 Hs') as Hb.
  destruct (C.scan_digits (String c s2) 0) as [v rest']. cbn [fst] in Hb.
  intros [= <- _]. assert (0 ≤ v < 10 ^ 9) by (apply Hb; simpl; lia).
  destruct neg; lia.
Qed.

(** X24: for a vocabulary file without NUL bytes in which every number
    fits an [int] (none has more than nine digits): when [load_vocabulary]
    succeeds, the file starts with a number, which is not negative and
    fits an [int], and the loader returns exactly that many merges; every
    merge returned is at most 255 bytes long and contains no newline. *)
Theorem load_vocabulary_merges (fs : FileSystem) (filename file : string)
  (vocab : HashTable) (merges : list string) :
  fs !! filename = Some file → no_nul file → short_numbers file →
  load_vocabulary fs filename = Some (vocab, merges) →
  (∃ merge_count rest,
      C.scan_int file = Some (merge_count, rest)
      ∧ 0 ≤ merge_count < 2 ^ 31
      ∧ merge_count = Z.of_nat (length merges))
  ∧ Forall (λ m, Str.len m ≤ 255 ∧ Str.mem "010" m = false) merges.
Proof.
  intros Hfile _ Hnum. unfold load_vocabulary. rewrite Hfile.
  destruct (C.scan_int file) as [[merge_count rest]|] eqn:Hscan; [|done].
  pose proof (scan_int_bound _ _ _ Hnum Hscan) as Hbound.
  destruct (Z.ltb_spec merge_count 0) as [? | Hn]; [done|].
  destruct (read_merges _ _) as [[merges' rest']|] eqn:Hmerges; [|done].
  intros [= _ <-]. apply read_merges_spec in Hmerges as [Hlen Hall].
  split; [|done]. exists merge_count, rest. split; [done|]. split; lia.
Qed.

Lemma scan_word_spec width s :
  (String.length (C.scan_word width s).1 ≤ width)%nat
  ∧ Str.all (λ c, negb (C.isspace c)) (C.scan_word width s).1 = true.
Proof.
  revert s. induction width as [|width IH]; intros s; [by destruct s|].
  destruct s as [|c s]; [simpl; split; [lia | done]|]. cbn [C.scan_word].
  destruct (C.isspace c) eqn:Hc; [simpl; split; [lia | done]|].
  specialize (IH s). destruct (C.scan_word width s) as [w rest].
  cbn [fst String.length Str.all] in *. rewrite Hc. destruct IH. split; [lia | done].
Qed.

Lemma ht_set_keys (P : string → Prop) ht key c b :
  ht_wf ht → P key →
  Forall (λ item, P (it_key item)) (ht_entries ht) →
  Forall (λ item, P (it_key item)) (ht_entries (ht_set ht key c b)).
Proof.
  intros Hwf Hkey Hall. unfold ht_set. destruct (hash_search ht key).
  - apply Forall_fmap. rewrite ht_store_keys by done. by apply Forall_fmap.
  - rewrite ht_link_entries by done. by constructor.
Qed.

Lemma read_vocabulary_spec fuel file vocab :
  ht_wf vocab →
  Forall (λ item, text_token (it_key item)) (ht_entries vocab) →
  let vocab' := read_vocabulary fuel file vocab in
  ht_wf vocab'
  ∧ ht_size vocab' = ht_size vocab
  ∧ ht_count vocab' = ht_count vocab
  ∧ Forall (λ item, text_token (it_key item)) (ht_entries vocab').
Proof.
  cbv zeta. revert file vocab. induction fuel as [|fuel IH]; intros file vocab Hwf Hall.
  { done. }
  cbn [read_vocabulary].
  pose proof (scan_word_spec 255 (C.skip_space file)) as [Hlen Hvis].
  destruct (C.scan_word 255 (C.skip_space file)) as [token file1].
  cbn [fst] in *. destruct token as [|c token]; [done|].
  destruct (C.scan_int (C.skip_space file1)) as [[count file2]|]; [|done].
  set (token' := String c token) in *.
  destruct (IH (C.skip_space file2) (ht_set vocab token' count false))
    as (Hwf' & Hsize & Hcount & Hall').
  - by apply ht_set_wf.
  - apply ht_set_keys; [done | | done].
    split; [done|]. split; [done|]. unfold Str.len. lia.
  - split; [done|]. split; [|split; [|done]].
    + rewrite Hsize. unfold ht_set. by destruct (hash_search vocab token').
    + rewrite Hcount. unfold ht_set. by destruct (hash_search vocab token').
Qed.

(** X25: for a vocabulary file without NUL bytes in which every number
    fits an [int] (none has more than nine digits): a table returned by
    [load_vocabulary] always has 100 buckets and an item count of 0,
    however many tokens it holds (the loader links the items itself and
    never counts them); its keys are pairwise distinct, not empty, at most
    255 bytes long and free of white space. *)
Theorem load_vocabulary_table (fs : FileSystem) (filename file : string)
  (vocab : HashTable) (merges : list string) :
  fs !! filename = Some file → no_nul file → short_numbers file →
  load_vocabulary fs filename = Some (vocab, merges) →
  ht_wf vocab
  ∧ ht_size vocab = 100
  ∧ ht_count vocab = 0
  ∧ Forall (λ item, text_token (it_key item)) (ht_entries vocab).
Proof.
  intros Hfile _ _. unfold load_vocabulary. rewrite Hfile.
  destruct (C.scan_int file) as [[merge_count rest]|]; [|done].
  destruct (merge_count <? 0); [done|].
  destruct (read_merges _ _) as [[merges' rest']|]; [|done].
  intros [= <- _]. apply read_vocabulary_spec.
  - apply ht_create_wf. lia.
  - rewrite ht_create_entries. constructor.
Qed.

Lemma load_vocabulary_merges_witness :
  let file := "2" +:+ C.nl +:+ "[C] [C]" +:+ C.nl +:+ "[C][C] [N]" +:+ C.nl
              +:+ VOCABULARY_MARKER +:+ C.nl
              +:+ "[C]" +:+ C.tab +:+ "3" +:+ C.nl in
  let fs : FileSystem := {[ "vocab.txt" := file ]} in
  fs !! "vocab.txt" = Some file ∧ no_nul file ∧ short_numbers file
  ∧ ∃ vocab merges,
      load_vocabulary fs "vocab.txt" = Some (vocab, merges)
      ∧ length merges = 2%nat
      ∧ Forall (λ m, Str.len m ≤ 255 ∧ Str.mem "010" m = false) merges.
Proof.
  intros file fs.
  assert (fs !! "vocab.txt" = Some file) as Hfile by reflexivity.
  assert (no_nul file) as Hz by reflexivity.
  assert (short_numbers file) as Hnum by reflexivity.
  assert (∃ vocab merges,
            load_vocabulary fs "vocab.txt" = Some (vocab, merges)
            ∧ length merges = 2%nat)
    as (vocab & merges & Hload & Hlen)
    by (vm_compute; eexists _, _; split; reflexivity).
  split; [exact Hfile|]. split; [exact Hz|]. split; [exact Hnum|].
  exists vocab, merges. split; [exact Hload|]. split; [exact Hlen|].
  exact (proj2 (load_vocabulary_merges fs "vocab.txt" file vocab merges
                  Hfile Hz Hnum Hload)).
Defined.

Lemma load_vocabulary_table_witness :
  let file := "1" +:+ C.nl +:+ "[C] [C]" +:+ C.nl
              +:+ VOCABULARY_MARKER +:+ C.nl
              +:+ "[C]" +:+ C.tab +:+ "3" +:+ C.nl
              +:+ "[C][C]" +:+ C.tab +:+ "2" +:+ C.nl in
  let fs : FileSystem := {[ "vocab.txt" := file ]} in
  fs !! "vocab.txt" = Some file ∧ no_nul file ∧ short_numbers file
  ∧ ∃ vocab merges,
      load_vocabulary fs "vocab.txt" = Some (vocab, merges)
      ∧ ht_tokens vocab = 2 ∧ ht_size vocab = 100 ∧ ht_count vocab = 0.
Proof.
  intros file fs.
  assert (fs !! "vocab.txt" = Some file) as Hfile by reflexivity.
  assert (no_nul file) as Hz by reflexivity.
  assert (short_numbers file) as Hnum by reflexivity.
  assert (∃ vocab merges,
            load_vocabulary fs "vocab.txt" = Some (vocab, merges)
            ∧ ht_tokens vocab = 2)
    as (vocab & merges & Hload & Htokens)
    by (vm_compute; eexists _, _; split; reflexivity).
  split; [exact Hfile|]. split; [exact Hz|]. split; [exact Hnum|].
  exists vocab, merges. split; [exact Hload|]. split; [exact Htokens|].
  destruct (load_vocabulary_table fs "vocab.txt" file vocab merges Hfile Hz Hnum Hload)
    as (_ & Hsize & Hcount & _).
  split; [exact Hsize | exact Hcount].
Defined.

End TextFormatUse.

(** ** The JSON format *)

Section JsonFormatUse.

Implicit Types (ht vocab : HashTable) (st : json_state).

Ltac not_among Hin :=
  intros Hin;
  repeat (apply elem_of_cons in Hin as [? | Hin]; [congruence|]);
  by apply elem_of_nil in Hin.

Lemma json_escaped_cases c :
  json_escaped c
  = if decide (c = "034"%char) then true
    else if decide (c = "\"%char) then true
    else if decide (c = "/"%char) then true
    else if decide (c = "008"%char) then true
    else if decide (c = "012"%char) then true
    else if decide (c = "010"%char) then true
    else if decide (c = "013"%char) then true
    else if decide (c = "009"%char) then true
    else false.
Proof.
  repeat case_decide; subst; try reflexivity.
  unfold json_escaped. apply bool_decide_false. not_among Hin.
Qed.

Lemma json_escape_length input :
  String.length (json_escape_string input)
  = (String.length input + escape_count input)%nat.
Proof.
  induction input as [|c input IH]; [done|].
  cbn [json_escape_string escape_count]. rewrite json_escaped_cases.
  repeat case_decide; cbn [String.length]; rewrite IH; lia.
Qed.

Lemma json_escape_no_control input :
  Str.all (λ c, negb (is_control c)) (json_escape_string input) = true.
Proof.
  induction input as [|c input IH]; [done|].
  cbn [json_escape_string].
  repeat case_decide; cbn [Str.all]; rewrite IH; try reflexivity.
  rewrite andb_true_r. apply negb_true_iff. unfold is_control.
  apply bool_decide_false. not_among Hin.
Qed.

(** X26: [json_escape_string] writes exactly [input_len + escape_count]
    bytes, the size it allocated its buffer for (one more byte holds the
    terminator); the result contains none of the control bytes backspace,
    form feed, newline, carriage return and tab, so an escaped token
    stays on its line of the JSON file. *)
Theorem json_escape_string_fits (input : string) :
  String.length (json_escape_string input)
  = (String.length input + escape_count input)%nat
  ∧ Str.all (λ c, negb (is_control c)) (json_escape_string input) = true.
Proof. split; [apply json_escape_length | apply json_escape_no_control]. Qed.

(** X27: [json_escape_string] is injective: two different tokens are
    never written to the JSON files as the same key. *)
Theorem json_escape_string_injective (s t : string) :
  json_escape_string s = json_escape_string t → s = t.
Proof.
  revert t. induction s as [|c s IH]; intros [|d t]; cbn [json_escape_string].
  - done.
  - repeat case_decide; done.
  - repeat case_decide; done.
  - repeat case_decide; intros Heq; simplify_eq; try congruence; f_equal; auto.
Qed.

Lemma json_escape_string_injective_witness :
  json_escape_string "[C/O]" = "[C\/O]" ∧ "[C/O]" = "[C/O]".
Proof.
  split; [reflexivity|].
  exact (json_escape_string_injective "[C/O]" "[C/O]" eq_refl).
Defined.

















End JsonFormatUse.
